(** * GenWeightsTableProducer: generator-weight tables and run counters

    A shallow embedding of [plugins/GenWeightsTableProducer.cc]: the
    per-stream [Counter], the per-run [DynamicWeightChoice] computed from the
    LHE run header, and the per-event table filling.

    Conventions of the embedding:
    - a C++ [double] is a binary64 primitive float ([PrimFloat.float]);
    - a C++ [float] (the [(muR, muF)] pair) is held in the same type, the
      binary32 values being a subset of the binary64 ones on which [==] and
      [<] agree;
    - [long double] is an interface ([LongDouble]) because its format is
      platform dependent;
    - [unsigned int] is a [Z] in [0, 2^32) with its wrap-around written out;
      [long long num] is an unbounded [Z] (a signed overflow would need more
      than 9e18 events in a run and is undefined in C++);
    - [std::vector<T>] is [list T]; an out-of-range [operator[]] is undefined
      behaviour in C++ and is the outcome [Undefined] of [result];
    - a thrown exception is the [Throw] outcome of [result];
    - text printed to the console under [debug] is not part of the model,
      the exchanges on the atomic flags are. *)

From Stdlib Require Import ZArith List String Ascii Bool Lia Floats DecimalString.
From stdpp Require Import base list strings.

Local Open Scope string_scope.
Local Open Scope list_scope.
Local Open Scope Z_scope.

Abbreviation double := PrimFloat.float.

(** ** Exceptions *)

Inductive exception : Type :=
| CmsException (category message : string)   (* cms::Exception(category, message) *)
| InvalidArgument (what : string)            (* std::invalid_argument *)
| OutOfRange (what : string)                 (* std::out_of_range *)
| ProductNotFound (what : string).           (* dereference of an invalid edm::Handle *)

(** The outcome of a C++ call: a value, an exception, or an execution the
    language leaves undefined (here: indexing a vector out of range). *)
Inductive result (A : Type) : Type :=
| Ok (a : A)
| Throw (e : exception)
| Undefined.
Arguments Ok {A} a.
Arguments Throw {A} e.
Arguments Undefined {A}.

(** Sequencing stops at the first exception: [x ← r; k] is stdpp's
    notation for [mbind]. *)
#[global] Instance result_ret : MRet result := fun A a => Ok a.
#[global] Instance result_bind : MBind result := fun A B f r =>
  match r with
  | Ok a => f a
  | Throw e => Throw e
  | Undefined => Undefined
  end.

(** [v[i]] on a [std::vector]. *)
Definition vec_at {A : Type} (v : list A) (i : nat) : result A :=
  match v !! i with
  | Some x => Ok x
  | None => Undefined
  end.

(** [v.resize(n, x)]. *)
Definition resize {A : Type} (n : nat) (x : A) (v : list A) : list A :=
  take n v ++ replicate (n - length v) x.

(** [for (unsigned int i = 0; i < n; ++i) body], the loop state threaded
    through the iterations. *)
Fixpoint for_loop_from {S : Type} (i count : nat) (body : nat -> S -> result S)
    (s : S) : result S :=
  match count with
  | O => Ok s
  | Datatypes.S count' => s' ← body i s; for_loop_from (Datatypes.S i) count' body s'
  end.

Definition for_loop {S : Type} (n : nat) (body : nat -> S -> result S) (s : S)
  : result S :=
  for_loop_from 0 n body s.

(** [std::find(v.begin(), v.end(), x) - v.begin()], [None] for [v.end()]. *)
Fixpoint std_find (v : list string) (x : string) : option nat :=
  match v with
  | [] => None
  | y :: v' => if String.eqb y x then Some O else Datatypes.S <$> std_find v' x
  end.

(** ** Characters and strings of the C++ library *)

Definition dquote : ascii := "034"%char.
Definition newline : ascii := "010"%char.

Definition char_code (c : ascii) : N := N_of_ascii c.

(** [std::isspace] in the classic locale: space, \t, \n, \v, \f, \r. *)
Definition isspace (c : ascii) : bool :=
  (char_code c =? 32)%N || ((9 <=? char_code c)%N && (char_code c <=? 13)%N).

(** [std::isdigit]: '0' .. '9'. *)
Definition isdigit (c : ascii) : bool :=
  (48 <=? char_code c)%N && (char_code c <=? 57)%N.

Definition digit_value (c : ascii) : Z := Z.of_N (char_code c) - 48.

(** [std::string::operator<]: lexicographic on the characters' codes. *)
Definition string_lt (a b : string) : bool := String.ltb a b.

(** [operator<<(unsigned)]: the decimal digits of the value. *)
Definition dec_of_nat (n : nat) : string := NilZero.string_of_uint (Nat.to_uint n).
Definition dec_of_Z (z : Z) : string := NilZero.string_of_uint (N.to_uint (Z.to_N z)).

(** *** [std::stoi]

    Base 10: leading white space is skipped, an optional sign is read, then
    the longest run of digits.  No digit at all throws
    [std::invalid_argument]; a value outside [int] throws
    [std::out_of_range]. *)

Definition INT_MAX : Z := 2147483647.
Definition INT_MIN : Z := -2147483648.
Definition UINT_MOD : Z := 4294967296.

Fixpoint skip_space (s : list ascii) : list ascii :=
  match s with
  | c :: s' => if isspace c then skip_space s' else s
  | [] => []
  end.

Fixpoint read_digits (s : list ascii) (acc : option Z) : option Z :=
  match s with
  | c :: s' =>
      if isdigit c
      then read_digits s' (Some (10 * default 0 acc + digit_value c))
      else acc
  | [] => acc
  end.

Definition stoi (str : string) : result Z :=
  let s := skip_space (list_ascii_of_string str) in
  let '(negative, s) :=
    match s with
    | c :: s' =>
        if Ascii.eqb c "-" then (true, s')
        else if Ascii.eqb c "+" then (false, s')
        else (false, s)
    | [] => (false, s)
    end in
  match read_digits s None with
  | None => Throw (InvalidArgument "stoi")
  | Some v =>
      let v := if negative then - v else v in
      if (v <? INT_MIN) || (INT_MAX <? v)
      then Throw (OutOfRange "stoi")
      else Ok v
  end.

(** Conversion of an [int] to [unsigned int]. *)
Definition to_unsigned (z : Z) : Z := z mod UINT_MOD.

(** *** [std::stringstream]

    A stream constructed from a string with the default open mode
    ([in | out], neither [ate] nor [app]) keeps that string as its buffer and
    starts writing at position 0: inserted characters replace the buffer's
    characters one for one and extend it once its end is reached.  [str()]
    returns the whole buffer. *)

Record stringstream : Type := mkStream {
  ss_buf : string;
  ss_pos : nat
}.

Definition ss_init (s : string) : stringstream := mkStream s 0%nat.

Definition ss_put (ss : stringstream) (t : string) : stringstream :=
  let n := (ss_pos ss + String.length t)%nat in
  mkStream
    (String.substring 0 (ss_pos ss) (ss_buf ss) ++ t
     ++ String.substring n (String.length (ss_buf ss) - n)%nat (ss_buf ss))
    n.

Definition ss_str (ss : stringstream) : string := ss_buf ss.

Notation "ss << t" := (ss_put ss t) (at level 50, left associativity).

(** *** [std::regex] (ECMAScript grammar) and [std::regex_search]

    The fragment of the grammar the four patterns of the parser use:
    literals, the classes [\s], [\S], [\d] and [.], concatenation, the greedy
    quantifiers [*], [+] and [?], and numbered capture groups.  Matching is
    the backtracking search ECMAScript prescribes: a quantifier first tries
    one more iteration and falls back to the rest of the pattern, and
    [regex_search] returns the match that starts leftmost. *)

Inductive char_class : Type :=
| ClsSpace      (* \s *)
| ClsNotSpace   (* \S *)
| ClsDigit      (* \d *)
| ClsAny.       (* .  : any character but \n and \r *)

Definition in_class (cl : char_class) (c : ascii) : bool :=
  match cl with
  | ClsSpace => isspace c
  | ClsNotSpace => negb (isspace c)
  | ClsDigit => isdigit c
  | ClsAny => negb ((char_code c =? 10)%N || (char_code c =? 13)%N)
  end.

Inductive regex : Type :=
| REmpty
| RChar (c : ascii)
| RClass (cl : char_class)
| RSeq (r1 r2 : regex)
| RStar (r : regex)
| ROpt (r : regex)
| RGroup (n : nat) (r : regex).

Definition RPlus (r : regex) : regex := RSeq r (RStar r).

Fixpoint RLit (s : string) : regex :=
  match s with
  | EmptyString => REmpty
  | String c s' => RSeq (RChar c) (RLit s')
  end.

(** The sub-matches recorded so far, most recent first. *)
Definition captures : Type := list (nat * string).

(** The characters consumed between the input [s] and its suffix [s']. *)
Definition consumed (s s' : list ascii) : string :=
  string_of_list_ascii (take (length s - length s')%nat s).

(** [rmatch r s caps k]: match [r] at the head of [s], then continue with
    [k] on what is left; [None] once every alternative has failed. *)
Fixpoint rmatch (r : regex) (s : list ascii) (caps : captures)
    (k : list ascii -> captures -> option captures) {struct r} : option captures :=
  match r with
  | REmpty => k s caps
  | RChar c =>
      match s with
      | a :: s' => if Ascii.eqb a c then k s' caps else None
      | [] => None
      end
  | RClass cl =>
      match s with
      | a :: s' => if in_class cl a then k s' caps else None
      | [] => None
      end
  | RSeq r1 r2 => rmatch r1 s caps (fun s' caps' => rmatch r2 s' caps' k)
  | RStar r1 =>
      (fix iterate (fuel : nat) (s : list ascii) (caps : captures) {struct fuel} :=
         match fuel with
         | O => k s caps
         | S fuel' =>
             match rmatch r1 s caps (fun s' caps' =>
                     if (length s' <? length s)%nat
                     then iterate fuel' s' caps'
                     else None) with
             | Some found => Some found
             | None => k s caps
             end
         end) (length s) s caps
  | ROpt r1 =>
      match rmatch r1 s caps k with
      | Some found => Some found
      | None => k s caps
      end
  | RGroup n r1 =>
      rmatch r1 s caps (fun s' caps' => k s' ((n, consumed s s') :: caps'))
  end.

Fixpoint search_from (r : regex) (s : list ascii) : option captures :=
  match rmatch r s [] (fun _ caps => Some caps) with
  | Some caps => Some caps
  | None =>
      match s with
      | _ :: s' => search_from r s'
      | [] => None
      end
  end.

(** [std::regex_search(line, groups, r)]: the sub-matches on success. *)
Definition regex_search (line : string) (r : regex) : option captures :=
  search_from r (list_ascii_of_string line).

(** [groups.str(n)]; a group that took no part in the match is empty. *)
Fixpoint group_str (groups : captures) (n : nat) : string :=
  match groups with
  | (m, s) :: rest => if (m =? n)%nat then s else group_str rest n
  | [] => EmptyString
  end.

Definition matches (line : string) (r : regex) : bool :=
  match regex_search line r with Some _ => true | None => false end.

(** ** The four patterns of the header parser

    In the comments below the pattern is spelled token by token, [Q] standing
    for the double-quote character of the C++ literal. *)

Definition rs_plus : regex := RPlus (RClass ClsSpace).    (* \s+ *)
Definition rs_star : regex := RStar (RClass ClsSpace).    (* \s* *)
Definition rany_star : regex := RStar (RClass ClsAny).    (* .* *)
Definition rdigits : regex := RPlus (RClass ClsDigit).    (* \d+ *)
Definition rnonspace : regex := RPlus (RClass ClsNotSpace). (* \S+ *)

Fixpoint rseq (rs : list regex) : regex :=
  match rs with
  | [] => REmpty
  | r :: rs' => RSeq r (rseq rs')
  end.

(** [<weightgroup \s+ combine= Q ( .* ) Q \s+ name= Q ( .* ) Q \s* >] *)
Definition weightgroup : regex :=
  rseq [ RLit "<weightgroup"; rs_plus; RLit "combine="; RChar dquote;
         RGroup 1 rany_star; RChar dquote; rs_plus; RLit "name="; RChar dquote;
         RGroup 2 rany_star; RChar dquote; rs_star; RLit ">" ].

(** [</weightgroup>] *)
Definition endweightgroup : regex := RLit "</weightgroup>".

(** [<weight \s+ id= Q ( \d+ ) Q > \s* ( muR= ( \S+ ) \s+ muF= ( \S+ ) ( \s+ .* )? ) </weight>] *)
Definition scalew : regex :=
  rseq [ RLit "<weight"; rs_plus; RLit "id="; RChar dquote; RGroup 1 rdigits;
         RChar dquote; RLit ">"; rs_star;
         RGroup 2 (rseq [ RLit "muR="; RGroup 3 rnonspace; rs_plus;
                          RLit "muF="; RGroup 4 rnonspace;
                          ROpt (RGroup 5 (RSeq rs_plus rany_star)) ]);
         RLit "</weight>" ].

(** [<weight \s+ id= Q ( \d+ ) Q > \s* PDF set \s* = \s* ( \d+ ) \s* </weight>] *)
Definition pdfw : regex :=
  rseq [ RLit "<weight"; rs_plus; RLit "id="; RChar dquote; RGroup 1 rdigits;
         RChar dquote; RLit ">"; rs_star; RLit "PDF set"; rs_star; RLit "=";
         rs_star; RGroup 2 rdigits; rs_star; RLit "</weight>" ].

(** ** [long double]

    The running sums are [long double]: at least the precision of [double],
    80-bit extended on x86.  The counter only needs the zero, the addition
    and the conversion from [double]. *)
Class LongDouble : Type := {
  long_double : Type;
  ld_zero : long_double;
  ld_add : long_double -> long_double -> long_double;
  ld_of_double : double -> long_double
}.

(** The platforms on which [long double] is binary64 as well. *)
Definition binary64_long_double : LongDouble := {|
  long_double := double;
  ld_zero := 0%float;
  ld_add := PrimFloat.add;
  ld_of_double := fun x => x
|}.

(** A fragment of [std::stof] for running the model on sample headers: the
    literals below denote these values exactly; every other string is
    reported as not convertible. *)
Definition stof_sample (s : string) : result double :=
  if String.eqb s "1" then Ok 1%float
  else if String.eqb s "2" then Ok 2%float
  else if String.eqb s "0.5" then Ok 0.5%float
  else if String.eqb s "1.0" then Ok 1%float
  else if String.eqb s "2.0" then Ok 2%float
  else Throw (InvalidArgument "stof").

Section Plugin.

Context {LD : LongDouble}.

(** [std::stof]: the [float] a string denotes, or the exception thrown
    ([std::invalid_argument], [std::out_of_range]). *)
Variable stof : string -> result double.

(** ** Counter: running sums of weights (lines 18-64) *)

Record Counter : Type := mkCounter {
  num : Z;
  sumw : long_double;
  sumw2 : long_double;
  sumPDF : list long_double;
  sumScale : list long_double;
  sumNamed : list long_double
}.

Definition Counter_new : Counter :=
  mkCounter 0 ld_zero ld_zero [] [] [].

Definition clear (c : Counter) : Counter :=
  mkCounter 0 ld_zero ld_zero [] [] [].

Definition incGenOnly (c : Counter) (w : double) : Counter :=
  mkCounter (num c + 1)
            (ld_add (sumw c) (ld_of_double w))
            (ld_add (sumw2 c) (ld_of_double (w * w)%float))
            (sumPDF c) (sumScale c) (sumNamed c).

(** [if (!w.empty()) { if (sum.empty()) sum.resize(w.size(), 0);
     for (i < w.size()) sum[i] += (w0 * w[i]); }] *)
Definition add_variations (w0 : double) (w : list double) (sum : list long_double)
  : result (list long_double) :=
  if bool_decide (w = [])
  then Ok sum
  else
    let sum := if bool_decide (sum = []) then resize (length w) ld_zero sum else sum in
    for_loop (length w) (fun i sum =>
      s ← vec_at sum i;
      x ← vec_at w i;
      Ok (<[i := ld_add s (ld_of_double (w0 * x)%float)]> sum)) sum.

Definition incLHE (c : Counter) (w0 : double) (wScale wPDF wNamed : list double)
  : result Counter :=
  let c := incGenOnly c w0 in
  sScale ← add_variations w0 wScale (sumScale c);
  sPDF ← add_variations w0 wPDF (sumPDF c);
  sNamed ← add_variations w0 wNamed (sumNamed c);
  Ok (mkCounter (num c) (sumw c) (sumw2 c) sPDF sScale sNamed).

(** [if (sum.empty() && !other.empty()) sum.resize(other.size(), 0);] *)
Definition merge_resize (sum other : list long_double) : list long_double :=
  if bool_decide (sum = []) && negb (bool_decide (other = []))
  then resize (length other) ld_zero sum
  else sum.

(** [for (i < sum.size()) sum[i] += other[i];] *)
Definition merge_add (sum other : list long_double) : result (list long_double) :=
  for_loop (length sum) (fun i sum =>
    s ← vec_at sum i;
    o ← vec_at other i;
    Ok (<[i := ld_add s o]> sum)) sum.

Definition merge (c other : Counter) : result Counter :=
  let num' := num c + num other in
  let sumw' := ld_add (sumw c) (sumw other) in
  let sumw2' := ld_add (sumw2 c) (sumw2 other) in
  let sScale := merge_resize (sumScale c) (sumScale other) in
  let sPDF := merge_resize (sumPDF c) (sumPDF other) in
  let sNamed := merge_resize (sumNamed c) (sumNamed other) in
  sScale ← merge_add sScale (sumScale other);
  sPDF ← merge_add sPDF (sumPDF other);
  sNamed ← merge_add sNamed (sumNamed other);
  Ok (mkCounter num' sumw' sumw2' sPDF sScale sNamed).

(** ** DynamicWeightChoice: the LHE weights chosen for a run (lines 67-75) *)

Record DynamicWeightChoice : Type := mkChoice {
  scaleWeightIDs : list string;
  scaleWeightsDoc : string;
  pdfWeightIDs : list string;
  pdfWeightsDoc : string
}.

(** [std::make_shared<DynamicWeightChoice>()]: every member default
    constructed. *)
Definition DynamicWeightChoice_new : DynamicWeightChoice :=
  mkChoice [] EmptyString [] EmptyString.

(** ** ScaleVarWeight (lines 78-84) *)

Record ScaleVarWeight : Type := mkScaleVarWeight {
  sv_wid : string;
  sv_label : string;
  sv_scales : double * double
}.

(** The constructor converts [muR] and [muF] with [std::stof]; C++ leaves
    the order of the two conversions open, the model converts [muR] first.
    The order shows only where both conversions throw, in which of the two
    exceptions is thrown. *)
Definition ScaleVarWeight_new (id text muR muF : string) : result ScaleVarWeight :=
  r ← stof muR;
  f ← stof muF;
  Ok (mkScaleVarWeight id text (r, f)).

(** [operator==] and [operator<] of [std::pair<float, float>]. *)
Definition pair_eq (a b : double * double) : bool :=
  (a.1 =? b.1)%float && (a.2 =? b.2)%float.

Definition pair_lt (a b : double * double) : bool :=
  (a.1 <? b.1)%float || (negb (b.1 <? a.1)%float && (a.2 <? b.2)%float).

(** [ScaleVarWeight::operator<] *)
Definition ScaleVarWeight_lt (a other : ScaleVarWeight) : bool :=
  if pair_eq (sv_scales a) (sv_scales other)
  then string_lt (sv_wid a) (sv_wid other)
  else pair_lt (sv_scales a) (sv_scales other).

(** [std::sort(v.begin(), v.end())] with [operator<].  For an [operator<]
    that is a strict weak ordering (no NaN among the scales) the standard
    fixes the result up to the order of equivalent elements; the model keeps
    those in their input order, as the insertion sort libstdc++ runs on
    short ranges does.  With a NaN among the scales the behaviour of
    [std::sort] is undefined: what is proved of the sorted order takes the
    scales to be numbers. *)
Fixpoint sort_insert (x : ScaleVarWeight) (sorted : list ScaleVarWeight)
  : list ScaleVarWeight :=
  match sorted with
  | [] => [x]
  | y :: rest =>
      if ScaleVarWeight_lt y x then y :: sort_insert x rest else x :: sorted
  end.

Definition std_sort (v : list ScaleVarWeight) : list ScaleVarWeight :=
  foldr sort_insert [] v.

(** ** PDFSetWeights (lines 85-99) *)

Record PDFSetWeights : Type := mkPDFSetWeights {
  wids : list string;
  lhaIDs : Z * Z
}.

Definition PDFSetWeights_new (wid : string) (lhaID : Z) : PDFSetWeights :=
  mkPDFSetWeights [wid] (lhaID, lhaID).

(** [maybe_add]: the updated group and the value returned. *)
Definition maybe_add (g : PDFSetWeights) (wid : string) (lhaID : Z)
  : PDFSetWeights * bool :=
  if lhaID =? ((lhaIDs g).2 + 1) mod UINT_MOD
  then (mkPDFSetWeights (wids g ++ [wid])
                        ((lhaIDs g).1, ((lhaIDs g).2 + 1) mod UINT_MOD), true)
  else (g, false).

(** ** Products read and written

    Modelled from the spec: [FlatTable] and the event, run and configuration
    records of the framework, whose headers are not among the sources.  A
    table has a row count, a name, the single-row flag, a documentation
    string and its columns in the order they were added; a column records
    its name, the values handed over, its documentation and its type (the
    table stores the values in single precision, the model keeps them as
    they were handed over). *)

Inductive ColumnType : Type := FloatColumn | IntColumn | UInt8Column | BoolColumn.

Record Column : Type := mkColumn {
  col_name : string;
  col_values : list double;
  col_doc : string;
  col_type : ColumnType
}.

Record FlatTable : Type := mkFlatTable {
  ft_size : nat;
  ft_name : string;
  ft_singleton : bool;
  ft_doc : string;
  ft_columns : list Column
}.

Definition FlatTable_new (size : nat) (name : string) (singleton : bool) : FlatTable :=
  mkFlatTable size name singleton EmptyString [].

Definition setDoc (t : FlatTable) (doc : string) : FlatTable :=
  mkFlatTable (ft_size t) (ft_name t) (ft_singleton t) doc (ft_columns t).

Definition addColumn (t : FlatTable) (name : string) (values : list double)
    (doc : string) (type : ColumnType) : FlatTable :=
  mkFlatTable (ft_size t) (ft_name t) (ft_singleton t) (ft_doc t)
              (ft_columns t ++ [mkColumn name values doc type]).

Definition addColumnValue (t : FlatTable) (name : string) (value : double)
    (doc : string) (type : ColumnType) : FlatTable :=
  addColumn t name [value] doc type.

(** [LHEEventProduct::WGT] *)
Record WGT : Type := mkWGT {
  wgt_id : string;
  wgt : double
}.

Record LHEEventProduct : Type := mkLHEEventProduct {
  originalXWGTUP : double;
  weights : list WGT
}.

Record GenEventInfoProduct : Type := mkGenEventInfoProduct {
  weight : double
}.

(** What the event holds under the two input tags; [None]: no such product. *)
Record Event : Type := mkEvent {
  ev_genInfo : option GenEventInfoProduct;
  ev_lheInfo : option LHEEventProduct
}.

Record LHEHeader : Type := mkLHEHeader {
  tag : string;
  lines : list string
}.

(** [LHERunInfoProduct]: its headers, [headers_begin()] to [headers_end()]. *)
Record LHERunInfoProduct : Type := mkLHERunInfoProduct {
  headers : list LHEHeader
}.

Record Run : Type := mkRun {
  run_lheInfo : option LHERunInfoProduct
}.

Record ParameterSet : Type := mkParameterSet {
  genEvent : string;
  lheInfo : string;
  preferredPDFs : list Z;
  namedWeightIDs : list string;
  namedWeightLabels : list string;
  debug : option bool
}.

(** The four tables [produce] puts into the event. *)
Record EventTables : Type := mkEventTables {
  out_genWeight : FlatTable;
  out_LHEScale : FlatTable;
  out_LHEPdf : FlatTable;
  out_LHENamed : FlatTable
}.

(** Messages handed to the message logger. *)
Inductive LogMessage : Type :=
| LogWarning (category message : string).

(** ** GenWeightsTableProducer (lines 102-377) *)

Record GenWeightsTableProducer : Type := mkProducer {
  genTag_ : string;
  lheLabel_ : string;
  preferredPDFLHAIDs_ : list Z;
  namedWeightIDs_ : list string;
  namedWeightLabels_ : list string
}.

(** The [mutable std::atomic<bool>] members. *)
Record Atomics : Type := mkAtomics {
  debug_ : bool;
  debugRun_ : bool;
  hasIssuedWarning_ : bool
}.

(** [flag.exchange(desired)]: the value held before, and the flag after. *)
Definition exchange (flag desired : bool) : bool * bool := (flag, desired).

(** What the module mutates while events are processed: the counter of each
    stream ([streamCache(id)]), the atomic flags, and the messages logged.
    A call of [produce] touches exactly one atomic flag, once, so every
    concurrent execution of events on several streams agrees on the flags and
    on the log with the sequence of the calls taken in the order of those
    exchanges. *)
Record ModuleState : Type := mkModuleState {
  streamCaches : list Counter;
  atomics : Atomics;
  messages : list LogMessage
}.

(** *** Constructor (lines 104-123) *)

Definition GenWeightsTableProducer_new (params : ParameterSet)
  : result (GenWeightsTableProducer * Atomics) :=
  let dbg := default false (debug params) in
  if negb (length (namedWeightIDs params) =? length (namedWeightLabels params))%nat
  then Throw (CmsException "Configuration"
                "Size mismatch between namedWeightIDs & namedWeightLabels")
  else Ok (mkProducer (genEvent params) (lheInfo params) (preferredPDFs params)
                      (namedWeightIDs params) (namedWeightLabels params),
           mkAtomics dbg dbg false).

(** *** fillLHEWeightTables (lines 168-211) *)

(** [auto m = std::find(ids.begin(), ids.end(), weight.id);
     if (m != ids.end()) w[m - ids.begin()] = weight.wgt / w0;] *)
Definition set_matching (ids : list string) (w0 : double) (weight : WGT)
    (w : list double) : list double :=
  match std_find ids (wgt_id weight) with
  | Some i => <[i := (wgt weight / w0)%float]> w
  | None => w
  end.

(** Lines 184-196: the three vectors start at 1 and every weight of the
    event overwrites the slots it matches. *)
Definition normalized_weights (scaleIDs pdfIDs namedIDs : list string)
    (w0 : double) (ws : list WGT) : list double * list double * list double :=
  fold_left
    (fun '(wScale, wPDF, wNamed) weight =>
       (set_matching scaleIDs w0 weight wScale,
        set_matching pdfIDs w0 weight wPDF,
        set_matching namedIDs w0 weight wNamed))
    ws
    (replicate (length scaleIDs) 1%float,
     replicate (length pdfIDs) 1%float,
     replicate (length namedIDs) 1%float).

(** Line 207, the body of the loop over the named weights. *)
Definition named_doc (id : string) : string :=
  "LHE weight for id " ++ id ++ ", relative to nominal".

Definition add_named_column (p : GenWeightsTableProducer) (wNamed : list double)
    (i : nat) (outNamed : FlatTable) : result FlatTable :=
  label ← vec_at (namedWeightLabels_ p) i;
  value ← vec_at wNamed i;
  id ← vec_at (namedWeightIDs_ p) i;
  Ok (addColumnValue outNamed label value (named_doc id) FloatColumn).

Definition fillLHEWeightTables (p : GenWeightsTableProducer) (counter : Counter)
    (weightChoice : DynamicWeightChoice) (genWeight : double)
    (lheProd : LHEEventProduct) (a : Atomics)
  : result (Counter * Atomics * (FlatTable * FlatTable * FlatTable)) :=
  let '(lheDebug, debug') := exchange (debug_ a) false in
  let a := mkAtomics debug' (debugRun_ a) (hasIssuedWarning_ a) in
  let w0 := originalXWGTUP lheProd in
  let '(wScale, wPDF, wNamed) :=
    normalized_weights (scaleWeightIDs weightChoice) (pdfWeightIDs weightChoice)
                       (namedWeightIDs_ p) w0 (weights lheProd) in
  let outScale := FlatTable_new (length wScale) "LHEScaleWeight" false in
  let outScale :=
    addColumn outScale EmptyString wScale (scaleWeightsDoc weightChoice) FloatColumn in
  let outPdf := FlatTable_new (length wPDF) "LHEPdfWeight" false in
  let outPdf :=
    addColumn outPdf EmptyString wPDF (pdfWeightsDoc weightChoice) FloatColumn in
  let outNamed := FlatTable_new 1 "LHEWeight" true in
  let outNamed :=
    addColumnValue outNamed "originalXWGTUP" (originalXWGTUP lheProd)
                   "Nominal event weight in the LHE file" FloatColumn in
  outNamed ← for_loop (length wNamed) (add_named_column p wNamed) outNamed;
  counter ← incLHE counter genWeight wScale wPDF wNamed;
  Ok (counter, a, (outScale, outPdf, outNamed)).

(** *** produce (lines 127-166) *)

Definition no_lhe_warning : LogMessage :=
  LogWarning "LHETablesProducer"
    ("No LHEEventProduct, so there will be no LHE Tables" ++ String newline EmptyString).

Definition produce (p : GenWeightsTableProducer) (id : nat)
    (weightChoice : DynamicWeightChoice) (iEvent : Event) (st : ModuleState)
  : result (ModuleState * EventTables) :=
  counter ← vec_at (streamCaches st) id;
  genInfo ← match ev_genInfo iEvent with
            | Some g => Ok g
            | None => Throw (ProductNotFound (genTag_ p))
            end;
  let weight := weight genInfo in
  let out := FlatTable_new 1 "genWeight" true in
  let out := setDoc out "generator weight" in
  let out := addColumnValue out EmptyString weight "generator weight" FloatColumn in
  match ev_lheInfo iEvent with
  | Some lheInfo =>
      '(counter, a, (lheScaleTab, lhePdfTab, lheNamedTab)) ←
        fillLHEWeightTables p counter weightChoice weight lheInfo (atomics st);
      Ok (mkModuleState (<[id := counter]> (streamCaches st)) a (messages st),
          mkEventTables out lheScaleTab lhePdfTab lheNamedTab)
  | None =>
      let counter := incGenOnly counter weight in
      let lheScaleTab := FlatTable_new 1 "LHEScaleWeights" true in
      let lhePdfTab := FlatTable_new 1 "LHEPdfWeights" true in
      let lheNamedTab := FlatTable_new 1 "LHENamedWeights" true in
      let '(issued, flag') := exchange (hasIssuedWarning_ (atomics st)) false in
      let a := mkAtomics (debug_ (atomics st)) (debugRun_ (atomics st)) flag' in
      let log := if negb issued
                 then messages st ++ [no_lhe_warning]
                 else messages st in
      Ok (mkModuleState (<[id := counter]> (streamCaches st)) a log,
          mkEventTables out lheScaleTab lhePdfTab lheNamedTab)
  end.

(** The events of a run in the order they are processed, each on its
    stream; the tables of every event are collected. *)
Fixpoint process_events (p : GenWeightsTableProducer)
    (weightChoice : DynamicWeightChoice) (events : list (nat * Event))
    (st : ModuleState) : result (ModuleState * list EventTables) :=
  match events with
  | [] => Ok (st, [])
  | (id, iEvent) :: rest =>
      '(st, tables) ← produce p id weightChoice iEvent st;
      '(st, more) ← process_events p weightChoice rest st;
      Ok (st, tables :: more)
  end.

(** *** globalBeginRun (lines 214-326) *)

(** The two vectors the parser fills while it reads the headers. *)
Record Collected : Type := mkCollected {
  scaleVariationIDs : list ScaleVarWeight;
  pdfSetWeightIDs : list PDFSetWeights
}.

(** Where the scan stands: in the outer loop, or in the inner loop of a
    [scale_variation] group, of a [PDF_variation] group or of any other
    group. *)
Inductive GroupState : Type := Outside | InScale | InPDF | InOther.

Definition enter_group (name : string) : GroupState :=
  if String.eqb name "scale_variation" then InScale
  else if String.eqb name "PDF_variation" then InPDF
  else InOther.

(** Line 247: [scaleVariationIDs.emplace_back(groups.str(1), groups.str(2),
    groups.str(3), groups.str(4))]. *)
Definition add_scale (groups : captures) (acc : Collected) : result Collected :=
  sw ← ScaleVarWeight_new (group_str groups 1) (group_str groups 2)
                          (group_str groups 3) (group_str groups 4);
  Ok (mkCollected (scaleVariationIDs acc ++ [sw]) (pdfSetWeightIDs acc)).

(** Lines 261-265: the weight extends the last group when its LHA ID follows
    that group's range, and opens a new group otherwise. *)
Definition add_pdf (groups : captures) (acc : Collected) : result Collected :=
  v ← stoi (group_str groups 2);
  let lhaID := to_unsigned v in
  let pdfs := pdfSetWeightIDs acc in
  let fresh := pdfs ++ [PDFSetWeights_new (group_str groups 1) lhaID] in
  Ok (mkCollected (scaleVariationIDs acc)
        match last pdfs with
        | None => fresh
        | Some back =>
            let '(back, added) := maybe_add back (group_str groups 1) lhaID in
            if added then <[pred (length pdfs) := back]> pdfs else fresh
        end).

(** Lines 238-289, one header: the loop over the lines as a state machine.
    [dispatch] is the body of the outer loop on the current line; an inner
    loop that meets a group opener rewinds by one line and leaves, so the
    outer loop runs its body on that same line. *)
Fixpoint scan_lines (st : GroupState) (ls : list string) (acc : Collected)
  : result Collected :=
  match ls with
  | [] => Ok acc
  | line :: rest =>
      let dispatch :=
        match regex_search line weightgroup with
        | Some groups => scan_lines (enter_group (group_str groups 2)) rest acc
        | None => scan_lines Outside rest acc
        end in
      match st with
      | Outside => dispatch
      | InScale =>
          match regex_search line scalew with
          | Some groups => acc ← add_scale groups acc; scan_lines InScale rest acc
          | None =>
              if matches line endweightgroup then scan_lines Outside rest acc
              else if matches line weightgroup then dispatch
              else scan_lines InScale rest acc
          end
      | InPDF =>
          match regex_search line pdfw with
          | Some groups => acc ← add_pdf groups acc; scan_lines InPDF rest acc
          | None =>
              if matches line endweightgroup then scan_lines Outside rest acc
              else if matches line weightgroup then dispatch
              else scan_lines InPDF rest acc
          end
      | InOther =>
          if matches line endweightgroup then scan_lines Outside rest acc
          else if matches line weightgroup then dispatch
          else scan_lines InOther rest acc
      end
  end.

(** Lines 293-303. *)
Definition scale_doc_start : string :=
  "LHE scale variation weights (w_var / w_nominal); ".

Fixpoint describe_scales (isw : nat) (sws : list ScaleVarWeight)
    (scaleDoc : stringstream) (ids : list string) : stringstream * list string :=
  match sws with
  | [] => (scaleDoc, ids)
  | sw :: rest =>
      let scaleDoc := if (isw =? 0)%nat then scaleDoc else scaleDoc << "; " in
      let scaleDoc := scaleDoc << "[" << dec_of_nat isw << "] is " << sv_label sw in
      describe_scales (S isw) rest scaleDoc (ids ++ [sv_wid sw])
  end.

Definition resolve_scales (sorted : list ScaleVarWeight)
    (weightChoice : DynamicWeightChoice) : DynamicWeightChoice :=
  let '(scaleDoc, ids) :=
    describe_scales 0 sorted (ss_init scale_doc_start) (scaleWeightIDs weightChoice) in
  mkChoice ids
           (if bool_decide (sorted = [])
            then scaleWeightsDoc weightChoice
            else ss_str scaleDoc)
           (pdfWeightIDs weightChoice) (pdfWeightsDoc weightChoice).

(** Lines 311-322. *)
Definition pdf_doc_start : string :=
  "LHE pdf variation weights (w_var / w_nominal) for LHA IDs ".

(** The inner loop: the first group whose range starts at [lhaid]. *)
Fixpoint find_pdf_group (lhaid : Z) (groups : list PDFSetWeights)
  : option PDFSetWeights :=
  match groups with
  | [] => None
  | pw :: rest =>
      if negb ((lhaIDs pw).1 =? lhaid) then find_pdf_group lhaid rest else Some pw
  end.

(** The outer loop, left as soon as the inner loop has found a group. *)
Fixpoint choose_pdf (preferred : list Z) (groups : list PDFSetWeights)
  : option PDFSetWeights :=
  match preferred with
  | [] => None
  | lhaid :: rest =>
      match find_pdf_group lhaid groups with
      | Some pw => Some pw
      | None => choose_pdf rest groups
      end
  end.

Definition resolve_pdf (preferred : list Z) (groups : list PDFSetWeights)
    (weightChoice : DynamicWeightChoice) : DynamicWeightChoice :=
  let pdfDoc := ss_init pdf_doc_start in
  match choose_pdf preferred groups with
  | Some pw =>
      let pdfDoc := pdfDoc << dec_of_Z (lhaIDs pw).1 << " - "
                           << dec_of_Z (lhaIDs pw).2 << String newline EmptyString in
      mkChoice (scaleWeightIDs weightChoice) (scaleWeightsDoc weightChoice)
               (wids pw) (ss_str pdfDoc)
  | None => weightChoice
  end.

(** Lines 231-323: the loop over the headers.  The two vectors live across
    the headers, and every [initrwgt] header is followed by the sort and the
    two resolutions. *)
Fixpoint read_headers (p : GenWeightsTableProducer) (hs : list LHEHeader)
    (acc : Collected) (weightChoice : DynamicWeightChoice)
  : result (Collected * DynamicWeightChoice) :=
  match hs with
  | [] => Ok (acc, weightChoice)
  | h :: rest =>
      if negb (String.eqb (tag h) "initrwgt")
      then read_headers p rest acc weightChoice
      else
        acc ← scan_lines Outside (lines h) acc;
        let acc := mkCollected (std_sort (scaleVariationIDs acc)) (pdfSetWeightIDs acc) in
        let weightChoice := resolve_scales (scaleVariationIDs acc) weightChoice in
        let weightChoice :=
          resolve_pdf (preferredPDFLHAIDs_ p) (pdfSetWeightIDs acc) weightChoice in
        read_headers p rest acc weightChoice
  end.

Definition globalBeginRun (p : GenWeightsTableProducer) (iRun : Run) (a : Atomics)
  : Atomics * result DynamicWeightChoice :=
  let '(lheDebug, debugRun') := exchange (debugRun_ a) false in
  let a := mkAtomics (debug_ a) debugRun' (hasIssuedWarning_ a) in
  let weightChoice := DynamicWeightChoice_new in
  (a,
   match run_lheInfo iRun with
   | Some lheInfo =>
       '(_, weightChoice) ←
         read_headers p (headers lheInfo) (mkCollected [] []) weightChoice;
       Ok weightChoice
   | None => Ok weightChoice
   end).

(** *** Stream and run caches (lines 330-344) *)

Definition beginStream : Counter := Counter_new.

Definition streamBeginRun (id : nat) (st : ModuleState) : result ModuleState :=
  counter ← vec_at (streamCaches st) id;
  Ok (mkModuleState (<[id := clear counter]> (streamCaches st))
                    (atomics st) (messages st)).

Definition globalBeginRunSummary : Counter := Counter_new.

Definition streamEndRunSummary (id : nat) (st : ModuleState) (runCounter : Counter)
  : result Counter :=
  counter ← vec_at (streamCaches st) id;
  merge runCounter counter.

(** *** globalEndRunProduce (lines 349-363)

    Modelled from the spec: [MergableCounterTable], whose header is not
    among the sources.  The table keeps, in the order they were added, its
    integer, floating-point and vector entries, each with its name, its
    documentation and the value handed over. *)

Record MergableCounterTable : Type := mkCounterTable {
  ct_ints : list (string * string * Z);
  ct_floats : list (string * string * long_double);
  ct_vfloats : list (string * string * list long_double)
}.

Definition MergableCounterTable_new : MergableCounterTable :=
  mkCounterTable [] [] [].

Definition addInt (t : MergableCounterTable) (name doc : string) (value : Z)
  : MergableCounterTable :=
  mkCounterTable (ct_ints t ++ [(name, doc, value)]) (ct_floats t) (ct_vfloats t).

Definition addFloat (t : MergableCounterTable) (name doc : string)
    (value : long_double) : MergableCounterTable :=
  mkCounterTable (ct_ints t) (ct_floats t ++ [(name, doc, value)]) (ct_vfloats t).

Definition addVFloat (t : MergableCounterTable) (name doc : string)
    (values : list long_double) : MergableCounterTable :=
  mkCounterTable (ct_ints t) (ct_floats t) (ct_vfloats t ++ [(name, doc, values)]).

(** Line 359, the body of the loop over the labels. *)
Definition add_named_sum (p : GenWeightsTableProducer) (runCounter : Counter)
    (i : nat) (out : MergableCounterTable) : result MergableCounterTable :=
  label ← vec_at (namedWeightLabels_ p) i;
  value ← vec_at (sumNamed runCounter) i;
  Ok (addFloat out ("LHESumw_" ++ label)
               ("Sum of genEventWeight * LHEWeight_" ++ label) value).

Definition globalEndRunProduce (p : GenWeightsTableProducer) (runCounter : Counter)
  : result MergableCounterTable :=
  let out := MergableCounterTable_new in
  let out := addInt out "genEventCount" "event count" (num runCounter) in
  let out := addFloat out "genEventSumw" "sum of gen weights" (sumw runCounter) in
  let out := addFloat out "genEventSumw2" "sum of gen (weight^2)" (sumw2 runCounter) in
  let out := addVFloat out "LHEScaleSumw" "Sum of genEventWeight * LHEScaleWeight[i]"
                       (sumScale runCounter) in
  let out := addVFloat out "LHEPdfSumw" "Sum of genEventWeight * LHEPdfWeight[i]"
                       (sumPDF runCounter) in
  if negb (bool_decide (sumNamed runCounter = []))
  then for_loop (length (namedWeightLabels_ p)) (add_named_sum p runCounter) out
  else Ok out.

End Plugin.

(** * Vocabulary of the properties *)

(** How many of the events have no LHE payload. *)
Fixpoint count_without_lhe (events : list (nat * Event)) : nat :=
  match events with
  | [] => 0%nat
  | (_, iEvent) :: rest =>
      match ev_lheInfo iEvent with
      | None => S (count_without_lhe rest)
      | Some _ => count_without_lhe rest
      end
  end.

(** The weight the event carries for [id]: with several entries under the
    same identifier, that of the last one. *)
Fixpoint last_weight (ws : list WGT) (id : string) : option double :=
  match ws with
  | [] => None
  | w :: rest =>
      match last_weight rest id with
      | Some x => Some x
      | None => if String.eqb (wgt_id w) id then Some (wgt w) else None
      end
  end.

(** What a slot configured with [id] should hold. *)
Definition normalized_entry (w0 : double) (ws : list WGT) (id : string) : double :=
  match last_weight ws id with
  | Some w => (w / w0)%float
  | None => 1%float
  end.

(** [id] is configured at slot [i] and at no slot before. *)
Definition first_at (ids : list string) (i : nat) (id : string) : Prop :=
  ids !! i = Some id ∧ ∀ j, (j < i)%nat → ids !! j ≠ Some id.

(** [id] is configured at slot [i] and already at an earlier slot. *)
Definition repeated_at (ids : list string) (i : nat) (id : string) : Prop :=
  ids !! i = Some id ∧ ∃ j, (j < i)%nat ∧ ids !! j = Some id.

(** One of the three vectors of lines 184-196 taken alone. *)
Definition fill_vector (ids : list string) (w0 : double) (ws : list WGT)
    (init : list double) : list double :=
  fold_left (fun w weight => set_matching ids w0 weight w) ws init.

(** What holds of each of the three vectors: one entry per configured
    identifier, and at the first slot of an identifier the normalised weight
    of the event, 1 for an identifier the event does not carry. *)
Definition normalized_vector (ids : list string) (w0 : double) (ws : list WGT)
    (v : list double) : Prop :=
  length v = length ids
  ∧ ∀ i id, first_at ids i id → v !! i = Some (normalized_entry w0 ws id).

(** The entries of a vector that the event matches are quotients by [w0]
    and are not finite. *)
Definition matched_entries_not_finite (ids : list string) (w0 : double)
    (ws : list WGT) (v : list double) : Prop :=
  ∀ i id w, first_at ids i id → last_weight ws id = Some w →
    v !! i = Some (w / w0)%float ∧ is_finite (w / w0)%float = false.

(** The range of the group starts at [lhaid]. *)
Definition starts_at (lhaid : Z) (pw : PDFSetWeights) : Prop := (lhaIDs pw).1 = lhaid.

(** [pw] is the first of the groups, in the order they were collected,
    whose range starts at [lhaid]. *)
Definition first_group_at (lhaid : Z) (groups : list PDFSetWeights)
    (pw : PDFSetWeights) : Prop :=
  ∃ before after,
    groups = before ++ pw :: after
    ∧ starts_at lhaid pw
    ∧ Forall (fun g => ¬ starts_at lhaid g) before.

(** No group starts at [lhaid]. *)
Definition no_group_at (groups : list PDFSetWeights) (lhaid : Z) : Prop :=
  Forall (fun g => ¬ starts_at lhaid g) groups.

(** [pw] is the group the priority order designates: the first group that
    starts at the earliest preferred identifier at which a group starts. *)
Definition selected_group (preferred : list Z) (groups : list PDFSetWeights)
    (pw : PDFSetWeights) : Prop :=
  ∃ earlier lhaid later,
    preferred = earlier ++ lhaid :: later
    ∧ Forall (no_group_at groups) earlier
    ∧ first_group_at lhaid groups pw.

(** The starts of the groups collected so far. *)
Definition group_starts (groups : list PDFSetWeights) : list Z :=
  map (fun g => (lhaIDs g).1) groups.

(** The two PDF members of a choice. *)
Definition pdf_part (weightChoice : DynamicWeightChoice) : list string * string :=
  (pdfWeightIDs weightChoice, pdfWeightsDoc weightChoice).

(** A line that closes a group and nothing else: it matches the closing
    tag and none of the three other patterns. *)
Definition closes_group (line : string) : Prop :=
  matches line endweightgroup = true
  ∧ matches line weightgroup = false
  ∧ matches line scalew = false
  ∧ matches line pdfw = false.

(** A line that opens a group and nothing else. *)
Definition opens_group (line : string) : Prop :=
  matches line weightgroup = true
  ∧ matches line endweightgroup = false
  ∧ matches line scalew = false
  ∧ matches line pdfw = false.

(** The vector a sum of variations is added to: an empty one stands for
    [n] zeros. *)
Definition zeros_if_empty {LD : LongDouble} (n : nat) (sum : list long_double)
  : list long_double :=
  if bool_decide (sum = []) then replicate n ld_zero else sum.

(** No local vector is longer than the vector of [other]. *)
Definition covers {LD : LongDouble} (c other : Counter) : Prop :=
  (length (sumScale c) ≤ length (sumScale other))%nat
  ∧ (length (sumPDF c) ≤ length (sumPDF other))%nat
  ∧ (length (sumNamed c) ≤ length (sumNamed other))%nat.

(** The variations [w] of an event can be added to [sum]: there are none,
    or [sum] is still empty, or [sum] has an entry for each of them. *)
Definition takes_variations {LD : LongDouble} (w : list double)
    (sum : list long_double) : Prop :=
  w = [] ∨ sum = [] ∨ (length w ≤ length sum)%nat.

(** [sum] after the variations [w] of an event of weight [w0]: entry [i]
    grows by [w0 * w[i]], entries past the end of [w] stay. *)
Definition accumulated {LD : LongDouble} (w0 : double) (w : list double)
    (sum : list long_double) : list long_double :=
  let base := zeros_if_empty (length w) sum in
  zip_with (fun s x => ld_add s (ld_of_double (w0 * x)%float)) base w
  ++ drop (length w) base.


(** The sums of a counter have the lengths of the run: each is still
    empty or has one entry per identifier of the choice and of the
    configuration. *)
Definition counter_fits {LD : LongDouble} (p : GenWeightsTableProducer)
    (weightChoice : DynamicWeightChoice) (c : Counter) : Prop :=
  (sumScale c = [] ∨ length (sumScale c) = length (scaleWeightIDs weightChoice))
  ∧ (sumPDF c = [] ∨ length (sumPDF c) = length (pdfWeightIDs weightChoice))
  ∧ (sumNamed c = [] ∨ length (sumNamed c) = length (namedWeightIDs_ p)).

(** The generator weights of the events processed on stream [id], in the
    order of the events. *)
Fixpoint stream_weights (id : nat) (events : list (nat * Event)) : list double :=
  match events with
  | [] => []
  | (j, iEvent) :: rest =>
      match ev_genInfo iEvent with
      | Some genInfo =>
          if (j =? id)%nat
          then weight genInfo :: stream_weights id rest
          else stream_weights id rest
      | None => stream_weights id rest
      end
  end.

(** The events counted by all the counters together. *)
Definition total_num {LD : LongDouble} (counters : list Counter) : Z :=
  foldr (fun c n => num c + n) 0 counters.

(** Every column of the table has one value per row, and a single-row
    table has one row. *)
Definition table_well_formed (t : FlatTable) : Prop :=
  Forall (fun col => length (col_values col) = ft_size t) (ft_columns t)
  ∧ (ft_singleton t = true → ft_size t = 1%nat).


(** The identifier of the weight stands in one of the three lists of
    identifiers the tables are filled for. *)
Definition is_configured (p : GenWeightsTableProducer)
    (weightChoice : DynamicWeightChoice) (w : WGT) : bool :=
  match std_find (scaleWeightIDs weightChoice) (wgt_id w),
        std_find (pdfWeightIDs weightChoice) (wgt_id w),
        std_find (namedWeightIDs_ p) (wgt_id w) with
  | None, None, None => false
  | _, _, _ => true
  end.

(** An event with the generator record [genInfo] and the LHE payload of
    nominal weight [w0] and weights [ws]. *)
Definition lhe_event (genInfo : option GenEventInfoProduct) (w0 : double)
    (ws : list WGT) : Event :=
  mkEvent genInfo (Some (mkLHEEventProduct w0 ws)).


(** The group holds as many identifiers as its range has LHA IDs, at least
    one, and its range starts at an [unsigned int]. *)
Definition group_contiguous (g : PDFSetWeights) : Prop :=
  wids g ≠ []
  ∧ 0 ≤ (lhaIDs g).1 < UINT_MOD
  ∧ (lhaIDs g).2 = ((lhaIDs g).1 + Z.of_nat (length (wids g)) - 1) mod UINT_MOD.

(** No group starts at the LHA ID that follows the range of the group
    collected just before it. *)
Definition runs_apart (groups : list PDFSetWeights) : Prop :=
  ∀ i g1 g2, groups !! i = Some g1 → groups !! S i = Some g2 →
    (lhaIDs g2).1 ≠ ((lhaIDs g1).2 + 1) mod UINT_MOD.


(** Neither scale of the weight is a NaN: on such weights [operator<] is a
    strict weak ordering, as [std::sort] requires. *)
Definition scales_are_numbers (sw : ScaleVarWeight) : Prop :=
  is_nan (sv_scales sw).1 = false ∧ is_nan (sv_scales sw).2 = false.

(** The list is sorted as [std::sort] leaves it: no element is followed,
    at any distance, by one that [operator<] puts before it. *)
Fixpoint in_order (v : list ScaleVarWeight) : Prop :=
  match v with
  | a :: rest => Forall (fun b => ScaleVarWeight_lt b a = false) rest ∧ in_order rest
  | [] => True
  end.

(** Three-way comparison of two [float]s, [Eq] where one is a NaN. *)
Definition float_compare (x y : double) : comparison :=
  match SFcompare (Prim2SF x) (Prim2SF y) with
  | Some c => c
  | None => Eq
  end.

(** Lexicographic comparison of pairs. *)
Definition lex_compare {A B : Type} (ca : A → A → comparison)
    (cb : B → B → comparison) (x y : A * B) : comparison :=
  match ca x.1 y.1 with
  | Eq => cb x.2 y.2
  | c => c
  end.

(** Three-way comparison of two scale weights: by [muR], then by [muF],
    then by identifier. *)
Definition sv_compare (a b : ScaleVarWeight) : comparison :=
  lex_compare float_compare (lex_compare float_compare String.compare)
    ((sv_scales a).1, ((sv_scales a).2, sv_wid a))
    ((sv_scales b).1, ((sv_scales b).2, sv_wid b)).

(** [c] is a three-way comparison of a total preorder on the values that
    satisfy [D]. *)
Definition ordering_on {A : Type} (D : A → Prop) (c : A → A → comparison) : Prop :=
  (∀ x y, c y x = CompOpp (c x y))
  ∧ (∀ x y z, D x → D y → D z → c x y = Lt → c y z = Lt → c x z = Lt)
  ∧ (∀ x y z, D x → D y → c x y = Eq → c x z = c y z).

(** How many elements of the list [operator<] does not tell from [x]. *)
Fixpoint count_equivalent (x : ScaleVarWeight) (v : list ScaleVarWeight) : nat :=
  match v with
  | [] => 0
  | y :: rest =>
      match sv_compare x y with
      | Eq => S (count_equivalent x rest)
      | _ => count_equivalent x rest
      end
  end.


(** The entry of the run table for the named weight of label [label]. *)
Definition named_sum_entry {LD : LongDouble} (label : string) (value : long_double)
  : string * string * long_double :=
  (("LHESumw_" ++ label)%string,
   ("Sum of genEventWeight * LHEWeight_" ++ label)%string, value).

(** The framework ends the run on the streams [ids] one after the other:
    each is merged into the run counter by [streamEndRunSummary]. *)
Fixpoint end_streams {LD : LongDouble} (ids : list nat) (st : ModuleState)
    (runCounter : Counter) : result Counter :=
  match ids with
  | [] => Ok runCounter
  | id :: rest =>
      runCounter ← streamEndRunSummary id st runCounter;
      end_streams rest st runCounter
  end.

(** The three sum vectors of the counter have the lengths [lens]. *)
Definition has_lengths {LD : LongDouble} (lens : nat * nat * nat) (c : Counter) : Prop :=
  length (sumScale c) = lens.1.1
  ∧ length (sumPDF c) = lens.1.2
  ∧ length (sumNamed c) = lens.2.


(** The events counted on stream [id], none for a stream that does not
    exist. *)
Definition num_at {LD : LongDouble} (counters : list Counter) (id : nat) : Z :=
  match counters !! id with
  | Some c => num c
  | None => 0
  end.


(** The framework begins the run on the streams [ids] one after the
    other. *)
Fixpoint begin_streams {LD : LongDouble} (ids : list nat) (st : ModuleState)
  : result ModuleState :=
  match ids with
  | [] => Ok st
  | id :: rest =>
      st ← streamBeginRun id st;
      begin_streams rest st
  end.

(** * Sample inputs *)

(** Header lines are written with an apostrophe where the LHE file has a
    double quote. *)
Definition with_quotes (s : string) : string :=
  string_of_list_ascii
    (map (fun c => if Ascii.eqb c "'" then dquote else c) (list_ascii_of_string s)).

Definition sample_params : ParameterSet :=
  mkParameterSet "generator" "externalLHEProducer" [91400; 306000; 260000]
                 ["PSw0"; "PSw1"] ["isrUp"; "fsrUp"] None.

Definition sample_params_mismatch : ParameterSet :=
  mkParameterSet "generator" "externalLHEProducer" [91400; 306000; 260000]
                 ["PSw0"; "PSw1"] ["isrUp"] None.

Definition sample_producer : GenWeightsTableProducer :=
  mkProducer "generator" "externalLHEProducer" [91400; 306000; 260000]
             ["PSw0"; "PSw1"] ["isrUp"; "fsrUp"].

(** The same identifier configured for two named columns. *)
Definition repeating_params : ParameterSet :=
  mkParameterSet "generator" "externalLHEProducer" [] ["7"; "7"] ["up"; "down"] None.

Definition repeating_producer : GenWeightsTableProducer :=
  mkProducer "generator" "externalLHEProducer" [] ["7"; "7"] ["up"; "down"].

Definition fresh_atomics : Atomics := mkAtomics false false false.

Definition one_stream : @ModuleState binary64_long_double :=
  @mkModuleState binary64_long_double [@Counter_new binary64_long_double]
                 fresh_atomics [].

Definition event_without_lhe (w : double) : Event :=
  mkEvent (Some (mkGenEventInfoProduct w)) None.

Definition event_with_lhe (w w0 : double) (ws : list WGT) : Event :=
  mkEvent (Some (mkGenEventInfoProduct w)) (Some (mkLHEEventProduct w0 ws)).

Definition sample_choice : DynamicWeightChoice :=
  mkChoice ["1001"; "1002"] "scale" ["2001"; "2002"] "pdf".

Definition closer_line : string := "</weightgroup>".

Definition pdf_opener_line : string :=
  with_quotes "<weightgroup combine='hessian' name='PDF_variation'>".

Definition lines_before_pdf_group : list string :=
  map with_quotes
    [ "<weightgroup combine='envelope' name='scale_variation'>";
      "<weight id='1002'> muR=2 muF=2 </weight>";
      "<weight id='1001'> muR=1 muF=1 </weight>" ].

Definition lines_of_pdf_group : list string :=
  map with_quotes
    [ "<weight id='2001'> PDF set = 306000 </weight>";
      "<weight id='2002'> PDF set = 306001 </weight>";
      "<weight id='2003'> PDF set = 260000 </weight>";
      "</weightgroup>" ].

Definition complete_header : LHEHeader :=
  mkLHEHeader "initrwgt"
    (lines_before_pdf_group ++ closer_line :: pdf_opener_line :: lines_of_pdf_group).

Definition incomplete_header : LHEHeader :=
  mkLHEHeader "initrwgt" (lines_before_pdf_group ++ pdf_opener_line :: lines_of_pdf_group).

Definition run_with (h : LHEHeader) : Run :=
  mkRun (Some (mkLHERunInfoProduct [h])).

(** What [globalBeginRun] returns for the sample header: the two
    documentation strings begin with the text written into the stream and
    end with what is left of the text the stream was constructed from. *)
Definition sample_result : DynamicWeightChoice :=
  mkChoice ["1001"; "1002"]
           "[0] is muR=1 muF=1 ; [1] is muR=2 muF=2 ominal); "
           ["2001"; "2002"]
           ("306000 - 306001" ++ String newline
              "n weights (w_var / w_nominal) for LHA IDs ").

Definition two_events_without_lhe : list (nat * Event) :=
  [(0%nat, event_without_lhe 1); (0%nat, event_without_lhe 3)].

Definition counter_with_scale_sums : @Counter binary64_long_double :=
  @mkCounter binary64_long_double 1 1%float 1%float [] [1.5%float; 0.5%float] [].

Definition event_with_one_weight : Event :=
  event_with_lhe 1 2 [mkWGT "7" 3].

Definition event_with_scale_weights : Event :=
  event_with_lhe 1 2 [mkWGT "1001" 3; mkWGT "PSw1" 5; mkWGT "extra" 9; mkWGT "1001" 1].

Definition lhe_with_zero_nominal_weight : LHEEventProduct :=
  mkLHEEventProduct 0 [mkWGT "1001" 3; mkWGT "2002" 0].

Definition scale_weight_10 : ScaleVarWeight := mkScaleVarWeight "10" "muR=1 muF=1" (1, 1)%float.
Definition scale_weight_9 : ScaleVarWeight := mkScaleVarWeight "9" "muR=1.0 muF=1.0" (1, 1)%float.

(** A counter with one scale sum more than [counter_with_scale_sums]. *)
Definition counter_with_three_scale_sums : @Counter binary64_long_double :=
  @mkCounter binary64_long_double 2 3%float 5%float []
             [0.5%float; 0.25%float; 4%float] [].

Definition counter_with_named_sums : @Counter binary64_long_double :=
  @mkCounter binary64_long_double 1 1%float 1%float [] [] [7%float; 8%float].

Definition counter_with_one_named_sum : @Counter binary64_long_double :=
  @mkCounter binary64_long_double 1 1%float 1%float [] [] [7%float].

Definition two_streams : @ModuleState binary64_long_double :=
  @mkModuleState binary64_long_double
    [@Counter_new binary64_long_double; @Counter_new binary64_long_double]
    fresh_atomics [].

Definition counter_with_other_scale_sums : @Counter binary64_long_double :=
  @mkCounter binary64_long_double 2 3%float 5%float [] [0.5%float; 0.25%float] [].

(** Two streams at the end of a run with two scale weights. *)
Definition two_busy_streams : @ModuleState binary64_long_double :=
  @mkModuleState binary64_long_double
    [counter_with_scale_sums; counter_with_other_scale_sums] fresh_atomics [].

(** Two streams of a module configured with [debug] set. *)
Definition debugging_atomics : Atomics := mkAtomics true true false.

Definition two_debugging_streams : @ModuleState binary64_long_double :=
  @mkModuleState binary64_long_double
    [@Counter_new binary64_long_double; @Counter_new binary64_long_double]
    debugging_atomics [].

Definition events_on_two_streams : list (nat * Event) :=
  [(0%nat, event_with_scale_weights); (1%nat, event_without_lhe 3);
   (0%nat, event_without_lhe 1)].

Definition events_without_lhe_on_two_streams : list (nat * Event) :=
  [(1%nat, event_without_lhe 3); (0%nat, event_without_lhe 1);
   (1%nat, event_without_lhe 2)].

Definition other_opener_line : string :=
  with_quotes "<weightgroup combine='none' name='mass_variation'>".

Definition lines_of_other_group : list string :=
  map with_quotes
    [ "<weight id='3001'> muR=0.5 muF=0.5 </weight>";
      "<weight id='3002'> PDF set = 91400 </weight>" ].

Definition header_with_other_group : LHEHeader :=
  mkLHEHeader "initrwgt"
    (other_opener_line :: lines_of_other_group ++ closer_line :: lines complete_header).

(** Four scale weights, two of them with equal scales. *)
Definition header_with_four_scales : LHEHeader :=
  mkLHEHeader "initrwgt"
    (map with_quotes
       [ "<weightgroup combine='envelope' name='scale_variation'>";
         "<weight id='1002'> muR=2 muF=2 </weight>";
         "<weight id='1001'> muR=1 muF=1 </weight>";
         "<weight id='1003'> muR=1.0 muF=1.0 </weight>";
         "<weight id='1000'> muR=0.5 muF=2 </weight>";
         "</weightgroup>" ]).

Definition header_without_group : LHEHeader :=
  mkLHEHeader "initrwgt" lines_of_other_group.

Definition header_of_another_tag : LHEHeader :=
  mkLHEHeader "MGRunCard" (lines complete_header).

(** * Properties *)

Section Properties.

Context {LD : LongDouble}.

(** [std::stof], any function of its type. *)
Variable stof : string -> result double.

(** ** Construction *)

(** C8: constructing the producer with [namedWeightIDs] and
    [namedWeightLabels] of unequal lengths throws the Configuration
    exception, and no producer exists that could process a run or an event;
    with equal lengths the constructor returns the producer holding the
    configured lists, its warning latch unset. *)
Theorem constructor_checks_named_sizes (params : ParameterSet) :
  (length (namedWeightIDs params) ≠ length (namedWeightLabels params) →
   GenWeightsTableProducer_new params =
     Throw (CmsException "Configuration"
              "Size mismatch between namedWeightIDs & namedWeightLabels"))
  ∧
  (length (namedWeightIDs params) = length (namedWeightLabels params) →
   ∃ p a,
     GenWeightsTableProducer_new params = Ok (p, a)
     ∧ namedWeightIDs_ p = namedWeightIDs params
     ∧ namedWeightLabels_ p = namedWeightLabels params
     ∧ preferredPDFLHAIDs_ p = preferredPDFs params
     ∧ hasIssuedWarning_ a = false).
Proof.
  unfold GenWeightsTableProducer_new. split; intros Hlen.
  - apply Nat.eqb_neq in Hlen. now rewrite Hlen.
  - apply Nat.eqb_eq in Hlen. rewrite Hlen. simpl. eauto 10.
Qed.

(** ** Events without an LHE payload *)

Lemma bind_Ok {A B : Type} (r : result A) (f : A → result B) (b : B) :
  r ≫= f = Ok b → ∃ a, r = Ok a ∧ f a = Ok b.
Proof. destruct r; simpl; intros H; try discriminate. eauto. Qed.

Ltac inv_bind H :=
  let x := fresh "x" in
  let Hx := fresh "Hx" in
  apply bind_Ok in H; destruct H as (x & Hx & H).

Lemma vec_at_Ok {A : Type} (v : list A) (i : nat) (x : A) :
  vec_at v i = Ok x ↔ v !! i = Some x.
Proof. unfold vec_at. destruct (v !! i); split; intros H; congruence. Qed.

(** C7: without the LHE record of the run, [globalBeginRun] returns a choice
    whose four members are empty; and an event without LHE payload gets the
    three tables [LHEScaleWeights], [LHEPdfWeights] and [LHENamedWeights],
    each a single-row table without any column, while the counter of its
    stream counts it as [incGenOnly] does: [num] grows by one, [sumw] by the
    generator weight, [sumw2] by its square, and the three vectors stay. *)
Theorem missing_run_record_and_missing_lhe_payload
    (p : GenWeightsTableProducer) (a : Atomics) :
  snd (globalBeginRun stof p (mkRun None) a) = Ok (mkChoice [] EmptyString [] EmptyString)
  ∧ ∀ (id : nat) (weightChoice : DynamicWeightChoice) (iEvent : Event)
      (st : ModuleState) (counter : Counter) (genInfo : GenEventInfoProduct),
      ev_lheInfo iEvent = None →
      ev_genInfo iEvent = Some genInfo →
      streamCaches st !! id = Some counter →
      ∃ st' tables,
        produce p id weightChoice iEvent st = Ok (st', tables)
        ∧ out_LHEScale tables = mkFlatTable 1 "LHEScaleWeights" true EmptyString []
        ∧ out_LHEPdf tables = mkFlatTable 1 "LHEPdfWeights" true EmptyString []
        ∧ out_LHENamed tables = mkFlatTable 1 "LHENamedWeights" true EmptyString []
        ∧ streamCaches st' =
            <[id := mkCounter (num counter + 1)
                      (ld_add (sumw counter) (ld_of_double (weight genInfo)))
                      (ld_add (sumw2 counter)
                              (ld_of_double (weight genInfo * weight genInfo)%float))
                      (sumPDF counter) (sumScale counter) (sumNamed counter)]>
              (streamCaches st)
        ∧ streamCaches st' = <[id := incGenOnly counter (weight genInfo)]> (streamCaches st).
Proof.
  split; [reflexivity|].
  intros id weightChoice iEvent st counter genInfo Hlhe Hgen Hcounter.
  unfold produce. apply vec_at_Ok in Hcounter. rewrite Hcounter, Hgen, Hlhe. simpl.
  eexists _, _. split; [reflexivity|]. simpl.
  split; [reflexivity|]. split; [reflexivity|]. split; [reflexivity|].
  split; reflexivity.
Qed.

(** ** The warning latch *)

Lemma fillLHEWeightTables_latch p counter weightChoice genWeight lheProd a counter' a' tabs :
  fillLHEWeightTables p counter weightChoice genWeight lheProd a = Ok (counter', a', tabs) →
  hasIssuedWarning_ a' = hasIssuedWarning_ a.
Proof.
  unfold fillLHEWeightTables. simpl.
  destruct (normalized_weights _ _ _ _ _) as [[wScale wPDF] wNamed].
  intros H. inv_bind H. inv_bind H. now inversion H.
Qed.

Lemma produce_latch p id weightChoice iEvent st st' tables :
  hasIssuedWarning_ (atomics st) = false →
  produce p id weightChoice iEvent st = Ok (st', tables) →
  hasIssuedWarning_ (atomics st') = false
  ∧ messages st' =
      messages st ++ match ev_lheInfo iEvent with
                     | None => [no_lhe_warning]
                     | Some _ => []
                     end.
Proof.
  intros Hflag H. unfold produce in H.
  inv_bind H. inv_bind H.
  destruct (ev_lheInfo iEvent) as [lhe|].
  - inv_bind H. destruct x1 as [[counter' a'] [[t1 t2] t3]].
    apply fillLHEWeightTables_latch in Hx1.
    inversion H; subst; simpl. rewrite app_nil_r. split; congruence.
  - simpl in H. rewrite Hflag in H. simpl in H.
    inversion H; subst; simpl. auto.
Qed.

(** C4, as the code has it: the latch is written with [exchange(false)] and
    so stays unset; from the constructor's state on, every event without LHE
    payload logs the warning once more.  After [n] such events of a run the
    log holds [n] copies of the warning, not at most one. *)
Theorem warning_logged_for_every_event_without_lhe
    (p : GenWeightsTableProducer) (weightChoice : DynamicWeightChoice)
    (events : list (nat * Event)) (st st' : ModuleState) (tables : list EventTables) :
  hasIssuedWarning_ (atomics st) = false →
  process_events p weightChoice events st = Ok (st', tables) →
  messages st' = messages st ++ replicate (count_without_lhe events) no_lhe_warning
  ∧ hasIssuedWarning_ (atomics st') = false.
Proof.
  revert st st' tables.
  induction events as [|[id iEvent] rest IH]; intros st st' tables Hflag H; simpl in H.
  - inversion H; subst. simpl. now rewrite app_nil_r.
  - inv_bind H. destruct x as [st1 t1]. simpl in H.
    inv_bind H. destruct x as [st2 more]. simpl in H. inversion H; subst.
    destruct (produce_latch _ _ _ _ _ _ _ Hflag Hx) as [Hflag1 Hlog1].
    destruct (IH _ _ _ Hflag1 Hx0) as [Hlog2 Hflag2].
    split; [|exact Hflag2].
    rewrite Hlog2, Hlog1. simpl.
    destruct (ev_lheInfo iEvent); simpl.
    + now rewrite app_nil_r.
    + now rewrite <- app_assoc.
Qed.

(** ** Merging counters *)

Lemma merge_resize_empty_other (sum : list long_double) : merge_resize sum [] = sum.
Proof.
  unfold merge_resize. rewrite (bool_decide_eq_true_2 (@nil long_double = [])) by done.
  simpl. now rewrite andb_false_r.
Qed.

Lemma merge_add_empty_other (sum : list long_double) :
  merge_add sum [] = if bool_decide (sum = []) then Ok [] else Undefined.
Proof. destruct sum; reflexivity. Qed.

Lemma merge_loop_zip (other : list long_double) (count i : nat) (sum : list long_double) :
  (i + count)%nat = length sum →
  (length sum ≤ length other)%nat →
  for_loop_from i count (fun i sum =>
      s ← vec_at sum i; o ← vec_at other i; Ok (<[i := ld_add s o]> sum)) sum
  = Ok (take i sum ++ zip_with ld_add (drop i sum) (drop i other)).
Proof.
  revert i sum. induction count as [|count IH]; intros i sum Hi Hle; simpl.
  - rewrite Nat.add_0_r in Hi. subst i.
    now rewrite firstn_all, drop_all, app_nil_r.
  - destruct (lookup_lt_is_Some_2 sum i) as [s Hs]; [lia|].
    destruct (lookup_lt_is_Some_2 other i) as [o Ho]; [lia|].
    rewrite (proj2 (vec_at_Ok _ _ _) Hs). simpl.
    rewrite (proj2 (vec_at_Ok _ _ _) Ho). simpl.
    rewrite IH by (rewrite ?length_insert; lia).
    f_equal.
    rewrite (take_S_r (<[i:=ld_add s o]> sum) i (ld_add s o))
      by (apply list_lookup_insert_eq; apply lookup_lt_Some in Hs; lia).
    rewrite take_insert_ge by lia.
    rewrite drop_insert_lt by lia.
    rewrite (drop_S sum s i Hs), (drop_S other o i Ho). simpl.
    now rewrite <- app_assoc.
Qed.

(** Where the vectors of [other] are at least as long as the local ones,
    every access of [merge_add] is in range and the sums are element-wise. *)
Lemma merge_add_in_range (sum other : list long_double) :
  (length sum ≤ length other)%nat →
  merge_add sum other = Ok (zip_with ld_add sum other).
Proof.
  intros Hle. unfold merge_add, for_loop.
  rewrite merge_loop_zip by (simpl; lia). now rewrite take_0, !drop_0.
Qed.

(** C5, as the code has it: [merge] resizes the local vector only when it is
    the empty one, and then reads [other]'s vector at every local index.
    Merging a counter whose three vectors are empty into a counter that
    holds at least one non-empty vector therefore indexes an empty vector:
    the call is undefined, the local vectors are not left unchanged. *)
Theorem merge_of_empty_other_reads_out_of_range (c other : Counter) :
  sumScale other = [] → sumPDF other = [] → sumNamed other = [] →
  sumScale c ≠ [] ∨ sumPDF c ≠ [] ∨ sumNamed c ≠ [] →
  merge c other = Undefined.
Proof.
  intros HS HP HN Hne. unfold merge. rewrite HS, HP, HN.
  rewrite !merge_resize_empty_other, !merge_add_empty_other.
  destruct (sumScale c), (sumPDF c), (sumNamed c); simpl; try reflexivity.
  destruct Hne as [H|[H|H]]; congruence.
Qed.

(** The part of the merge that is defined: with local vectors that are empty
    or as long as [other]'s, the scalar members add up and the vectors are
    the element-wise sums, an empty local vector counting as zeros. *)
Lemma merge_same_lengths (c other : Counter) :
  (sumScale c = [] ∨ length (sumScale c) = length (sumScale other)) →
  (sumPDF c = [] ∨ length (sumPDF c) = length (sumPDF other)) →
  (sumNamed c = [] ∨ length (sumNamed c) = length (sumNamed other)) →
  merge c other =
    Ok (mkCounter (num c + num other)
          (ld_add (sumw c) (sumw other)) (ld_add (sumw2 c) (sumw2 other))
          (zip_with ld_add (merge_resize (sumPDF c) (sumPDF other)) (sumPDF other))
          (zip_with ld_add (merge_resize (sumScale c) (sumScale other)) (sumScale other))
          (zip_with ld_add (merge_resize (sumNamed c) (sumNamed other)) (sumNamed other))).
Proof.
  assert (Hlen : ∀ sum o : list long_double,
             sum = [] ∨ length sum = length o →
             (length (merge_resize sum o) ≤ length o)%nat).
  { intros sum o [->|Hl]; unfold merge_resize.
    - destruct o; simpl; [lia|]. unfold resize. simpl.
      rewrite length_replicate. lia.
    - destruct (bool_decide (sum = []) && negb (bool_decide (o = []))); [|lia].
      unfold resize. rewrite length_app, length_take, length_replicate. lia. }
  intros HS HP HN. unfold merge.
  rewrite !merge_add_in_range by auto. reflexivity.
Qed.

(** ** Normalised weights of an event *)

Lemma normalized_weights_fill (scaleIDs pdfIDs namedIDs : list string) w0 ws :
  normalized_weights scaleIDs pdfIDs namedIDs w0 ws =
    (fill_vector scaleIDs w0 ws (replicate (length scaleIDs) 1%float),
     fill_vector pdfIDs w0 ws (replicate (length pdfIDs) 1%float),
     fill_vector namedIDs w0 ws (replicate (length namedIDs) 1%float)).
Proof.
  unfold normalized_weights, fill_vector.
  generalize (replicate (length scaleIDs) 1%float),
             (replicate (length pdfIDs) 1%float),
             (replicate (length namedIDs) 1%float).
  induction ws as [|w ws IH]; intros a b c; simpl; [reflexivity|apply IH].
Qed.

Lemma std_find_lookup (ids : list string) (x : string) (i : nat) :
  std_find ids x = Some i → ids !! i = Some x.
Proof.
  revert i. induction ids as [|y ids IH]; intros i; simpl; [discriminate|].
  destruct (String.eqb_spec y x) as [->|Hne].
  - intros [= <-]. reflexivity.
  - destruct (std_find ids x) as [k|]; simpl; [|discriminate].
    intros [= <-]. simpl. now apply IH.
Qed.

Lemma std_find_first (ids : list string) (i : nat) (id : string) :
  first_at ids i id → std_find ids id = Some i.
Proof.
  revert i. induction ids as [|y ids IH]; intros i [Hi Hfirst]; [discriminate|].
  simpl. destruct (String.eqb_spec y id) as [->|Hne].
  - destruct i as [|i]; [reflexivity|].
    exfalso. apply (Hfirst 0%nat); [lia|reflexivity].
  - destruct i as [|i]; simpl in Hi; [congruence|].
    rewrite (IH i); [reflexivity|].
    split; [exact Hi|]. intros j Hj. apply (Hfirst (S j)). lia.
Qed.

Lemma std_find_not_repeated (ids : list string) (x : string) (i : nat) (id : string) :
  repeated_at ids i id → std_find ids x ≠ Some i.
Proof.
  revert i. induction ids as [|y ids IH]; intros i [Hi (j & Hj & Hjid)]; simpl; [discriminate|].
  destruct (String.eqb_spec y x) as [->|Hne].
  - intros [= <-]. lia.
  - destruct (std_find ids x) as [k|] eqn:Hk; simpl; [|discriminate].
    intros [= <-]. simpl in Hi.
    destruct j as [|j]; simpl in Hjid.
    + apply std_find_lookup in Hk. congruence.
    + apply (IH k); [|reflexivity]. split; [exact Hi|]. exists j. split; [lia|exact Hjid].
Qed.

Lemma fill_vector_length ids w0 ws init :
  length (fill_vector ids w0 ws init) = length init.
Proof.
  unfold fill_vector. revert init.
  induction ws as [|w ws IH]; intros init; simpl; [reflexivity|].
  rewrite IH. unfold set_matching. destruct (std_find ids (wgt_id w)); [|reflexivity].
  apply length_insert.
Qed.

(** A slot that holds the first occurrence of its identifier ends with the
    normalised weight of the last matching entry of the event, or keeps its
    initial value when no entry matches. *)
Lemma fill_vector_first ids w0 ws init i id :
  first_at ids i id → (i < length init)%nat →
  fill_vector ids w0 ws init !! i =
    match last_weight ws id with
    | Some w => Some (w / w0)%float
    | None => init !! i
    end.
Proof.
  intros Hfirst. unfold fill_vector. revert init.
  induction ws as [|w ws IH]; intros init Hi; simpl; [reflexivity|].
  rewrite IH.
  - destruct (last_weight ws id); [reflexivity|].
    unfold set_matching. destruct (String.eqb_spec (wgt_id w) id) as [->|Hne].
    + rewrite (std_find_first _ _ _ Hfirst). now apply list_lookup_insert_eq.
    + destruct (std_find ids (wgt_id w)) as [k|] eqn:Hk.
      * apply std_find_lookup in Hk. destruct Hfirst as [Hid _].
        rewrite list_lookup_insert_ne; [|congruence].
        destruct (init !! i); reflexivity.
      * destruct (init !! i); reflexivity.
  - unfold set_matching. destruct (std_find ids (wgt_id w)); [|exact Hi].
    now rewrite length_insert.
Qed.

(** A slot whose identifier already stands at an earlier slot is never
    written. *)
Lemma fill_vector_repeated ids w0 ws init i id :
  repeated_at ids i id → fill_vector ids w0 ws init !! i = init !! i.
Proof.
  intros Hrep. unfold fill_vector. revert init.
  induction ws as [|w ws IH]; intros init; simpl; [reflexivity|].
  rewrite IH. unfold set_matching.
  destruct (std_find ids (wgt_id w)) as [k|] eqn:Hk; [|reflexivity].
  apply list_lookup_insert_ne. intros ->.
  now apply (std_find_not_repeated _ _ _ _ Hrep) in Hk.
Qed.

Lemma fill_vector_normalized ids w0 ws :
  normalized_vector ids w0 ws (fill_vector ids w0 ws (replicate (length ids) 1%float)).
Proof.
  split.
  - now rewrite fill_vector_length, length_replicate.
  - intros i id Hfirst.
    assert (Hi : (i < length ids)%nat) by (eapply lookup_lt_Some, Hfirst).
    rewrite (fill_vector_first _ _ _ _ _ _ Hfirst) by (now rewrite length_replicate).
    unfold normalized_entry. destruct (last_weight ws id); [reflexivity|].
    now apply lookup_replicate_2.
Qed.

(** In the vectors that start at 1, a slot that repeats an identifier
    stays at 1. *)
Lemma fill_vector_repeated_one ids w0 ws i id :
  repeated_at ids i id →
  fill_vector ids w0 ws (replicate (length ids) 1%float) !! i = Some 1%float.
Proof.
  intros Hrep.
  assert (Hi : (i < length ids)%nat) by (eapply lookup_lt_Some, Hrep).
  rewrite (fill_vector_repeated _ _ _ _ _ _ Hrep). now apply lookup_replicate_2.
Qed.

Lemma named_columns_loop p (wNamed : list double) count i t t' :
  for_loop_from i count (add_named_column p wNamed) t = Ok t' →
  ∃ cols,
    t' = mkFlatTable (ft_size t) (ft_name t) (ft_singleton t) (ft_doc t)
           (ft_columns t ++ cols)
    ∧ length cols = count
    ∧ ∀ k value id, (k < count)%nat →
        wNamed !! (i + k)%nat = Some value →
        namedWeightIDs_ p !! (i + k)%nat = Some id →
        ∃ label,
          namedWeightLabels_ p !! (i + k)%nat = Some label
          ∧ cols !! k = Some (mkColumn label [value] (named_doc id) FloatColumn).
Proof.
  revert i t. induction count as [|count IH]; intros i t H; simpl in H.
  - inversion H; subst. exists []. split; [destruct t'; simpl; now rewrite app_nil_r|].
    split; [reflexivity|]. intros; lia.
  - inv_bind H. unfold add_named_column in Hx.
    inv_bind Hx. inv_bind Hx. inv_bind Hx. inversion Hx; subst; clear Hx.
    apply vec_at_Ok in Hx0, Hx1, Hx2.
    destruct (IH _ _ H) as (cols & Hcols & Hlen & Hk).
    exists (mkColumn x0 [x1] (named_doc x2) FloatColumn :: cols).
    split; [rewrite Hcols; simpl; now rewrite <- app_assoc|].
    split; [simpl; now rewrite Hlen|].
    intros [|k] value id Hlt Hv Hid.
    + rewrite Nat.add_0_r in *. exists x0. simpl. split; [exact Hx0|]. congruence.
    + replace (i + S k)%nat with (S i + k)%nat in * by lia.
      apply (Hk k value id); [lia|exact Hv|exact Hid].
Qed.

(** What a successful [fillLHEWeightTables] returns, in terms of the three
    vectors of lines 184-196. *)
Lemma fillLHEWeightTables_Ok p counter weightChoice genWeight lheProd a counter' a' tS tP tN :
  fillLHEWeightTables p counter weightChoice genWeight lheProd a
    = Ok (counter', a', (tS, tP, tN)) →
  let w0 := originalXWGTUP lheProd in
  let ws := weights lheProd in
  let wScale := fill_vector (scaleWeightIDs weightChoice) w0 ws
                  (replicate (length (scaleWeightIDs weightChoice)) 1%float) in
  let wPDF := fill_vector (pdfWeightIDs weightChoice) w0 ws
                  (replicate (length (pdfWeightIDs weightChoice)) 1%float) in
  let wNamed := fill_vector (namedWeightIDs_ p) w0 ws
                  (replicate (length (namedWeightIDs_ p)) 1%float) in
  tS = mkFlatTable (length wScale) "LHEScaleWeight" false EmptyString
         [mkColumn EmptyString wScale (scaleWeightsDoc weightChoice) FloatColumn]
  ∧ tP = mkFlatTable (length wPDF) "LHEPdfWeight" false EmptyString
         [mkColumn EmptyString wPDF (pdfWeightsDoc weightChoice) FloatColumn]
  ∧ (∃ cols,
       tN = mkFlatTable 1 "LHEWeight" true EmptyString
              (mkColumn "originalXWGTUP" [w0]
                 "Nominal event weight in the LHE file" FloatColumn :: cols)
       ∧ length cols = length wNamed
       ∧ ∀ i value id,
           wNamed !! i = Some value → namedWeightIDs_ p !! i = Some id →
           ∃ label,
             namedWeightLabels_ p !! i = Some label
             ∧ cols !! i = Some (mkColumn label [value] (named_doc id) FloatColumn))
  ∧ incLHE counter genWeight wScale wPDF wNamed = Ok counter'.
Proof.
  unfold fillLHEWeightTables. simpl. rewrite normalized_weights_fill.
  intros H. inv_bind H. inv_bind H. inversion H; subst; clear H.
  split; [reflexivity|]. split; [reflexivity|]. split; [|exact Hx0].
  unfold for_loop in Hx. apply named_columns_loop in Hx.
  destruct Hx as (cols & -> & Hlen & Hk). exists cols. split; [reflexivity|].
  split; [exact Hlen|].
  intros i value id Hv Hid. apply (Hk i value id); [|exact Hv|exact Hid].
  apply lookup_lt_Some in Hv. exact Hv.
Qed.

(** C1, as the code has it: in the tables of an event with LHE payload, the
    column of [LHEScaleWeight], the column of [LHEPdfWeight] and the named
    columns of [LHEWeight] hold, at the first slot configured with an
    identifier, the weight of the event's last entry under that identifier
    divided by [originalXWGTUP], and 1 when the event has no such entry.
    ([std::find] stops at the first slot of an identifier, so the property
    is stated for that slot.) *)
Theorem normalized_columns_of_an_lhe_event
    (p : GenWeightsTableProducer) (id : nat) (weightChoice : DynamicWeightChoice)
    (iEvent : Event) (lheProd : LHEEventProduct) (st st' : ModuleState)
    (tables : EventTables) :
  ev_lheInfo iEvent = Some lheProd →
  produce p id weightChoice iEvent st = Ok (st', tables) →
  let w0 := originalXWGTUP lheProd in
  let ws := weights lheProd in
  (∃ wScale,
     ft_columns (out_LHEScale tables) =
       [mkColumn EmptyString wScale (scaleWeightsDoc weightChoice) FloatColumn]
     ∧ normalized_vector (scaleWeightIDs weightChoice) w0 ws wScale)
  ∧ (∃ wPDF,
     ft_columns (out_LHEPdf tables) =
       [mkColumn EmptyString wPDF (pdfWeightsDoc weightChoice) FloatColumn]
     ∧ normalized_vector (pdfWeightIDs weightChoice) w0 ws wPDF)
  ∧ (∃ wNamed,
     normalized_vector (namedWeightIDs_ p) w0 ws wNamed
     ∧ ∀ i wid, namedWeightIDs_ p !! i = Some wid →
         ∃ label value,
           namedWeightLabels_ p !! i = Some label
           ∧ wNamed !! i = Some value
           ∧ ft_columns (out_LHENamed tables) !! (S i) =
               Some (mkColumn label [value] (named_doc wid) FloatColumn)).
Proof.
  intros Hlhe H. unfold produce in H.
  inv_bind H. inv_bind H. rewrite Hlhe in H. inv_bind H.
  destruct x1 as [[counter' a'] [[tS tP] tN]]. inversion H; subst; clear H. simpl.
  apply fillLHEWeightTables_Ok in Hx1. simpl in Hx1.
  destruct Hx1 as (-> & -> & (cols & -> & _ & Hcols) & _).
  split; [|split].
  - eexists. split; [reflexivity|]. apply fill_vector_normalized.
  - eexists. split; [reflexivity|]. apply fill_vector_normalized.
  - eexists. split; [apply fill_vector_normalized|].
    intros i wid Hid.
    destruct (lookup_lt_is_Some_2
                (fill_vector (namedWeightIDs_ p) (originalXWGTUP lheProd) (weights lheProd)
                   (replicate (length (namedWeightIDs_ p)) 1%float)) i) as [value Hv].
    { rewrite fill_vector_length, length_replicate. eapply lookup_lt_Some, Hid. }
    destruct (Hcols i value wid Hv Hid) as (label & Hlabel & Hcol).
    exists label, value. auto.
Qed.

(** ** A zero nominal LHE weight *)

(** IEEE division by a zero never gives a finite number: the quotient is an
    infinity, or a NaN when the dividend is a zero or a NaN. *)
Lemma div_by_zero_not_finite (w w0 : double) :
  (w0 =? 0)%float = true → is_finite (w / w0)%float = false.
Proof.
  intros H0. rewrite FloatAxioms.eqb_spec in H0.
  unfold is_finite, is_nan, is_infinity.
  rewrite !FloatAxioms.eqb_spec, abs_spec, div_spec.
  change (Prim2SF infinity) with (S754_infinity false).
  change (Prim2SF 0) with (S754_zero false) in H0.
  unfold SF64div.
  destruct (Prim2SF w0) as [s0|s0| |s0 m0 e0]; simpl in H0;
    try discriminate; try (destruct s0; discriminate).
  destruct (Prim2SF w) as [s|s| |s m e]; simpl; try reflexivity;
    destruct s, s0; reflexivity.
Qed.

(** C9: [fillLHEWeightTables] divides by [originalXWGTUP] whatever its
    value.  When it is a zero, the call still returns; the three vectors are
    the ones of lines 184-196, they fill the columns and are handed to
    [incLHE] as they are, and each of their matched entries is the quotient
    by that zero, an infinity or a NaN. *)
Theorem zero_nominal_lhe_weight_is_divided_by
    (p : GenWeightsTableProducer) (counter counter' : Counter)
    (weightChoice : DynamicWeightChoice) (genWeight : double)
    (lheProd : LHEEventProduct) (a a' : Atomics) (tS tP tN : FlatTable) :
  (originalXWGTUP lheProd =? 0)%float = true →
  fillLHEWeightTables p counter weightChoice genWeight lheProd a
    = Ok (counter', a', (tS, tP, tN)) →
  ∃ wScale wPDF wNamed,
    normalized_weights (scaleWeightIDs weightChoice) (pdfWeightIDs weightChoice)
      (namedWeightIDs_ p) (originalXWGTUP lheProd) (weights lheProd)
      = (wScale, wPDF, wNamed)
    ∧ map col_values (ft_columns tS) = [wScale]
    ∧ map col_values (ft_columns tP) = [wPDF]
    ∧ map col_values (ft_columns tN) =
        [originalXWGTUP lheProd] :: map (fun x => [x]) wNamed
    ∧ incLHE counter genWeight wScale wPDF wNamed = Ok counter'
    ∧ matched_entries_not_finite (scaleWeightIDs weightChoice)
        (originalXWGTUP lheProd) (weights lheProd) wScale
    ∧ matched_entries_not_finite (pdfWeightIDs weightChoice)
        (originalXWGTUP lheProd) (weights lheProd) wPDF
    ∧ matched_entries_not_finite (namedWeightIDs_ p)
        (originalXWGTUP lheProd) (weights lheProd) wNamed.
Proof.
  intros Hzero H.
  assert (Hmatched : ∀ ids,
            matched_entries_not_finite ids (originalXWGTUP lheProd) (weights lheProd)
              (fill_vector ids (originalXWGTUP lheProd) (weights lheProd)
                 (replicate (length ids) 1%float))).
  { intros ids i id w Hfirst Hw. split; [|now apply div_by_zero_not_finite].
    destruct (fill_vector_normalized ids (originalXWGTUP lheProd) (weights lheProd))
      as (_ & Hentry).
    rewrite (Hentry i id Hfirst). unfold normalized_entry. now rewrite Hw. }
  apply fillLHEWeightTables_Ok in H. simpl in H.
  destruct H as (-> & -> & (cols & -> & Hcolslen & Hcols) & Hinc).
  eexists _, _, _. split; [apply normalized_weights_fill|].
  split; [reflexivity|]. split; [reflexivity|].
  split; [|split; [exact Hinc|auto]].
  simpl. f_equal.
  set (wNamed := fill_vector _ _ _ _) in *.
  assert (Hlen : length wNamed = length (namedWeightIDs_ p)).
  { unfold wNamed. now rewrite fill_vector_length, length_replicate. }
  apply list_eq. intros i. rewrite !list_lookup_fmap.
  destruct (wNamed !! i) as [value|] eqn:Hv; simpl.
  - destruct (lookup_lt_is_Some_2 (namedWeightIDs_ p) i) as [id Hid].
    { rewrite <- Hlen. eapply lookup_lt_Some, Hv. }
    destruct (Hcols i value id Hv Hid) as (label & _ & ->). reflexivity.
  - apply lookup_ge_None in Hv. rewrite (proj2 (lookup_ge_None cols i)); [reflexivity|lia].
Qed.

(** ** Ordering of the scale weights *)

Lemma SFeqb_sym (x y : spec_float) : SFeqb x y = true → SFeqb y x = true.
Proof.
  unfold SFeqb, SFcompare.
  destruct x as [sx|sx| |sx mx ex], y as [sy|sy| |sy my ey];
    try reflexivity; try discriminate;
    try (destruct sx; discriminate); try (destruct sy; discriminate).
  - destruct sx, sy; try reflexivity; discriminate.
  - assert (Hpos : ∀ a b, Pos.compare_cont Eq a b = Eq → Pos.compare_cont Eq b a = Eq).
    { intros a b Hab. change (Pos.compare a b = Eq) in Hab.
      apply Pos.compare_eq in Hab. subst. apply Pos.compare_refl. }
    destruct sx, sy; try discriminate;
      destruct (Z.compare_spec ex ey) as [->|Hlt|Hgt]; try discriminate;
      rewrite Z.compare_refl;
      destruct (Pos.compare_cont Eq mx my) eqn:Hm; try discriminate;
      rewrite (Hpos _ _ Hm); reflexivity.
Qed.

Lemma float_eqb_sym (x y : double) : (x =? y)%float = true → (y =? x)%float = true.
Proof. rewrite !FloatAxioms.eqb_spec. apply SFeqb_sym. Qed.

Lemma pair_eq_sym (a b : double * double) : pair_eq a b = true → pair_eq b a = true.
Proof.
  unfold pair_eq. rewrite !andb_true_iff. intros [H1 H2].
  split; now apply float_eqb_sym.
Qed.

(** C10: between two scale weights whose [(muR, muF)] pairs compare equal,
    [operator<] compares the identifiers as strings.  With the identifiers
    10 and 9 the weight 10 is the smaller one, although 9 < 10 as numbers,
    and [std::sort] places it first whatever the input order. *)
Theorem scale_weight_tiebreak_is_lexicographic (a b : ScaleVarWeight) :
  pair_eq (sv_scales a) (sv_scales b) = true →
  sv_wid a = "10" → sv_wid b = "9" →
  ScaleVarWeight_lt a b = true
  ∧ ScaleVarWeight_lt b a = false
  ∧ std_sort [b; a] = [a; b]
  ∧ std_sort [a; b] = [a; b]
  ∧ stoi (sv_wid b) = Ok 9 ∧ stoi (sv_wid a) = Ok 10.
Proof.
  intros Heq Ha Hb.
  assert (Hab : ScaleVarWeight_lt a b = true).
  { unfold ScaleVarWeight_lt. now rewrite Heq, Ha, Hb. }
  assert (Hba : ScaleVarWeight_lt b a = false).
  { unfold ScaleVarWeight_lt. now rewrite (pair_eq_sym _ _ Heq), Ha, Hb. }
  unfold std_sort. simpl. rewrite Hab, Hba, Ha, Hb. repeat split.
Qed.

(** ** Choice of the PDF set *)

Lemma find_pdf_group_Some lhaid groups pw :
  find_pdf_group lhaid groups = Some pw ↔ first_group_at lhaid groups pw.
Proof.
  unfold first_group_at, starts_at. split.
  - induction groups as [|g groups IH]; simpl; [discriminate|].
    destruct (Z.eqb_spec (lhaIDs g).1 lhaid) as [Heq|Hne]; simpl.
    + intros [= <-]. exists [], groups. auto.
    + intros H. destruct (IH H) as (before & after & -> & Hs & Hb).
      exists (g :: before), after. auto.
  - intros (before & after & -> & Hs & Hb).
    induction Hb as [|g before Hg Hb IH]; simpl.
    + apply Z.eqb_eq in Hs. now rewrite Hs.
    + apply Z.eqb_neq in Hg. now rewrite Hg.
Qed.

Lemma find_pdf_group_None lhaid groups :
  find_pdf_group lhaid groups = None ↔ no_group_at groups lhaid.
Proof.
  unfold no_group_at, starts_at. split.
  - induction groups as [|g groups IH]; simpl; [constructor|].
    destruct (Z.eqb_spec (lhaIDs g).1 lhaid) as [Heq|Hne]; simpl; [discriminate|].
    intros H. constructor; auto.
  - induction 1 as [|g groups Hg Hb IH]; simpl; [reflexivity|].
    apply Z.eqb_neq in Hg. now rewrite Hg.
Qed.

Lemma choose_pdf_Some preferred groups pw :
  choose_pdf preferred groups = Some pw ↔ selected_group preferred groups pw.
Proof.
  unfold selected_group. split.
  - induction preferred as [|lhaid preferred IH]; simpl; [discriminate|].
    destruct (find_pdf_group lhaid groups) as [g|] eqn:Hfind.
    + intros [= ->]. exists [], lhaid, preferred.
      split; [reflexivity|]. split; [constructor|]. now apply find_pdf_group_Some.
    + intros H. destruct (IH H) as (earlier & a & later & -> & He & Hf).
      exists (lhaid :: earlier), a, later. split; [reflexivity|].
      split; [|exact Hf]. constructor; [now apply find_pdf_group_None|exact He].
  - intros (earlier & a & later & -> & He & Hf).
    induction He as [|b earlier Hb He IH]; simpl.
    + apply find_pdf_group_Some in Hf. now rewrite Hf.
    + apply find_pdf_group_None in Hb. now rewrite Hb.
Qed.

Lemma choose_pdf_None preferred groups :
  choose_pdf preferred groups = None ↔ Forall (no_group_at groups) preferred.
Proof.
  split.
  - induction preferred as [|lhaid preferred IH]; simpl; [constructor|].
    destruct (find_pdf_group lhaid groups) eqn:Hfind; [discriminate|].
    intros H. constructor; [now apply find_pdf_group_None|auto].
  - induction 1 as [|b preferred Hb He IH]; simpl; [reflexivity|].
    apply find_pdf_group_None in Hb. now rewrite Hb.
Qed.

Lemma choose_pdf_nil preferred : choose_pdf preferred [] = None.
Proof. induction preferred as [|lhaid preferred IH]; [reflexivity|exact IH]. Qed.

Lemma no_group_at_starts groups lhaid :
  no_group_at groups lhaid ↔ lhaid ∉ group_starts groups.
Proof.
  unfold no_group_at, group_starts, starts_at. rewrite Forall_forall. split.
  - intros H Hin. apply list_elem_of_fmap in Hin. destruct Hin as (g & -> & Hg).
    now apply (H g Hg).
  - intros H g Hg Heq. apply H. apply list_elem_of_fmap. exists g. auto.
Qed.

Lemma choose_pdf_None_prefix preferred groups groups' :
  group_starts groups `prefix_of` group_starts groups' →
  choose_pdf preferred groups' = None → choose_pdf preferred groups = None.
Proof.
  intros [rest Hrest]. rewrite !choose_pdf_None. intros H.
  eapply Forall_impl; [exact H|].
  intros lhaid. rewrite !no_group_at_starts, Hrest.
  intros Hnot Hin. apply Hnot. apply elem_of_app. now left.
Qed.

(** Reading a PDF weight appends a group or extends the last one, whose
    start stays. *)
Lemma add_pdf_starts groups acc acc' :
  add_pdf groups acc = Ok acc' →
  scaleVariationIDs acc' = scaleVariationIDs acc
  ∧ group_starts (pdfSetWeightIDs acc) `prefix_of` group_starts (pdfSetWeightIDs acc').
Proof.
  unfold add_pdf. intros H. inv_bind H. inversion H; subst; clear H. simpl.
  split; [reflexivity|].
  destruct (last (pdfSetWeightIDs acc)) as [back|] eqn:Hlast.
  - unfold maybe_add.
    destruct (to_unsigned x =? ((lhaIDs back).2 + 1) mod UINT_MOD).
    + unfold group_starts. rewrite list_fmap_insert. simpl.
      rewrite list_insert_id; [reflexivity|].
      rewrite list_lookup_fmap. rewrite last_lookup in Hlast. now rewrite Hlast.
    + unfold group_starts. rewrite fmap_app. now apply prefix_app_r.
  - unfold group_starts. rewrite fmap_app. now apply prefix_app_r.
Qed.

Lemma add_scale_pdfs groups acc acc' :
  add_scale stof groups acc = Ok acc' → pdfSetWeightIDs acc' = pdfSetWeightIDs acc.
Proof.
  unfold add_scale. intros H. inv_bind H. now inversion H.
Qed.

Lemma scan_lines_starts ls st acc acc' :
  scan_lines stof st ls acc = Ok acc' →
  group_starts (pdfSetWeightIDs acc) `prefix_of` group_starts (pdfSetWeightIDs acc').
Proof.
  revert st acc. induction ls as [|line rest IH]; intros st acc H; simpl in H.
  - now inversion H.
  - assert (Hdispatch :
      match regex_search line weightgroup with
      | Some groups => scan_lines stof (enter_group (group_str groups 2)) rest acc
      | None => scan_lines stof Outside rest acc
      end = Ok acc' →
      group_starts (pdfSetWeightIDs acc) `prefix_of` group_starts (pdfSetWeightIDs acc')).
    { destruct (regex_search line weightgroup); apply IH. }
    destruct st.
    + auto.
    + destruct (regex_search line scalew).
      * inv_bind H. apply add_scale_pdfs in Hx. rewrite <- Hx. eapply IH, H.
      * destruct (matches line endweightgroup); [eapply IH, H|].
        destruct (matches line weightgroup); [auto|eapply IH, H].
    + destruct (regex_search line pdfw).
      * inv_bind H. apply add_pdf_starts in Hx. destruct Hx as [_ Hx].
        etrans; [exact Hx|]. eapply IH, H.
      * destruct (matches line endweightgroup); [eapply IH, H|].
        destruct (matches line weightgroup); [auto|eapply IH, H].
    + destruct (matches line endweightgroup); [eapply IH, H|].
      destruct (matches line weightgroup); [auto|eapply IH, H].
Qed.

Lemma resolve_scales_pdf_part sorted weightChoice :
  pdf_part (resolve_scales sorted weightChoice) = pdf_part weightChoice.
Proof.
  unfold resolve_scales. destruct (describe_scales _ _ _ _). reflexivity.
Qed.

Lemma resolve_pdf_pdf_part preferred groups weightChoice :
  pdf_part (resolve_pdf preferred groups weightChoice) =
    match choose_pdf preferred groups with
    | Some pw => pdf_part (resolve_pdf preferred groups DynamicWeightChoice_new)
    | None => pdf_part weightChoice
    end.
Proof. unfold resolve_pdf. destruct (choose_pdf preferred groups); reflexivity. Qed.

(** Whatever the number of headers, the PDF members of the choice are those
    the resolution gives on the groups collected in the end. *)
Lemma read_headers_pdf_part p hs acc weightChoice acc' weightChoice' :
  read_headers stof p hs acc weightChoice = Ok (acc', weightChoice') →
  pdf_part weightChoice =
    pdf_part (resolve_pdf (preferredPDFLHAIDs_ p) (pdfSetWeightIDs acc)
                DynamicWeightChoice_new) →
  pdf_part weightChoice' =
    pdf_part (resolve_pdf (preferredPDFLHAIDs_ p) (pdfSetWeightIDs acc')
                DynamicWeightChoice_new).
Proof.
  revert acc weightChoice. induction hs as [|h hs IH]; intros acc weightChoice H Hinv;
    simpl in H.
  - inversion H; subst. exact Hinv.
  - destruct (negb (String.eqb (tag h) "initrwgt")).
    + eapply IH; [exact H|exact Hinv].
    + inv_bind H. eapply IH; [exact H|]. simpl.
      rewrite resolve_pdf_pdf_part.
      destruct (choose_pdf (preferredPDFLHAIDs_ p) (pdfSetWeightIDs x)) eqn:Hchoose;
        [reflexivity|].
      rewrite resolve_scales_pdf_part, Hinv.
      unfold resolve_pdf.
      now rewrite Hchoose, (choose_pdf_None_prefix _ _ _ (scan_lines_starts _ _ _ _ Hx) Hchoose).
Qed.

(** C2: the PDF members of the choice come from the group the priority
    order designates among the collected groups: for the preferred LHA IDs
    in their order, the first group whose range starts at the identifier;
    its identifier list is [pdfWeightIDs].  With the preferred identifiers
    A, B, C and groups that start at B and at C only, it is the first group
    that starts at B.  When no group starts at a preferred identifier,
    [pdfWeightIDs] and [pdfWeightsDoc] are empty. *)
Theorem preferred_pdf_group_is_selected
    (p : GenWeightsTableProducer) (iRun : Run) (lheInfo : LHERunInfoProduct)
    (a : Atomics) (weightChoice : DynamicWeightChoice) :
  run_lheInfo iRun = Some lheInfo →
  snd (globalBeginRun stof p iRun a) = Ok weightChoice →
  ∃ acc,
    read_headers stof p (headers lheInfo) (mkCollected [] []) DynamicWeightChoice_new
      = Ok (acc, weightChoice)
    ∧ let groups := pdfSetWeightIDs acc in
      let preferred := preferredPDFLHAIDs_ p in
      ((∃ pw, selected_group preferred groups pw) ∨ Forall (no_group_at groups) preferred)
      ∧ (∀ pw, selected_group preferred groups pw →
           pdfWeightIDs weightChoice = wids pw)
      ∧ (∀ A B C pw,
           preferred = [A; B; C] →
           Forall (fun g => starts_at B g ∨ starts_at C g) groups →
           A ≠ B → A ≠ C →
           first_group_at B groups pw →
           pdfWeightIDs weightChoice = wids pw)
      ∧ (Forall (no_group_at groups) preferred →
           pdfWeightIDs weightChoice = [] ∧ pdfWeightsDoc weightChoice = EmptyString).
Proof.
  intros Hrun H. unfold globalBeginRun in H. simpl in H. rewrite Hrun in H.
  inv_bind H. destruct x as [acc wc]. inversion H; subst; clear H.
  exists acc. split; [exact Hx|]. simpl.
  apply read_headers_pdf_part in Hx;
    [|unfold resolve_pdf; simpl; now rewrite choose_pdf_nil].
  rewrite resolve_pdf_pdf_part in Hx.
  assert (Hsel : ∀ pw, selected_group (preferredPDFLHAIDs_ p) (pdfSetWeightIDs acc) pw →
                       pdfWeightIDs weightChoice = wids pw).
  { intros pw Hpw. apply choose_pdf_Some in Hpw. rewrite Hpw in Hx.
    unfold resolve_pdf in Hx. rewrite Hpw in Hx. now inversion Hx. }
  split; [|split; [exact Hsel|split]].
  - destruct (choose_pdf (preferredPDFLHAIDs_ p) (pdfSetWeightIDs acc)) as [pw|] eqn:Hc.
    + left. exists pw. now apply choose_pdf_Some.
    + right. now apply choose_pdf_None.
  - intros A B C pw Hpref Hgroups HAB HAC Hfirst. apply Hsel.
    exists [A], B, [C]. split; [exact Hpref|]. split; [|exact Hfirst].
    constructor; [|constructor].
    unfold no_group_at. eapply Forall_impl; [exact Hgroups|].
    unfold starts_at. intros g [Hg|Hg] HA; congruence.
  - intros Hnone. apply choose_pdf_None in Hnone. rewrite Hnone in Hx.
    now inversion Hx.
Qed.

(** ** Documentation of the scale weights *)

Lemma ss_put_keeps_head (ss : stringstream) (t : string) (c : ascii) (rest : string) :
  (0 < ss_pos ss)%nat → ss_buf ss = String c rest →
  (0 < ss_pos (ss << t))%nat ∧ ∃ rest', ss_buf (ss << t) = String c rest'.
Proof.
  intros Hpos Hbuf. unfold ss_put. simpl. split; [lia|].
  rewrite Hbuf. destruct (ss_pos ss) as [|k]; [lia|]. simpl. eauto.
Qed.

Lemma describe_scales_keeps_head sws isw (ss : stringstream) ids c rest :
  (0 < ss_pos ss)%nat → ss_buf ss = String c rest →
  ∃ rest', ss_buf (describe_scales isw sws ss ids).1 = String c rest'.
Proof.
  revert isw ss ids rest.
  induction sws as [|sw sws IH]; intros isw ss ids rest Hpos Hbuf; simpl; [eauto|].
  assert (Hsep : ∃ ss1 rest1,
             (if (isw =? 0)%nat then ss else ss << "; ") = ss1
             ∧ (0 < ss_pos ss1)%nat ∧ ss_buf ss1 = String c rest1).
  { destruct (isw =? 0)%nat; [eauto|].
    destruct (ss_put_keeps_head ss "; " c rest Hpos Hbuf) as (H1 & r1 & H2). eauto. }
  destruct Hsep as (ss1 & rest1 & -> & Hpos1 & Hbuf1).
  destruct (ss_put_keeps_head ss1 "[" c rest1 Hpos1 Hbuf1) as (Hpos2 & rest2 & Hbuf2).
  destruct (ss_put_keeps_head _ (dec_of_nat isw) c rest2 Hpos2 Hbuf2) as (Hpos3 & rest3 & Hbuf3).
  destruct (ss_put_keeps_head _ "] is " c rest3 Hpos3 Hbuf3) as (Hpos4 & rest4 & Hbuf4).
  destruct (ss_put_keeps_head _ (sv_label sw) c rest4 Hpos4 Hbuf4) as (Hpos5 & rest5 & Hbuf5).
  eapply IH; eauto.
Qed.

(** The stream starts writing over its initial text: with at least one
    scale weight the documentation begins with the opening bracket of
    the first entry. *)
Lemma resolve_scales_doc_head sorted weightChoice :
  sorted ≠ [] →
  ∃ rest, scaleWeightsDoc (resolve_scales sorted weightChoice) = String "[" rest.
Proof.
  intros Hne. unfold resolve_scales.
  rewrite bool_decide_eq_false_2 by exact Hne.
  destruct sorted as [|sw sorted]; [congruence|].
  cbn [describe_scales Nat.eqb].
  set (ss1 := ss_init scale_doc_start << "[").
  destruct (ss_put_keeps_head ss1 (dec_of_nat 0) "[" (String.substring 1 48 scale_doc_start))
    as (Hpos2 & rest2 & Hbuf2); [simpl; lia|reflexivity|].
  destruct (ss_put_keeps_head _ "] is " "[" rest2 Hpos2 Hbuf2) as (Hpos3 & rest3 & Hbuf3).
  destruct (ss_put_keeps_head _ (sv_label sw) "[" rest3 Hpos3 Hbuf3) as (Hpos4 & rest4 & Hbuf4).
  destruct (describe_scales_keeps_head sorted 1 _ (scaleWeightIDs weightChoice ++ [sv_wid sw])
              "[" rest4 Hpos4 Hbuf4) as [rest5 Hbuf5].
  destruct (describe_scales 1 sorted _ _) as [scaleDoc ids].
  simpl in Hbuf5. simpl. unfold ss_str. eauto.
Qed.

Lemma resolve_scales_nil weightChoice : resolve_scales [] weightChoice = weightChoice.
Proof. destruct weightChoice. reflexivity. Qed.

Lemma resolve_pdf_scale_part preferred groups weightChoice :
  scaleWeightIDs (resolve_pdf preferred groups weightChoice) = scaleWeightIDs weightChoice
  ∧ scaleWeightsDoc (resolve_pdf preferred groups weightChoice) = scaleWeightsDoc weightChoice.
Proof. unfold resolve_pdf. destruct (choose_pdf preferred groups); auto. Qed.

Lemma std_sort_nil v : std_sort v = [] → v = [].
Proof.
  destruct v as [|x v]; [reflexivity|]. unfold std_sort. simpl.
  destruct (foldr sort_insert [] v) as [|y l]; simpl; [discriminate|].
  destruct (ScaleVarWeight_lt y x); discriminate.
Qed.

Lemma add_pdf_scales groups acc acc' :
  add_pdf groups acc = Ok acc' → scaleVariationIDs acc' = scaleVariationIDs acc.
Proof. intros H. now apply add_pdf_starts in H. Qed.

Lemma scan_lines_scales_nil ls st acc acc' :
  scan_lines stof st ls acc = Ok acc' → scaleVariationIDs acc' = [] → scaleVariationIDs acc = [].
Proof.
  revert st acc. induction ls as [|line rest IH]; intros st acc H Hnil; simpl in H.
  - inversion H; subst. exact Hnil.
  - assert (Hdispatch :
      match regex_search line weightgroup with
      | Some groups => scan_lines stof (enter_group (group_str groups 2)) rest acc
      | None => scan_lines stof Outside rest acc
      end = Ok acc' → scaleVariationIDs acc = []).
    { destruct (regex_search line weightgroup); intros H'; eapply IH; eauto. }
    destruct st.
    + auto.
    + destruct (regex_search line scalew).
      * inv_bind H. apply (IH _ _ H) in Hnil. unfold add_scale in Hx. inv_bind Hx.
        inversion Hx; subst. simpl in Hnil. now destruct (scaleVariationIDs acc).
      * destruct (matches line endweightgroup); [eapply IH; eauto|].
        destruct (matches line weightgroup); [auto|eapply IH; eauto].
    + destruct (regex_search line pdfw).
      * inv_bind H. apply add_pdf_scales in Hx. rewrite <- Hx. eapply IH; eauto.
      * destruct (matches line endweightgroup); [eapply IH; eauto|].
        destruct (matches line weightgroup); [auto|eapply IH; eauto].
    + destruct (matches line endweightgroup); [eapply IH; eauto|].
      destruct (matches line weightgroup); [auto|eapply IH; eauto].
Qed.

Lemma read_headers_scale_doc p hs acc weightChoice acc' weightChoice' :
  read_headers stof p hs acc weightChoice = Ok (acc', weightChoice') →
  (scaleWeightsDoc weightChoice = EmptyString
   ∨ ∃ rest, scaleWeightsDoc weightChoice = String "[" rest) →
  (scaleWeightsDoc weightChoice' = EmptyString
   ∨ ∃ rest, scaleWeightsDoc weightChoice' = String "[" rest).
Proof.
  revert acc weightChoice. induction hs as [|h hs IH]; intros acc weightChoice H Hinv;
    simpl in H.
  - inversion H; subst. exact Hinv.
  - destruct (negb (String.eqb (tag h) "initrwgt")).
    + eapply IH; eauto.
    + inv_bind H. eapply IH; [exact H|]. simpl.
      rewrite (proj2 (resolve_pdf_scale_part _ _ _)).
      destruct (std_sort (scaleVariationIDs x)) as [|sw sorted] eqn:Hs.
      * now rewrite resolve_scales_nil.
      * right. apply resolve_scales_doc_head. discriminate.
Qed.

Lemma read_headers_no_scales p hs acc weightChoice acc' weightChoice' :
  read_headers stof p hs acc weightChoice = Ok (acc', weightChoice') →
  scaleVariationIDs acc' = [] →
  scaleVariationIDs acc = []
  ∧ scaleWeightIDs weightChoice' = scaleWeightIDs weightChoice
  ∧ scaleWeightsDoc weightChoice' = scaleWeightsDoc weightChoice.
Proof.
  revert acc weightChoice. induction hs as [|h hs IH]; intros acc weightChoice H Hnil;
    simpl in H.
  - inversion H; subst. auto.
  - destruct (negb (String.eqb (tag h) "initrwgt")).
    + eapply IH; eauto.
    + inv_bind H. destruct (IH _ _ H Hnil) as (Hsorted & Hids & Hdoc). simpl in Hsorted.
      rewrite Hsorted in *. rewrite resolve_scales_nil in *.
      destruct (resolve_pdf_scale_part (preferredPDFLHAIDs_ p) (pdfSetWeightIDs x) weightChoice)
        as [Hi Hd].
      rewrite Hids, Hdoc, Hi, Hd. split; [|auto].
      apply std_sort_nil in Hsorted. eapply scan_lines_scales_nil; eauto.
Qed.

(** C3, as the code has it: [scaleDoc] is a stream constructed from the
    introductory text, so the entries are written over that text from its
    first character on.  Whatever the headers, [scaleWeightsDoc] is empty
    or begins with the bracket of the entry 0, and is never the
    introductory text followed by the entries.  Without any scale weight
    [scaleWeightIDs] and [scaleWeightsDoc] stay empty. *)
Theorem scale_doc_overwrites_its_introduction
    (p : GenWeightsTableProducer) (iRun : Run) (lheInfo : LHERunInfoProduct)
    (a : Atomics) (weightChoice : DynamicWeightChoice) :
  run_lheInfo iRun = Some lheInfo →
  snd (globalBeginRun stof p iRun a) = Ok weightChoice →
  ∃ acc,
    read_headers stof p (headers lheInfo) (mkCollected [] []) DynamicWeightChoice_new
      = Ok (acc, weightChoice)
    ∧ (scaleWeightsDoc weightChoice = EmptyString
       ∨ ∃ rest, scaleWeightsDoc weightChoice = String "[" rest)
    ∧ (∀ entries : string,
         scaleWeightsDoc weightChoice ≠ String.append scale_doc_start entries)
    ∧ (scaleVariationIDs acc = [] →
       scaleWeightIDs weightChoice = [] ∧ scaleWeightsDoc weightChoice = EmptyString).
Proof.
  intros Hrun H. unfold globalBeginRun in H. simpl in H. rewrite Hrun in H.
  inv_bind H. destruct x as [acc wc]. inversion H; subst; clear H.
  exists acc. split; [exact Hx|].
  assert (Hhead := read_headers_scale_doc _ _ _ _ _ _ Hx (or_introl eq_refl)).
  split; [exact Hhead|]. split.
  - intros entries Heq. rewrite Heq in Hhead.
    destruct Hhead as [Hempty|[rest Hrest]]; discriminate.
  - intros Hnil. destruct (read_headers_no_scales _ _ _ _ _ _ Hx Hnil) as (_ & -> & ->).
    auto.
Qed.

(** ** Implicit close of a weight group *)

Lemma matches_false line r : matches line r = false → regex_search line r = None.
Proof. unfold matches. destruct (regex_search line r); [discriminate|reflexivity]. Qed.

Lemma scan_lines_cons st line rest acc :
  scan_lines stof st (line :: rest) acc =
    let dispatch :=
      match regex_search line weightgroup with
      | Some groups => scan_lines stof (enter_group (group_str groups 2)) rest acc
      | None => scan_lines stof Outside rest acc
      end in
    match st with
    | Outside => dispatch
    | InScale =>
        match regex_search line scalew with
        | Some groups => acc ← add_scale stof groups acc; scan_lines stof InScale rest acc
        | None =>
            if matches line endweightgroup then scan_lines stof Outside rest acc
            else if matches line weightgroup then dispatch
            else scan_lines stof InScale rest acc
        end
    | InPDF =>
        match regex_search line pdfw with
        | Some groups => acc ← add_pdf groups acc; scan_lines stof InPDF rest acc
        | None =>
            if matches line endweightgroup then scan_lines stof Outside rest acc
            else if matches line weightgroup then dispatch
            else scan_lines stof InPDF rest acc
        end
    | InOther =>
        if matches line endweightgroup then scan_lines stof Outside rest acc
        else if matches line weightgroup then dispatch
        else scan_lines stof InOther rest acc
    end.
Proof. reflexivity. Qed.

(** Whatever the state of the scan, a closing line followed by an opening
    line leaves it where the opening line alone does. *)
Lemma scan_lines_close_then_open closer opener post st acc :
  closes_group closer → opens_group opener →
  scan_lines stof st (closer :: opener :: post) acc = scan_lines stof st (opener :: post) acc.
Proof.
  intros (Hc_end & Hc_wg & Hc_sc & Hc_pdf) (Ho_wg & Ho_end & Ho_sc & Ho_pdf).
  rewrite (scan_lines_cons st closer). cbv zeta.
  rewrite (matches_false _ _ Hc_wg), (matches_false _ _ Hc_sc),
          (matches_false _ _ Hc_pdf), Hc_end.
  rewrite (scan_lines_cons st opener). cbv zeta.
  rewrite (matches_false _ _ Ho_sc), (matches_false _ _ Ho_pdf), Ho_end, Ho_wg.
  rewrite (scan_lines_cons Outside opener). cbv zeta.
  destruct st; reflexivity.
Qed.

Lemma scan_lines_implicit_close closer opener pre post st acc :
  closes_group closer → opens_group opener →
  scan_lines stof st (pre ++ opener :: post) acc
  = scan_lines stof st (pre ++ closer :: opener :: post) acc.
Proof.
  intros Hc Ho. revert st acc.
  induction pre as [|line pre IH]; intros st acc.
  - symmetry. now apply scan_lines_close_then_open.
  - rewrite <- !app_comm_cons, !scan_lines_cons. cbv zeta.
    assert (Hbind : ∀ (r : result Collected) s,
              (acc ← r; scan_lines stof s (pre ++ opener :: post) acc)
              = (acc ← r; scan_lines stof s (pre ++ closer :: opener :: post) acc)).
    { intros [acc1| |] s; simpl; [apply IH|reflexivity|reflexivity]. }
    assert (Hdispatch :
      match regex_search line weightgroup with
      | Some groups =>
          scan_lines stof (enter_group (group_str groups 2)) (pre ++ opener :: post) acc
      | None => scan_lines stof Outside (pre ++ opener :: post) acc
      end =
      match regex_search line weightgroup with
      | Some groups =>
          scan_lines stof (enter_group (group_str groups 2)) (pre ++ closer :: opener :: post) acc
      | None => scan_lines stof Outside (pre ++ closer :: opener :: post) acc
      end).
    { destruct (regex_search line weightgroup); apply IH. }
    destruct st.
    + exact Hdispatch.
    + destruct (regex_search line scalew); [apply Hbind|].
      destruct (matches line endweightgroup); [apply IH|].
      destruct (matches line weightgroup); [exact Hdispatch|apply IH].
    + destruct (regex_search line pdfw); [apply Hbind|].
      destruct (matches line endweightgroup); [apply IH|].
      destruct (matches line weightgroup); [exact Hdispatch|apply IH].
    + destruct (matches line endweightgroup); [apply IH|].
      destruct (matches line weightgroup); [exact Hdispatch|apply IH].
Qed.

Lemma read_headers_same_scan p hs1 h h' hs2 acc weightChoice :
  tag h = tag h' →
  (∀ acc, scan_lines stof Outside (lines h) acc = scan_lines stof Outside (lines h') acc) →
  read_headers stof p (hs1 ++ h :: hs2) acc weightChoice
  = read_headers stof p (hs1 ++ h' :: hs2) acc weightChoice.
Proof.
  intros Htag Hscan. revert acc weightChoice.
  induction hs1 as [|h1 hs1 IH]; intros acc weightChoice; simpl.
  - now rewrite Htag, Hscan.
  - destruct (negb (String.eqb (tag h1) "initrwgt")); [apply IH|].
    destruct (scan_lines stof Outside (lines h1) acc); simpl; [apply IH|reflexivity|reflexivity].
Qed.

(** C6: a header in which the closing line of a group is missing before
    the opening line of the next group is read as the header that has the
    closing line: [globalBeginRun] returns the same outcome for both, so
    the same four members of the choice whenever the complete header gives
    a choice, and the missing line by itself raises no exception. *)
Theorem implicit_close_gives_the_same_choice
    (p : GenWeightsTableProducer) (a : Atomics) (before after : list LHEHeader)
    (name closer opener : string) (pre post : list string) :
  closes_group closer → opens_group opener →
  let incomplete := mkLHEHeader name (pre ++ opener :: post) in
  let complete := mkLHEHeader name (pre ++ closer :: opener :: post) in
  let run_of := fun h => mkRun (Some (mkLHERunInfoProduct (before ++ h :: after))) in
  globalBeginRun stof p (run_of incomplete) a = globalBeginRun stof p (run_of complete) a
  ∧ ∀ weightChoice,
      snd (globalBeginRun stof p (run_of complete) a) = Ok weightChoice →
      snd (globalBeginRun stof p (run_of incomplete) a) = Ok weightChoice.
Proof.
  intros Hc Ho incomplete complete run_of.
  assert (Heq : globalBeginRun stof p (run_of incomplete) a = globalBeginRun stof p (run_of complete) a).
  { unfold globalBeginRun, run_of. simpl.
    rewrite (read_headers_same_scan p before incomplete complete after); [reflexivity..|].
    intros acc. simpl. now apply scan_lines_implicit_close. }
  split; [exact Heq|]. intros weightChoice. now rewrite Heq.
Qed.

(** ** Bounds of the counter operations *)

Lemma update_loop_in_range {A B : Type} (f : A → B → A) (w : list B)
    (count i : nat) (sum : list A) :
  (i + count ≤ length sum)%nat → (i + count ≤ length w)%nat →
  for_loop_from i count (fun i sum =>
      s ← vec_at sum i; x ← vec_at w i; Ok (<[i := f s x]> sum)) sum
  = Ok (take i sum
        ++ zip_with f (take count (drop i sum)) (take count (drop i w))
        ++ drop (i + count) sum).
Proof.
  revert i sum. induction count as [|count IH]; intros i sum Hsum Hw; simpl.
  - rewrite Nat.add_0_r. now rewrite take_drop.
  - destruct (lookup_lt_is_Some_2 sum i) as [s Hs]; [lia|].
    destruct (lookup_lt_is_Some_2 w i) as [x Hx]; [lia|].
    rewrite (proj2 (vec_at_Ok _ _ _) Hs). simpl.
    rewrite (proj2 (vec_at_Ok _ _ _) Hx). simpl.
    rewrite IH by (rewrite ?length_insert; lia).
    f_equal.
    rewrite (take_S_r (<[i:=f s x]> sum) i (f s x))
      by (apply list_lookup_insert_eq; lia).
    rewrite take_insert_ge by lia.
    rewrite !drop_insert_lt by lia.
    rewrite (drop_S sum s i Hs), (drop_S w x i Hx). simpl.
    rewrite <- app_assoc. simpl.
    now replace (i + S count)%nat with (S i + count)%nat by lia.
Qed.

Lemma update_loop_out_of_range {A B : Type} (f : A → B → A) (w : list B)
    (count i : nat) (sum : list A) :
  (i ≤ length sum)%nat → (i ≤ length w)%nat →
  (length sum < i + count ∨ length w < i + count)%nat →
  for_loop_from i count (fun i sum =>
      s ← vec_at sum i; x ← vec_at w i; Ok (<[i := f s x]> sum)) sum
  = Undefined.
Proof.
  assert (Hnone : ∀ (C : Type) (v : list C) k, v !! k = None → vec_at v k = Undefined).
  { intros C v k Hk. unfold vec_at. now rewrite Hk. }
  revert i sum. induction count as [|count IH]; intros i sum Hsum Hw Hout; simpl; [lia|].
  destruct (sum !! i) as [s|] eqn:Hs; [|now rewrite (Hnone _ _ _ Hs)].
  rewrite (proj2 (vec_at_Ok _ _ _) Hs). simpl.
  destruct (w !! i) as [x|] eqn:Hx; [|now rewrite (Hnone _ _ _ Hx)].
  rewrite (proj2 (vec_at_Ok _ _ _) Hx). simpl.
  apply lookup_lt_Some in Hs, Hx.
  apply IH; rewrite ?length_insert; lia.
Qed.

Lemma merge_resize_zeros (sum other : list long_double) :
  merge_resize sum other = zeros_if_empty (length other) sum.
Proof.
  unfold merge_resize, zeros_if_empty, resize.
  destruct sum as [|s sum]; [|reflexivity].
  destruct other as [|o other]; reflexivity.
Qed.

Lemma merge_add_defined (sum other : list long_double) :
  (length sum ≤ length other)%nat →
  merge_add (merge_resize sum other) other
  = Ok (zip_with ld_add (zeros_if_empty (length other) sum) other).
Proof.
  intros Hle. rewrite merge_resize_zeros. unfold merge_add, for_loop.
  assert (Hlen : (length (zeros_if_empty (length other) sum) ≤ length other)%nat).
  { unfold zeros_if_empty. destruct (bool_decide (sum = []));
      [now rewrite length_replicate|exact Hle]. }
  rewrite (update_loop_in_range ld_add) by (simpl; lia).
  rewrite take_0, !drop_0. cbn [Nat.add app].
  rewrite drop_all, app_nil_r, firstn_all. f_equal.
  apply list_eq. intros i. rewrite !lookup_zip_with.
  destruct (zeros_if_empty (length other) sum !! i) as [s|] eqn:Hs; simpl; [|reflexivity].
  rewrite lookup_take_lt; [reflexivity|]. apply lookup_lt_Some in Hs. lia.
Qed.

Lemma merge_add_undefined (sum other : list long_double) :
  (length other < length sum)%nat →
  merge_add (merge_resize sum other) other = Undefined.
Proof.
  intros Hlt. rewrite merge_resize_zeros. unfold zeros_if_empty.
  rewrite bool_decide_eq_false_2 by (intros ->; simpl in Hlt; lia).
  unfold merge_add, for_loop.
  apply (update_loop_out_of_range ld_add); simpl; lia.
Qed.

(** X1: [merge] is defined exactly when no local vector is longer than
    the vector of [other].  It then adds the three scalars and adds the
    vectors entry by entry, an empty local vector standing for zeros, and a
    local vector that is shorter than [other]'s keeps its length; in the
    other case the loop reads [other] past its end. *)
Theorem merge_defined_iff_other_covers (c other : Counter) :
  (covers c other →
   merge c other =
     Ok (mkCounter (num c + num other)
           (ld_add (sumw c) (sumw other)) (ld_add (sumw2 c) (sumw2 other))
           (zip_with ld_add (zeros_if_empty (length (sumPDF other)) (sumPDF c))
                     (sumPDF other))
           (zip_with ld_add (zeros_if_empty (length (sumScale other)) (sumScale c))
                     (sumScale other))
           (zip_with ld_add (zeros_if_empty (length (sumNamed other)) (sumNamed c))
                     (sumNamed other))))
  ∧ (¬ covers c other → merge c other = Undefined).
Proof.
  unfold covers, merge. split.
  - intros (HS & HP & HN). now rewrite !merge_add_defined.
  - intros Hnot.
    destruct (le_lt_dec (length (sumScale c)) (length (sumScale other))) as [HS|HS];
      [|now rewrite (merge_add_undefined _ _ HS)].
    rewrite (merge_add_defined _ _ HS). simpl.
    destruct (le_lt_dec (length (sumPDF c)) (length (sumPDF other))) as [HP|HP];
      [|now rewrite (merge_add_undefined _ _ HP)].
    rewrite (merge_add_defined _ _ HP). simpl.
    destruct (le_lt_dec (length (sumNamed c)) (length (sumNamed other))) as [HN|HN];
      [|now rewrite (merge_add_undefined _ _ HN)].
    tauto.
Qed.

Lemma add_variations_defined w0 (w : list double) (sum : list long_double) :
  takes_variations w sum → add_variations w0 w sum = Ok (accumulated w0 w sum).
Proof.
  intros Hfits. unfold add_variations, accumulated, zeros_if_empty, resize.
  destruct w as [|x w].
  - simpl. rewrite zip_with_nil_r. simpl.
    destruct (bool_decide (sum = [])) eqn:Hsum; [|reflexivity].
    apply bool_decide_eq_true_1 in Hsum. now subst.
  - rewrite (bool_decide_eq_false_2 (x :: w = [])) by discriminate.
    set (base := if bool_decide (sum = []) then _ else sum).
    assert (Hbase : base = if bool_decide (sum = [])
                           then replicate (length (x :: w)) ld_zero else sum).
    { unfold base. destruct (bool_decide (sum = [])) eqn:Hsum; [|reflexivity].
      apply bool_decide_eq_true_1 in Hsum. subst. reflexivity. }
    rewrite <- Hbase.
    assert (Hlen : (length (x :: w) ≤ length base)%nat).
    { rewrite Hbase. destruct (bool_decide (sum = [])) eqn:Hsum.
      - now rewrite length_replicate.
      - apply bool_decide_eq_false_1 in Hsum.
        destruct Hfits as [H|[H|H]]; [discriminate|contradiction|exact H]. }
    unfold for_loop.
    rewrite (update_loop_in_range (fun s x => ld_add s (ld_of_double (w0 * x)%float)))
      by (simpl in *; lia).
    rewrite take_0, !drop_0. cbn [Nat.add app]. rewrite firstn_all. f_equal. f_equal.
    apply list_eq. intros i. rewrite !lookup_zip_with.
    destruct ((x :: w) !! i) as [y|] eqn:Hy.
    + rewrite lookup_take_lt by (apply lookup_lt_Some in Hy; exact Hy). reflexivity.
    + destruct (take (length (x :: w)) base !! i); destruct (base !! i); reflexivity.
Qed.

Lemma add_variations_undefined w0 (w : list double) (sum : list long_double) :
  ¬ takes_variations w sum → add_variations w0 w sum = Undefined.
Proof.
  intros Hnot. unfold takes_variations in Hnot. unfold add_variations.
  destruct w as [|x w]; [tauto|].
  rewrite (bool_decide_eq_false_2 (x :: w = [])) by discriminate.
  destruct sum as [|s sum]; [tauto|].
  rewrite (bool_decide_eq_false_2 (s :: sum = [])) by discriminate.
  unfold for_loop.
  apply (update_loop_out_of_range (fun s x => ld_add s (ld_of_double (w0 * x)%float)));
    simpl in *; lia.
Qed.

Lemma takes_variations_dec (w : list double) (sum : list long_double) :
  takes_variations w sum ∨ ¬ takes_variations w sum.
Proof.
  unfold takes_variations.
  destruct w as [|x w]; [auto|]. destruct sum as [|s sum]; [auto|].
  destruct (le_lt_dec (length (x :: w)) (length (s :: sum))); [auto|].
  right. intros [H|[H|H]]; [discriminate|discriminate|lia].
Qed.

(** X2: [incLHE] is defined exactly when each sum vector can take the
    variations of the event: none are given, or the sum is still empty and
    is sized to them, or it has an entry for each.  It then counts the
    event as [incGenOnly] does and adds [w0 * w[i]] to entry [i] of each
    sum; in the other case a sum is indexed past its end. *)
Theorem incLHE_defined_iff_sums_take_variations
    (c : Counter) (w0 : double) (wScale wPDF wNamed : list double) :
  let fits := takes_variations wScale (sumScale c)
              ∧ takes_variations wPDF (sumPDF c)
              ∧ takes_variations wNamed (sumNamed c) in
  (fits →
   incLHE c w0 wScale wPDF wNamed =
     Ok (mkCounter (num (incGenOnly c w0)) (sumw (incGenOnly c w0))
                   (sumw2 (incGenOnly c w0))
                   (accumulated w0 wPDF (sumPDF c))
                   (accumulated w0 wScale (sumScale c))
                   (accumulated w0 wNamed (sumNamed c))))
  ∧ (¬ fits → incLHE c w0 wScale wPDF wNamed = Undefined).
Proof.
  unfold incLHE. simpl. split.
  - intros (HS & HP & HN). now rewrite !add_variations_defined.
  - intros Hnot.
    destruct (takes_variations_dec wScale (sumScale c)) as [HS|HS];
      [|now rewrite (add_variations_undefined w0 _ _ HS)].
    rewrite (add_variations_defined w0 _ _ HS). simpl.
    destruct (takes_variations_dec wPDF (sumPDF c)) as [HP|HP];
      [|now rewrite (add_variations_undefined w0 _ _ HP)].
    rewrite (add_variations_defined w0 _ _ HP). simpl.
    destruct (takes_variations_dec wNamed (sumNamed c)) as [HN|HN];
      [|now rewrite (add_variations_undefined w0 _ _ HN)].
    tauto.
Qed.

(** ** Events of a run *)

Lemma accumulated_fits w0 (w : list double) (sum : list long_double) (n : nat) :
  length w = n → (sum = [] ∨ length sum = n) →
  takes_variations w sum
  ∧ (accumulated w0 w sum = [] ∨ length (accumulated w0 w sum) = n).
Proof.
  intros Hw Hsum. split.
  - destruct Hsum as [->|Hsum]; [right; now left|right; right; lia].
  - unfold accumulated, zeros_if_empty.
    destruct (bool_decide (sum = [])) eqn:Hdec.
    + right. rewrite length_app, length_zip_with, length_drop, length_replicate. lia.
    + apply bool_decide_eq_false_1 in Hdec. destruct Hsum as [->|Hsum]; [congruence|].
      right. rewrite length_app, length_zip_with, length_drop. lia.
Qed.

Lemma named_columns_loop_defined p (wNamed : list double) count i t :
  (i + count ≤ length (namedWeightLabels_ p))%nat →
  (i + count ≤ length wNamed)%nat →
  (i + count ≤ length (namedWeightIDs_ p))%nat →
  ∃ t', for_loop_from i count (add_named_column p wNamed) t = Ok t'.
Proof.
  revert i t. induction count as [|count IH]; intros i t Hl Hw Hi; simpl; [eauto|].
  unfold add_named_column.
  destruct (lookup_lt_is_Some_2 (namedWeightLabels_ p) i) as [label Hlabel]; [lia|].
  destruct (lookup_lt_is_Some_2 wNamed i) as [value Hvalue]; [lia|].
  destruct (lookup_lt_is_Some_2 (namedWeightIDs_ p) i) as [wid Hwid]; [lia|].
  rewrite (proj2 (vec_at_Ok _ _ _) Hlabel). simpl.
  rewrite (proj2 (vec_at_Ok _ _ _) Hvalue). simpl.
  rewrite (proj2 (vec_at_Ok _ _ _) Hwid). simpl.
  apply IH; lia.
Qed.

(** With the labels the constructor has checked and a counter that has the
    lengths of the run, [fillLHEWeightTables] returns, and the counter it
    returns has the lengths of the run. *)
Lemma fillLHEWeightTables_defined p counter weightChoice genWeight lheProd a :
  length (namedWeightIDs_ p) = length (namedWeightLabels_ p) →
  counter_fits p weightChoice counter →
  ∃ counter' a' tabs,
    fillLHEWeightTables p counter weightChoice genWeight lheProd a
      = Ok (counter', a', tabs)
    ∧ counter_fits p weightChoice counter'.
Proof.
  intros Hlabels (HS & HP & HN). unfold fillLHEWeightTables. simpl.
  rewrite normalized_weights_fill.
  set (wScale := fill_vector (scaleWeightIDs weightChoice) _ _ _).
  set (wPDF := fill_vector (pdfWeightIDs weightChoice) _ _ _).
  set (wNamed := fill_vector (namedWeightIDs_ p) _ _ _).
  assert (HlS : length wScale = length (scaleWeightIDs weightChoice))
    by (unfold wScale; now rewrite fill_vector_length, length_replicate).
  assert (HlP : length wPDF = length (pdfWeightIDs weightChoice))
    by (unfold wPDF; now rewrite fill_vector_length, length_replicate).
  assert (HlN : length wNamed = length (namedWeightIDs_ p))
    by (unfold wNamed; now rewrite fill_vector_length, length_replicate).
  destruct (named_columns_loop_defined p wNamed (length wNamed) 0
              (addColumnValue (FlatTable_new 1 "LHEWeight" true) "originalXWGTUP"
                 (originalXWGTUP lheProd) "Nominal event weight in the LHE file"
                 FloatColumn)) as [tN HtN]; [simpl; lia..|].
  unfold for_loop. rewrite HtN. simpl.
  destruct (accumulated_fits genWeight wScale (sumScale counter) _ HlS HS) as [HtS HfS].
  destruct (accumulated_fits genWeight wPDF (sumPDF counter) _ HlP HP) as [HtP HfP].
  destruct (accumulated_fits genWeight wNamed (sumNamed counter) _ HlN HN) as [HtN' HfN].
  unfold incLHE. simpl.
  rewrite (add_variations_defined genWeight _ _ HtS). simpl.
  rewrite (add_variations_defined genWeight _ _ HtP). simpl.
  rewrite (add_variations_defined genWeight _ _ HtN'). simpl.
  eexists _, _, _. split; [reflexivity|].
  split; [exact HfS|]. split; [exact HfP|exact HfN].
Qed.

Lemma produce_defined p id weightChoice iEvent st counter genInfo :
  length (namedWeightIDs_ p) = length (namedWeightLabels_ p) →
  streamCaches st !! id = Some counter →
  counter_fits p weightChoice counter →
  ev_genInfo iEvent = Some genInfo →
  ∃ counter' a' log' tables,
    produce p id weightChoice iEvent st
      = Ok (mkModuleState (<[id := counter']> (streamCaches st)) a' log', tables)
    ∧ counter_fits p weightChoice counter'.
Proof.
  intros Hlabels Hc Hfits Hgen. unfold produce.
  rewrite (proj2 (vec_at_Ok _ _ _) Hc), Hgen. simpl.
  destruct (ev_lheInfo iEvent) as [lheProd|].
  - destruct (fillLHEWeightTables_defined p counter weightChoice (weight genInfo)
                lheProd (atomics st) Hlabels Hfits)
      as (counter' & a' & [[tS tP] tN] & Hfill & Hfits').
    rewrite Hfill. simpl. eauto 10.
  - simpl. eexists _, _, _, _. split; [reflexivity|exact Hfits].
Qed.

(** X3: within a run nothing makes the processing of an event fail but a
    missing generator record or an unknown stream.  With the labels the
    constructor has checked, streams whose counters have the lengths of the
    run (as they have after [streamBeginRun]) and events that carry their
    generator record, every event is processed, with or without LHE
    payload, each gets its tables, and the counters still have the lengths
    of the run. *)
Theorem events_of_a_run_are_all_processed
    (p : GenWeightsTableProducer) (weightChoice : DynamicWeightChoice)
    (events : list (nat * Event)) (st : ModuleState) :
  length (namedWeightIDs_ p) = length (namedWeightLabels_ p) →
  Forall (counter_fits p weightChoice) (streamCaches st) →
  Forall (fun e => (e.1 < length (streamCaches st))%nat ∧ ev_genInfo e.2 ≠ None) events →
  ∃ st' tables,
    process_events p weightChoice events st = Ok (st', tables)
    ∧ Forall (counter_fits p weightChoice) (streamCaches st')
    ∧ length (streamCaches st') = length (streamCaches st)
    ∧ length tables = length events.
Proof.
  intros Hlabels. revert st.
  induction events as [|[id iEvent] rest IH]; intros st Hfits Hevents; simpl.
  - exists st, []. auto.
  - inversion Hevents as [|e l [Hid Hgen] Hrest]; subst. simpl in Hid, Hgen.
    destruct (lookup_lt_is_Some_2 (streamCaches st) id Hid) as [counter Hc].
    destruct (ev_genInfo iEvent) as [genInfo|] eqn:HgenInfo; [|congruence].
    destruct (produce_defined p id weightChoice iEvent st counter genInfo Hlabels Hc
                (proj1 (Forall_lookup _ _) Hfits id counter Hc) HgenInfo)
      as (counter' & a' & log' & t & Hproduce & Hfits').
    rewrite Hproduce. simpl.
    destruct (IH (mkModuleState (<[id := counter']> (streamCaches st)) a' log'))
      as (st' & tables & Hrun & Hfits'' & Hlen & Htables).
    + simpl. apply Forall_insert; assumption.
    + simpl. rewrite length_insert. exact Hrest.
    + rewrite Hrun. simpl. exists st', (t :: tables).
      simpl in Hlen. rewrite length_insert in Hlen. simpl. auto.
Qed.

(** What a call of [produce] that returns did: it found the counter of the
    stream and the generator record, replaced that counter alone, and
    counted the event as [incGenOnly] does. *)
Lemma produce_counts_the_event p id weightChoice iEvent st st' tables :
  produce p id weightChoice iEvent st = Ok (st', tables) →
  ∃ counter genInfo counter',
    streamCaches st !! id = Some counter
    ∧ ev_genInfo iEvent = Some genInfo
    ∧ streamCaches st' = <[id := counter']> (streamCaches st)
    ∧ num counter' = num (incGenOnly counter (weight genInfo))
    ∧ sumw counter' = sumw (incGenOnly counter (weight genInfo))
    ∧ sumw2 counter' = sumw2 (incGenOnly counter (weight genInfo))
    ∧ (ev_lheInfo iEvent = None → counter' = incGenOnly counter (weight genInfo)).
Proof.
  intros H. unfold produce in H.
  inv_bind H. apply vec_at_Ok in Hx. inv_bind H.
  destruct (ev_genInfo iEvent) as [genInfo|]; [|discriminate].
  inversion Hx0; subst; clear Hx0.
  exists x, x0. destruct (ev_lheInfo iEvent) as [lheProd|].
  - inv_bind H. destruct x1 as [[counter' a'] [[tS tP] tN]].
    inversion H; subst; clear H. exists counter'.
    apply fillLHEWeightTables_Ok in Hx0. simpl in Hx0.
    destruct Hx0 as (_ & _ & _ & Hinc). unfold incLHE in Hinc.
    inv_bind Hinc. inv_bind Hinc. inv_bind Hinc. inversion Hinc; subst; clear Hinc.
    simpl. repeat split; try reflexivity; [exact Hx|discriminate].
  - simpl in H. inversion H; subst; clear H.
    exists (incGenOnly x (weight x0)). simpl. repeat split; try reflexivity. exact Hx.
Qed.

(** X4: the scalar members of the counter of a stream follow the events of
    that stream alone, with or without LHE payload: [num] grows by their
    number, [sumw] and [sumw2] are the running sums of their generator
    weights and of the squares, added in the order of the events. *)
Theorem stream_counter_sums_its_events
    (p : GenWeightsTableProducer) (weightChoice : DynamicWeightChoice)
    (events : list (nat * Event)) (st st' : ModuleState) (tables : list EventTables)
    (id : nat) (counter : Counter) :
  process_events p weightChoice events st = Ok (st', tables) →
  streamCaches st !! id = Some counter →
  ∃ counter',
    streamCaches st' !! id = Some counter'
    ∧ num counter' = num counter + Z.of_nat (length (stream_weights id events))
    ∧ sumw counter' =
        fold_left (fun s w => ld_add s (ld_of_double w))
                  (stream_weights id events) (sumw counter)
    ∧ sumw2 counter' =
        fold_left (fun s w => ld_add s (ld_of_double (w * w)%float))
                  (stream_weights id events) (sumw2 counter).
Proof.
  revert st counter tables.
  induction events as [|[j iEvent] rest IH]; intros st counter tables H Hc; simpl in H.
  - inversion H; subst. exists counter. simpl. rewrite Z.add_0_r. auto.
  - inv_bind H. destruct x as [st1 t1]. simpl in H.
    inv_bind H. destruct x as [st2 more]. simpl in H. inversion H; subst; clear H.
    destruct (produce_counts_the_event _ _ _ _ _ _ _ Hx)
      as (cj & genInfo & cj' & Hcj & Hgen & Hst1 & Hnum & Hsumw & Hsumw2 & _).
    simpl. rewrite Hgen.
    destruct (Nat.eqb_spec j id) as [->|Hne].
    + assert (cj = counter) by congruence. subst cj.
      destruct (IH st1 cj' _ Hx0) as (counter' & Hc' & Hn & Hw & Hw2).
      { rewrite Hst1. apply list_lookup_insert_eq. now apply lookup_lt_Some in Hc. }
      exists counter'. split; [exact Hc'|].
      rewrite Hn, Hw, Hw2, Hnum, Hsumw, Hsumw2. simpl.
      split; [lia|]. auto.
    + destruct (IH st1 counter _ Hx0) as (counter' & Hc' & Hn & Hw & Hw2).
      { rewrite Hst1. rewrite list_lookup_insert_ne by exact Hne. exact Hc. }
      exists counter'. auto.
Qed.

Lemma total_num_insert (counters : list Counter) (id : nat) (c c' : Counter) :
  counters !! id = Some c →
  total_num (<[id := c']> counters) = total_num counters - num c + num c'.
Proof.
  revert id. induction counters as [|c0 counters IH]; intros id Hc; [discriminate|].
  destruct id as [|id]; simpl in *.
  - injection Hc as ->. unfold total_num. simpl. lia.
  - unfold total_num in *. simpl. rewrite (IH id Hc). lia.
Qed.

(** X5: every event that is processed is counted once, on one stream:
    whatever the streams the events run on, the counters of all streams
    together count as many events more as were processed. *)
Theorem streams_count_every_event_once
    (p : GenWeightsTableProducer) (weightChoice : DynamicWeightChoice)
    (events : list (nat * Event)) (st st' : ModuleState) (tables : list EventTables) :
  process_events p weightChoice events st = Ok (st', tables) →
  total_num (streamCaches st') = total_num (streamCaches st) + Z.of_nat (length events)
  ∧ length tables = length events.
Proof.
  revert st st' tables.
  induction events as [|[j iEvent] rest IH]; intros st st' tables H; simpl in H.
  - inversion H; subst. simpl. split; [lia|reflexivity].
  - inv_bind H. destruct x as [st1 t1]. simpl in H.
    inv_bind H. destruct x as [st2 more]. simpl in H. inversion H; subst; clear H.
    destruct (produce_counts_the_event _ _ _ _ _ _ _ Hx)
      as (cj & genInfo & cj' & Hcj & Hgen & Hst1 & Hnum & _).
    destruct (IH _ _ _ Hx0) as [Htotal Hlen].
    rewrite Htotal, Hst1, (total_num_insert _ _ _ _ Hcj), Hnum. simpl length.
    split; [simpl; lia|now rewrite Hlen].
Qed.

Lemma named_columns_single p (wNamed : list double) count i t t' :
  for_loop_from i count (add_named_column p wNamed) t = Ok t' →
  ∃ cols,
    t' = mkFlatTable (ft_size t) (ft_name t) (ft_singleton t) (ft_doc t)
           (ft_columns t ++ cols)
    ∧ length cols = count
    ∧ Forall (fun col => length (col_values col) = 1%nat) cols.
Proof.
  revert i t. induction count as [|count IH]; intros i t H; simpl in H.
  - inversion H; subst. exists []. split; [destruct t'; simpl; now rewrite app_nil_r|].
    split; [reflexivity|constructor].
  - inv_bind H. unfold add_named_column in Hx.
    inv_bind Hx. inv_bind Hx. inv_bind Hx. inversion Hx; subst; clear Hx.
    destruct (IH _ _ H) as (cols & Hcols & Hlen & Hone).
    exists (mkColumn x0 [x1] (named_doc x2) FloatColumn :: cols).
    split; [rewrite Hcols; simpl; now rewrite <- app_assoc|].
    split; [simpl; now rewrite Hlen|]. constructor; [reflexivity|exact Hone].
Qed.

(** X6: the four tables [produce] puts into the event are well formed,
    with or without LHE payload: every column has one value per row of its
    table.  With LHE payload [LHEScaleWeight] has one row per scale
    identifier of the choice, [LHEPdfWeight] one per PDF identifier, and
    [LHEWeight] is a single row with the column [originalXWGTUP] and one
    column per named weight. *)
Theorem tables_of_an_event_are_well_formed
    (p : GenWeightsTableProducer) (id : nat) (weightChoice : DynamicWeightChoice)
    (iEvent : Event) (st st' : ModuleState) (tables : EventTables) :
  produce p id weightChoice iEvent st = Ok (st', tables) →
  table_well_formed (out_genWeight tables)
  ∧ table_well_formed (out_LHEScale tables)
  ∧ table_well_formed (out_LHEPdf tables)
  ∧ table_well_formed (out_LHENamed tables)
  ∧ (ev_lheInfo iEvent ≠ None →
     ft_size (out_LHEScale tables) = length (scaleWeightIDs weightChoice)
     ∧ ft_size (out_LHEPdf tables) = length (pdfWeightIDs weightChoice)
     ∧ ft_size (out_LHENamed tables) = 1%nat
     ∧ length (ft_columns (out_LHENamed tables)) = S (length (namedWeightIDs_ p))).
Proof.
  intros H. unfold produce in H. inv_bind H. inv_bind H.
  assert (Hgen : table_well_formed
            (addColumnValue (setDoc (FlatTable_new 1 "genWeight" true) "generator weight")
               EmptyString (weight x0) "generator weight" FloatColumn)).
  { split; [repeat constructor|reflexivity]. }
  destruct (ev_lheInfo iEvent) as [lheProd|].
  - inv_bind H. destruct x1 as [[counter' a'] [[tS tP] tN]].
    inversion H; subst; clear H. simpl.
    unfold fillLHEWeightTables in Hx1. simpl in Hx1.
    rewrite normalized_weights_fill in Hx1.
    inv_bind Hx1. inv_bind Hx1. inversion Hx1; subst; clear Hx1.
    unfold for_loop in Hx2. apply named_columns_single in Hx2.
    destruct Hx2 as (cols & -> & Hlen & Hone). simpl.
    split; [exact Hgen|].
    split; [split; [repeat constructor|discriminate]|].
    split; [split; [repeat constructor|discriminate]|].
    split; [split; [constructor; [reflexivity|exact Hone]|reflexivity]|].
    intros _. rewrite !fill_vector_length, !length_replicate in *.
    rewrite Hlen. auto.
  - simpl in H. inversion H; subst; clear H. simpl.
    split; [exact Hgen|].
    split; [split; [constructor|reflexivity]|].
    split; [split; [constructor|reflexivity]|].
    split; [split; [constructor|reflexivity]|]. congruence.
Qed.

(** ** The weights of the event as a set *)

Lemma produce_same_vectors p id weightChoice genInfo w0 ws ws' st :
  normalized_weights (scaleWeightIDs weightChoice) (pdfWeightIDs weightChoice)
    (namedWeightIDs_ p) w0 ws
  = normalized_weights (scaleWeightIDs weightChoice) (pdfWeightIDs weightChoice)
      (namedWeightIDs_ p) w0 ws' →
  produce p id weightChoice (lhe_event genInfo w0 ws) st
  = produce p id weightChoice (lhe_event genInfo w0 ws') st.
Proof.
  intros H. unfold produce, lhe_event, fillLHEWeightTables. simpl.
  now rewrite H.
Qed.

Lemma fill_vector_filter (keep : WGT → bool) ids w0 ws init :
  (∀ w, keep w = false → std_find ids (wgt_id w) = None) →
  fill_vector ids w0 (List.filter keep ws) init = fill_vector ids w0 ws init.
Proof.
  intros Hkeep. unfold fill_vector. revert init.
  induction ws as [|w ws IH]; intros init; simpl; [reflexivity|].
  destruct (keep w) eqn:Hw; simpl; [apply IH|].
  rewrite IH. unfold set_matching. now rewrite (Hkeep w Hw).
Qed.

(** X7: the weights of an event whose identifier is configured nowhere are
    dropped: [produce] returns the same tables, the same counter and the
    same state for the event and for the event without these weights,
    wherever they stand in the list. *)
Theorem unknown_weights_have_no_effect
    (p : GenWeightsTableProducer) (id : nat) (weightChoice : DynamicWeightChoice)
    (genInfo : option GenEventInfoProduct) (w0 : double) (ws : list WGT)
    (st : ModuleState) :
  produce p id weightChoice
          (lhe_event genInfo w0 (List.filter (is_configured p weightChoice) ws)) st
  = produce p id weightChoice (lhe_event genInfo w0 ws) st.
Proof.
  apply produce_same_vectors. rewrite !normalized_weights_fill.
  rewrite !fill_vector_filter; [reflexivity|..];
    intros w; unfold is_configured;
    destruct (std_find (scaleWeightIDs weightChoice) (wgt_id w)),
             (std_find (pdfWeightIDs weightChoice) (wgt_id w)),
             (std_find (namedWeightIDs_ p) (wgt_id w)); congruence.
Qed.

Lemma first_or_repeated (ids : list string) (i : nat) (id : string) :
  ids !! i = Some id → first_at ids i id ∨ repeated_at ids i id.
Proof.
  revert i. induction ids as [|y ids IH]; intros i Hi; [discriminate|].
  destruct i as [|i].
  - left. split; [exact Hi|]. intros j Hj. lia.
  - simpl in Hi. destruct (String.eqb_spec y id) as [->|Hne].
    + right. split; [exact Hi|]. exists 0%nat. split; [lia|reflexivity].
    + destruct (IH i Hi) as [[_ Hfirst]|[_ (j & Hj & Hjid)]].
      * left. split; [exact Hi|]. intros [|j] Hj; simpl; [congruence|].
        apply Hfirst. lia.
      * right. split; [exact Hi|]. exists (S j). split; [lia|exact Hjid].
Qed.

(** The vector depends on the event through the last weight of each
    identifier alone. *)
Lemma fill_vector_by_last_weight ids w0 ws ws' :
  (∀ id, last_weight ws id = last_weight ws' id) →
  fill_vector ids w0 ws (replicate (length ids) 1%float)
  = fill_vector ids w0 ws' (replicate (length ids) 1%float).
Proof.
  intros Hsame. apply list_eq. intros i.
  destruct (ids !! i) as [id|] eqn:Hid.
  - destruct (first_or_repeated ids i id Hid) as [Hfirst|Hrep].
    + destruct (fill_vector_normalized ids w0 ws) as [_ H1].
      destruct (fill_vector_normalized ids w0 ws') as [_ H2].
      rewrite (H1 i id Hfirst), (H2 i id Hfirst).
      unfold normalized_entry. now rewrite Hsame.
    + now rewrite !(fill_vector_repeated_one _ _ _ _ _ Hrep).
  - apply lookup_ge_None in Hid.
    rewrite !(proj2 (lookup_ge_None _ _));
      [reflexivity|rewrite fill_vector_length, length_replicate; exact Hid..].
Qed.

Lemma last_weight_elem ws id v :
  last_weight ws id = Some v → ∃ w, w ∈ ws ∧ wgt_id w = id ∧ wgt w = v.
Proof.
  induction ws as [|x ws IH]; simpl; [discriminate|].
  destruct (last_weight ws id) as [v'|].
  - intros [= <-]. destruct (IH eq_refl) as (w & Hw & Hrest).
    exists w. split; [now right|exact Hrest].
  - destruct (String.eqb_spec (wgt_id x) id) as [Heq|Hne]; [|discriminate].
    intros [= <-]. exists x. split; [now left|auto].
Qed.

Lemma elem_last_weight ws w :
  NoDup (map wgt_id ws) → w ∈ ws → last_weight ws (wgt_id w) = Some (wgt w).
Proof.
  induction ws as [|x ws IH]; intros Hnodup Hw; [now apply not_elem_of_nil in Hw|].
  simpl in Hnodup. apply NoDup_cons in Hnodup. destruct Hnodup as [Hx Hnodup].
  simpl. apply elem_of_cons in Hw. destruct Hw as [->|Hw].
  - destruct (last_weight ws (wgt_id x)) as [v|] eqn:Hlast.
    + exfalso. apply last_weight_elem in Hlast. destruct Hlast as (w & Hw & Hid & _).
      apply Hx. rewrite <- Hid. apply list_elem_of_fmap. exists w. auto.
    + now rewrite String.eqb_refl.
  - now rewrite (IH Hnodup Hw).
Qed.

Lemma last_weight_permutation ws ws' id :
  ws ≡ₚ ws' → NoDup (map wgt_id ws) → last_weight ws id = last_weight ws' id.
Proof.
  intros Hperm Hnodup.
  assert (Hnodup' : NoDup (map wgt_id ws')).
  { eapply NoDup_Permutation_proper; [|exact Hnodup]. symmetry. now apply fmap_Permutation. }
  destruct (last_weight ws id) as [v|] eqn:H1.
  - apply last_weight_elem in H1. destruct H1 as (w & Hw & <- & <-).
    symmetry. apply elem_last_weight; [exact Hnodup'|]. now rewrite <- Hperm.
  - destruct (last_weight ws' id) as [v'|] eqn:H2; [|reflexivity].
    apply last_weight_elem in H2. destruct H2 as (w & Hw & <- & <-).
    rewrite <- Hperm in Hw. rewrite (elem_last_weight ws w Hnodup Hw) in H1.
    discriminate.
Qed.

(** X8: when the identifiers of the weights of an event are pairwise
    distinct, their order in the list plays no part: [produce] returns the
    same tables, counter and state for every rearrangement of the list. *)
Theorem order_of_distinct_weights_is_irrelevant
    (p : GenWeightsTableProducer) (id : nat) (weightChoice : DynamicWeightChoice)
    (genInfo : option GenEventInfoProduct) (w0 : double) (ws ws' : list WGT)
    (st : ModuleState) :
  ws ≡ₚ ws' → NoDup (map wgt_id ws) →
  produce p id weightChoice (lhe_event genInfo w0 ws) st
  = produce p id weightChoice (lhe_event genInfo w0 ws') st.
Proof.
  intros Hperm Hnodup. apply produce_same_vectors.
  rewrite !normalized_weights_fill.
  rewrite (fill_vector_by_last_weight (scaleWeightIDs weightChoice) w0 ws ws'),
          (fill_vector_by_last_weight (pdfWeightIDs weightChoice) w0 ws ws'),
          (fill_vector_by_last_weight (namedWeightIDs_ p) w0 ws ws');
    [reflexivity|..]; intros wid; now apply last_weight_permutation.
Qed.

(** ** Lines the parser does not read *)

Lemma scan_lines_without_opener ls acc :
  Forall (fun line => matches line weightgroup = false) ls →
  scan_lines stof Outside ls acc = Ok acc.
Proof.
  induction 1 as [|line ls Hline Hls IH]; [reflexivity|].
  rewrite scan_lines_cons. cbv zeta. now rewrite (matches_false _ _ Hline).
Qed.

Lemma resolve_pdf_nil preferred weightChoice :
  resolve_pdf preferred [] weightChoice = weightChoice.
Proof. unfold resolve_pdf. now rewrite choose_pdf_nil. Qed.

Lemma read_headers_without_opener p hs weightChoice :
  Forall (fun h => tag h = "initrwgt" →
                   Forall (fun line => matches line weightgroup = false) (lines h)) hs →
  read_headers stof p hs (mkCollected [] []) weightChoice
  = Ok (mkCollected [] [], weightChoice).
Proof.
  induction 1 as [|h hs Hh Hhs IH]; simpl; [reflexivity|].
  destruct (String.eqb_spec (tag h) "initrwgt") as [Htag|Htag]; simpl; [|exact IH].
  rewrite (scan_lines_without_opener _ _ (Hh Htag)). simpl.
  now rewrite resolve_scales_nil, resolve_pdf_nil.
Qed.

(** X9: weight lines are read inside a weight group only.  When no line
    of the [initrwgt] headers opens a group (in particular when the run
    has no [initrwgt] header at all), [globalBeginRun] returns the empty
    choice and throws nothing, whatever the lines hold, be it a scale
    weight with an unreadable number. *)
Theorem no_group_opener_gives_the_empty_choice
    (p : GenWeightsTableProducer) (a : Atomics) (hs : list LHEHeader) :
  Forall (fun h => tag h = "initrwgt" →
                   Forall (fun line => matches line weightgroup = false) (lines h)) hs →
  snd (globalBeginRun stof p (mkRun (Some (mkLHERunInfoProduct hs))) a)
  = Ok (mkChoice [] EmptyString [] EmptyString).
Proof.
  intros Hhs. unfold globalBeginRun. simpl.
  now rewrite (read_headers_without_opener p hs _ Hhs).
Qed.

Lemma scan_lines_skips_other_lines body rest acc :
  Forall (fun line => matches line endweightgroup = false
                      ∧ matches line weightgroup = false) body →
  scan_lines stof InOther (body ++ rest) acc = scan_lines stof InOther rest acc.
Proof.
  induction 1 as [|line body [Hend Hopen] Hbody IH]; [reflexivity|].
  rewrite <- app_comm_cons, scan_lines_cons. cbv zeta.
  now rewrite Hend, Hopen.
Qed.

(** X10: a weight group of a name other than [scale_variation] and
    [PDF_variation] is skipped whole: the header that holds such a group,
    from its opening line to its closing line, gives the outcome of the
    header without the group, whatever the lines of the group hold. *)
Theorem group_of_another_name_is_skipped
    (p : GenWeightsTableProducer) (a : Atomics) (before after : list LHEHeader)
    (name opener closer : string) (groups : captures) (body rest : list string) :
  regex_search opener weightgroup = Some groups →
  enter_group (group_str groups 2) = InOther →
  Forall (fun line => matches line endweightgroup = false
                      ∧ matches line weightgroup = false) body →
  matches closer endweightgroup = true →
  let run_of := fun ls =>
    mkRun (Some (mkLHERunInfoProduct (before ++ mkLHEHeader name ls :: after))) in
  globalBeginRun stof p (run_of (opener :: body ++ closer :: rest)) a
  = globalBeginRun stof p (run_of rest) a.
Proof.
  intros Hopener Hother Hbody Hcloser run_of.
  unfold globalBeginRun, run_of. simpl.
  rewrite (read_headers_same_scan p before
             (mkLHEHeader name (opener :: body ++ closer :: rest))
             (mkLHEHeader name rest) after); [reflexivity..|].
  intros acc. simpl lines.
  rewrite scan_lines_cons. cbv zeta. rewrite Hopener, Hother.
  rewrite (scan_lines_skips_other_lines _ _ _ Hbody).
  rewrite scan_lines_cons. cbv zeta. now rewrite Hcloser.
Qed.

(** ** Grouping of the PDF weights *)

Lemma add_pdf_keeps_runs groups acc acc' :
  add_pdf groups acc = Ok acc' →
  Forall group_contiguous (pdfSetWeightIDs acc) ∧ runs_apart (pdfSetWeightIDs acc) →
  Forall group_contiguous (pdfSetWeightIDs acc') ∧ runs_apart (pdfSetWeightIDs acc').
Proof.
  unfold add_pdf. intros H [Hcont Hapart]. inv_bind H. inversion H; subst; clear H. simpl.
  set (pdfs := pdfSetWeightIDs acc) in *.
  set (lhaID := to_unsigned x).
  assert (Hrange : 0 ≤ lhaID < UINT_MOD) by (apply Z.mod_pos_bound; reflexivity).
  assert (Hfresh : group_contiguous (PDFSetWeights_new (group_str groups 1) lhaID)).
  { split; [discriminate|]. split; [exact Hrange|]. simpl.
    replace (lhaID + Z.of_nat 1 - 1) with lhaID by lia. symmetry. now apply Z.mod_small. }
  assert (Happend : ∀ back, last pdfs = Some back →
            lhaID ≠ ((lhaIDs back).2 + 1) mod UINT_MOD →
            Forall group_contiguous (pdfs ++ [PDFSetWeights_new (group_str groups 1) lhaID])
            ∧ runs_apart (pdfs ++ [PDFSetWeights_new (group_str groups 1) lhaID])).
  { intros back Hlast Hne. split; [apply Forall_app; auto|].
    intros i g1 g2 H1 H2. rewrite last_lookup in Hlast.
    destruct (decide (S i < length pdfs)%nat) as [Hlt|Hge].
    - rewrite lookup_app_l in H1 by lia. rewrite lookup_app_l in H2 by lia.
      now apply (Hapart i g1 g2).
    - assert (Hi : S i = length pdfs).
      { apply lookup_lt_Some in H2. rewrite length_app in H2. simpl in H2. lia. }
      rewrite lookup_app_l in H1 by lia.
      rewrite lookup_app_r in H2 by lia.
      replace (S i - length pdfs)%nat with 0%nat in H2 by lia.
      injection H2 as <-. simpl.
      replace (pred (length pdfs)) with i in Hlast by lia. congruence. }
  destruct (last pdfs) as [back|] eqn:Hlast.
  - unfold maybe_add.
    destruct (Z.eqb_spec lhaID (((lhaIDs back).2 + 1) mod UINT_MOD)) as [Heq|Hne];
      [|now apply (Happend back)].
    assert (Hback : pdfs !! pred (length pdfs) = Some back) by now rewrite <- last_lookup.
    assert (Hbackc : group_contiguous back) by (eapply Forall_lookup_1; eauto).
    destruct Hbackc as (Hne & Hfirst & Hsecond).
    split.
    + apply Forall_insert; [exact Hcont|].
      split; [now destruct (wids back)|]. split; [exact Hfirst|]. simpl.
      rewrite length_app, Hsecond. simpl.
      rewrite Zplus_mod_idemp_l. f_equal. lia.
    + intros i g1 g2 H1 H2.
      assert (Hlen : (S i < length pdfs)%nat).
      { apply lookup_lt_Some in H2. now rewrite length_insert in H2. }
      rewrite list_lookup_insert_ne in H1 by lia.
      destruct (decide (S i = pred (length pdfs))) as [Hi|Hi].
      * rewrite Hi, list_lookup_insert_eq in H2 by lia. injection H2 as <-. simpl.
        apply (Hapart i g1 back H1). now rewrite Hi.
      * rewrite list_lookup_insert_ne in H2 by lia. now apply (Hapart i g1 g2).
  - apply last_None in Hlast. rewrite Hlast. simpl.
    split; [constructor; [exact Hfresh|constructor]|].
    intros i g1 g2 H1 H2. destruct i; discriminate.
Qed.

Lemma scan_lines_keeps_runs ls st acc acc' :
  scan_lines stof st ls acc = Ok acc' →
  Forall group_contiguous (pdfSetWeightIDs acc) ∧ runs_apart (pdfSetWeightIDs acc) →
  Forall group_contiguous (pdfSetWeightIDs acc') ∧ runs_apart (pdfSetWeightIDs acc').
Proof.
  revert st acc. induction ls as [|line rest IH]; intros st acc H Hinv.
  - simpl in H. now inversion H; subst.
  - rewrite scan_lines_cons in H. cbv zeta in H.
    assert (Hdispatch :
      match regex_search line weightgroup with
      | Some groups => scan_lines stof (enter_group (group_str groups 2)) rest acc
      | None => scan_lines stof Outside rest acc
      end = Ok acc' →
      Forall group_contiguous (pdfSetWeightIDs acc') ∧ runs_apart (pdfSetWeightIDs acc')).
    { destruct (regex_search line weightgroup); intros H'; eapply IH; eauto. }
    destruct st.
    + auto.
    + destruct (regex_search line scalew).
      * inv_bind H. apply add_scale_pdfs in Hx. rewrite <- Hx in Hinv. eapply IH; eauto.
      * destruct (matches line endweightgroup); [eapply IH; eauto|].
        destruct (matches line weightgroup); [auto|eapply IH; eauto].
    + destruct (regex_search line pdfw).
      * inv_bind H. eapply IH; [exact H|]. eapply add_pdf_keeps_runs; eauto.
      * destruct (matches line endweightgroup); [eapply IH; eauto|].
        destruct (matches line weightgroup); [auto|eapply IH; eauto].
    + destruct (matches line endweightgroup); [eapply IH; eauto|].
      destruct (matches line weightgroup); [auto|eapply IH; eauto].
Qed.

Lemma read_headers_keeps_runs p hs acc weightChoice acc' weightChoice' :
  read_headers stof p hs acc weightChoice = Ok (acc', weightChoice') →
  Forall group_contiguous (pdfSetWeightIDs acc) ∧ runs_apart (pdfSetWeightIDs acc) →
  Forall group_contiguous (pdfSetWeightIDs acc') ∧ runs_apart (pdfSetWeightIDs acc').
Proof.
  revert acc weightChoice. induction hs as [|h hs IH]; intros acc weightChoice H Hinv;
    simpl in H.
  - now inversion H; subst.
  - destruct (negb (String.eqb (tag h) "initrwgt")); [eapply IH; eauto|].
    inv_bind H. eapply IH; [exact H|]. simpl. eapply scan_lines_keeps_runs; eauto.
Qed.

(** X11: the PDF weights are collected in runs of consecutive LHA IDs.
    Each group [globalBeginRun] has collected holds at least one
    identifier and exactly one per LHA ID of its range, and no group starts
    at the LHA ID that follows the range of the group before it, so every
    group is a run that could not be extended. *)
Theorem pdf_groups_are_runs_of_consecutive_ids
    (p : GenWeightsTableProducer) (iRun : Run) (lheInfo : LHERunInfoProduct)
    (a : Atomics) (weightChoice : DynamicWeightChoice) :
  run_lheInfo iRun = Some lheInfo →
  snd (globalBeginRun stof p iRun a) = Ok weightChoice →
  ∃ acc,
    read_headers stof p (headers lheInfo) (mkCollected [] []) DynamicWeightChoice_new
      = Ok (acc, weightChoice)
    ∧ Forall group_contiguous (pdfSetWeightIDs acc)
    ∧ runs_apart (pdfSetWeightIDs acc).
Proof.
  intros Hrun H. unfold globalBeginRun in H. simpl in H. rewrite Hrun in H.
  inv_bind H. destruct x as [acc wc]. inversion H; subst; clear H.
  exists acc. split; [exact Hx|].
  apply (read_headers_keeps_runs _ _ _ _ _ _ Hx). simpl.
  split; [constructor|]. intros i g1 g2 H1. discriminate.
Qed.

(** ** Order of the scale weights *)

Lemma SFltb_asym (x y : spec_float) : SFltb x y = true → SFltb y x = false.
Proof.
  unfold SFltb, SFcompare.
  destruct x as [sx|sx| |sx mx ex], y as [sy|sy| |sy my ey];
    try reflexivity; try discriminate;
    try (destruct sx; try discriminate; reflexivity);
    try (destruct sy; try discriminate; reflexivity);
    try (destruct sx, sy; try discriminate; reflexivity).
  assert (Hpos : ∀ a b, Pos.compare_cont Eq b a = CompOpp (Pos.compare_cont Eq a b)).
  { intros a b. change (Pos.compare b a = CompOpp (Pos.compare a b)).
    apply Pos.compare_antisym. }
  destruct sx, sy; try discriminate; try reflexivity;
    rewrite (Z.compare_antisym ex ey), (Hpos mx my);
    destruct (ex ?= ey)%Z; simpl; try discriminate; try reflexivity;
    destruct (Pos.compare_cont Eq mx my); simpl; try discriminate; reflexivity.
Qed.

Lemma float_ltb_asym (x y : double) : (x <? y)%float = true → (y <? x)%float = false.
Proof. rewrite !FloatAxioms.ltb_spec. apply SFltb_asym. Qed.

Lemma string_lt_asym (a b : string) : string_lt a b = true → string_lt b a = false.
Proof.
  unfold string_lt, String.ltb. rewrite (String.compare_antisym b a).
  destruct (String.compare a b); simpl; congruence.
Qed.

Lemma pair_lt_asym (a b : double * double) : pair_lt a b = true → pair_lt b a = false.
Proof.
  unfold pair_lt. intros H.
  destruct (a.1 <? b.1)%float eqn:H1; simpl in H.
  - now rewrite (float_ltb_asym _ _ H1).
  - destruct (b.1 <? a.1)%float eqn:H2; simpl in H; [discriminate|].
    simpl. now apply float_ltb_asym.
Qed.

(** [operator<] never holds in both directions. *)
Lemma ScaleVarWeight_lt_asym (a b : ScaleVarWeight) :
  ScaleVarWeight_lt a b = true → ScaleVarWeight_lt b a = false.
Proof.
  unfold ScaleVarWeight_lt.
  destruct (pair_eq (sv_scales a) (sv_scales b)) eqn:Hab.
  - rewrite (pair_eq_sym _ _ Hab). apply string_lt_asym.
  - destruct (pair_eq (sv_scales b) (sv_scales a)) eqn:Hba.
    + apply pair_eq_sym in Hba. congruence.
    + apply pair_lt_asym.
Qed.

Lemma sort_insert_permutation x sorted : sort_insert x sorted ≡ₚ x :: sorted.
Proof.
  induction sorted as [|y sorted IH]; simpl; [reflexivity|].
  destruct (ScaleVarWeight_lt y x); [|reflexivity].
  rewrite IH. apply Permutation_swap.
Qed.

Lemma std_sort_permutation v : std_sort v ≡ₚ v.
Proof.
  induction v as [|x v IH]; [reflexivity|].
  unfold std_sort in *. simpl. rewrite sort_insert_permutation. now rewrite IH.
Qed.

Lemma SFcompare_antisym (f g : spec_float) :
  SFcompare g f = option_map CompOpp (SFcompare f g).
Proof.
  assert (Hpos : ∀ a b, Pos.compare_cont Eq b a = CompOpp (Pos.compare_cont Eq a b)).
  { intros a b. change (Pos.compare b a = CompOpp (Pos.compare a b)).
    apply Pos.compare_antisym. }
  destruct f as [sf|sf| |sf mf ef], g as [sg|sg| |sg mg eg]; simpl;
    try reflexivity;
    try (destruct sf; reflexivity); try (destruct sg; reflexivity);
    try (destruct sf, sg; reflexivity).
  destruct sf, sg; try reflexivity;
    rewrite (Z.compare_antisym ef eg), (Hpos mf mg);
    destruct (ef ?= eg)%Z; simpl; try reflexivity;
    destruct (Pos.compare_cont Eq mf mg); reflexivity.
Qed.

Lemma SFcompare_eq_cong (f g h : spec_float) :
  SFcompare f g = Some Eq → SFcompare f h = SFcompare g h.
Proof.
  destruct f as [sf|sf| |sf mf ef], g as [sg|sg| |sg mg eg]; simpl;
    try discriminate; try reflexivity;
    try (destruct sf; discriminate); try (destruct sg; discriminate).
  - destruct sf, sg; try discriminate; reflexivity.
  - intros H.
    assert (Heq : sf = sg ∧ ef = eg ∧ mf = mg).
    { destruct sf, sg; try discriminate;
        destruct (Z.compare_spec ef eg) as [->|Hlt|Hgt]; try discriminate;
        destruct (Pos.compare_cont Eq mf mg) eqn:Hm; try discriminate;
        change (Pos.compare mf mg = Eq) in Hm; apply Pos.compare_eq in Hm;
        subst; auto. }
    destruct Heq as (-> & -> & ->). reflexivity.
Qed.

Lemma SFcompare_trans (f g h : spec_float) :
  SFcompare f g = Some Lt → SFcompare g h = Some Lt → SFcompare f h = Some Lt.
Proof.
  assert (Hpos : ∀ a b c, Pos.compare_cont Eq a b = c → Pos.compare a b = c)
    by (intros a b c H; exact H).
  destruct f as [sf|sf| |sf mf ef], g as [sg|sg| |sg mg eg], h as [sh|sh| |sh mh eh];
    simpl; try discriminate;
    try (destruct sf; try discriminate; try reflexivity);
    try (destruct sg; try discriminate; try reflexivity);
    try (destruct sh; try discriminate; try reflexivity);
    try congruence.
  all: destruct (Z.compare_spec ef eg) as [->|H1|H1];
       destruct (Z.compare_spec eg eh) as [->|H2|H2];
       try discriminate; try (rewrite Z.compare_refl);
       try (destruct (Z.compare_spec ef eh); try lia; try reflexivity);
       try (destruct (Z.compare_spec eg eh); try lia; try reflexivity);
       try congruence.
  all: destruct (Pos.compare_cont Eq mf mg) eqn:Hfg; try discriminate;
       destruct (Pos.compare_cont Eq mg mh) eqn:Hgh; try discriminate;
       apply Hpos in Hfg, Hgh; intros _ _;
       rewrite ?Pos.compare_lt_iff, ?Pos.compare_gt_iff in Hfg, Hgh.
  - assert (Hfh : Pos.compare mf mh = Gt) by (apply Pos.compare_gt_iff; lia).
    change (Pos.compare_cont Eq mf mh) with (Pos.compare mf mh). now rewrite Hfh.
  - assert (Hfh : Pos.compare mf mh = Lt) by (apply Pos.compare_lt_iff; lia).
    change (Pos.compare_cont Eq mf mh) with (Pos.compare mf mh). now rewrite Hfh.
Qed.

Lemma number_compares (x y : double) :
  is_nan x = false → is_nan y = false →
  SFcompare (Prim2SF x) (Prim2SF y) = Some (float_compare x y).
Proof.
  unfold is_nan, float_compare. rewrite !negb_false_iff, !FloatAxioms.eqb_spec.
  unfold SFeqb. intros Hx Hy.
  destruct (Prim2SF x) as [sx|sx| |sx mx ex]; try discriminate;
    destruct (Prim2SF y) as [sy|sy| |sy my ey]; try discriminate; reflexivity.
Qed.

Lemma float_compare_ordering :
  ordering_on (fun x => is_nan x = false) float_compare.
Proof.
  split; [|split].
  - intros x y. unfold float_compare.
    rewrite (SFcompare_antisym (Prim2SF x) (Prim2SF y)).
    destruct (SFcompare (Prim2SF x) (Prim2SF y)); reflexivity.
  - intros x y z Hx Hy Hz Hxy Hyz.
    pose proof (number_compares x y Hx Hy) as Cxy.
    pose proof (number_compares y z Hy Hz) as Cyz.
    rewrite Hxy in Cxy. rewrite Hyz in Cyz.
    unfold float_compare. now rewrite (SFcompare_trans _ _ _ Cxy Cyz).
  - intros x y z Hx Hy Hxy.
    pose proof (number_compares x y Hx Hy) as Cxy. rewrite Hxy in Cxy.
    unfold float_compare. now rewrite (SFcompare_eq_cong _ _ (Prim2SF z) Cxy).
Qed.

Lemma ascii_compare_trans (a b c : ascii) :
  Ascii.compare a b = Lt → Ascii.compare b c = Lt → Ascii.compare a c = Lt.
Proof.
  unfold Ascii.compare. rewrite !N.compare_lt_iff. lia.
Qed.

Lemma string_compare_trans (x y z : string) :
  String.compare x y = Lt → String.compare y z = Lt → String.compare x z = Lt.
Proof.
  revert y z. induction x as [|a x IH]; intros [|b y] [|c z]; simpl;
    try discriminate; try reflexivity.
  destruct (Ascii.compare a b) eqn:Hab; try discriminate;
    destruct (Ascii.compare b c) eqn:Hbc; try discriminate.
  - apply Ascii.compare_eq_iff in Hab as ->. rewrite Hbc. apply IH.
  - apply Ascii.compare_eq_iff in Hab as ->. rewrite Hbc. reflexivity.
  - apply Ascii.compare_eq_iff in Hbc as <-. rewrite Hab. reflexivity.
  - rewrite (ascii_compare_trans _ _ _ Hab Hbc). reflexivity.
Qed.

Lemma string_compare_ordering : ordering_on (fun _ : string => True) String.compare.
Proof.
  split; [|split].
  - intros x y. apply String.compare_antisym.
  - intros x y z _ _ _. apply string_compare_trans.
  - intros x y z _ _ Hxy. apply String.compare_eq_iff in Hxy. now subst.
Qed.

Lemma lex_compare_ordering {A B : Type} (DA : A → Prop) (DB : B → Prop)
    (ca : A → A → comparison) (cb : B → B → comparison) :
  ordering_on DA ca → ordering_on DB cb →
  ordering_on (fun x => DA x.1 ∧ DB x.2) (lex_compare ca cb).
Proof.
  intros (Aanti & Atrans & Acong) (Banti & Btrans & Bcong).
  split; [|split].
  - intros x y. unfold lex_compare. rewrite (Aanti x.1 y.1), (Banti x.2 y.2).
    destruct (ca x.1 y.1); reflexivity.
  - intros x y z [Hx1 Hx2] [Hy1 Hy2] [Hz1 Hz2]. unfold lex_compare.
    destruct (ca x.1 y.1) eqn:Hxy; try discriminate;
      destruct (ca y.1 z.1) eqn:Hyz; try discriminate; intros H1 H2.
    + rewrite (Acong _ _ z.1 Hx1 Hy1 Hxy), Hyz. now apply (Btrans x.2 y.2 z.2).
    + now rewrite (Acong _ _ z.1 Hx1 Hy1 Hxy), Hyz.
    + assert (Hzy : ca z.1 y.1 = Eq) by (rewrite Aanti, Hyz; reflexivity).
      pose proof (Acong _ _ x.1 Hz1 Hy1 Hzy) as Hzx.
      rewrite (Aanti x.1 y.1), Hxy in Hzx. simpl in Hzx.
      rewrite (Aanti z.1 x.1), Hzx. reflexivity.
    + now rewrite (Atrans _ _ _ Hx1 Hy1 Hz1 Hxy Hyz).
  - intros x y z [Hx1 Hx2] [Hy1 Hy2]. unfold lex_compare.
    destruct (ca x.1 y.1) eqn:Hxy; try discriminate. intros H.
    now rewrite (Acong _ _ z.1 Hx1 Hy1 Hxy), (Bcong _ _ z.2 Hx2 Hy2 H).
Qed.

(** On weights whose scales are no NaN, [operator<] is the strict part of a
    total preorder. *)
Lemma sv_compare_ordering : ordering_on scales_are_numbers sv_compare.
Proof.
  pose proof (lex_compare_ordering _ _ _ _ float_compare_ordering
                (lex_compare_ordering _ _ _ _ float_compare_ordering
                   string_compare_ordering)) as (Hanti & Htrans & Hcong).
  unfold sv_compare. split; [|split].
  - intros x y. apply Hanti.
  - intros x y z [Hx1 Hx2] [Hy1 Hy2] [Hz1 Hz2]. apply Htrans; simpl; auto.
  - intros x y z [Hx1 Hx2] [Hy1 Hy2]. apply Hcong; simpl; auto.
Qed.

Lemma float_ltb_compare (x y : double) :
  (x <? y)%float = match float_compare x y with Lt => true | _ => false end.
Proof.
  rewrite FloatAxioms.ltb_spec. unfold SFltb, float_compare.
  destruct (SFcompare (Prim2SF x) (Prim2SF y)) as [[| |]|]; reflexivity.
Qed.

Lemma float_eqb_compare (x y : double) :
  is_nan x = false → is_nan y = false →
  (x =? y)%float = match float_compare x y with Eq => true | _ => false end.
Proof.
  intros Hx Hy. rewrite FloatAxioms.eqb_spec. unfold SFeqb.
  rewrite (number_compares x y Hx Hy). reflexivity.
Qed.

Lemma ScaleVarWeight_lt_compare (a b : ScaleVarWeight) :
  scales_are_numbers a → scales_are_numbers b →
  ScaleVarWeight_lt a b = match sv_compare a b with Lt => true | _ => false end.
Proof.
  intros [Ha1 Ha2] [Hb1 Hb2].
  unfold ScaleVarWeight_lt, pair_eq, pair_lt, sv_compare, lex_compare, string_lt,
    String.ltb. simpl.
  rewrite (float_eqb_compare _ _ Ha1 Hb1), (float_eqb_compare _ _ Ha2 Hb2).
  rewrite !float_ltb_compare.
  rewrite (proj1 float_compare_ordering (sv_scales a).1 (sv_scales b).1).
  destruct (float_compare (sv_scales a).1 (sv_scales b).1); simpl; try reflexivity.
  destruct (float_compare (sv_scales a).2 (sv_scales b).2); reflexivity.
Qed.

Lemma sv_compare_refl (a : ScaleVarWeight) : sv_compare a a = Eq.
Proof.
  pose proof (proj1 sv_compare_ordering a a) as H.
  destruct (sv_compare a a); try reflexivity; discriminate.
Qed.

Lemma sv_compare_wid (a b : ScaleVarWeight) :
  sv_compare a b = Eq → sv_wid a = sv_wid b.
Proof.
  unfold sv_compare, lex_compare. simpl.
  destruct (float_compare (sv_scales a).1 (sv_scales b).1); try discriminate.
  destruct (float_compare (sv_scales a).2 (sv_scales b).2); try discriminate.
  apply String.compare_eq_iff.
Qed.

(** What [operator<] does not put before is transitive. *)
Lemma sv_compare_not_before (a b c : ScaleVarWeight) :
  scales_are_numbers a → scales_are_numbers b → scales_are_numbers c →
  sv_compare b a ≠ Lt → sv_compare c b ≠ Lt → sv_compare c a ≠ Lt.
Proof.
  destruct sv_compare_ordering as (Hanti & Htrans & Hcong).
  intros Ha Hb Hc Hba Hcb Hca.
  destruct (sv_compare b a) eqn:Hcmp; [| |].
  - pose proof (Hcong _ _ c Hb Ha Hcmp) as H.
    rewrite (Hanti c a), Hca in H. simpl in H.
    apply Hcb. rewrite Hanti, H. reflexivity.
  - now apply Hba.
  - apply Hcb. apply (Htrans c a b Hc Ha Hb Hca).
    rewrite Hanti, Hcmp. reflexivity.
Qed.

Lemma ScaleVarWeight_lt_false (a b : ScaleVarWeight) :
  scales_are_numbers a → scales_are_numbers b →
  ScaleVarWeight_lt a b = false ↔ sv_compare a b ≠ Lt.
Proof.
  intros Ha Hb. rewrite (ScaleVarWeight_lt_compare a b Ha Hb).
  destruct (sv_compare a b); split; congruence.
Qed.

Lemma ScaleVarWeight_lt_not_before (a b c : ScaleVarWeight) :
  scales_are_numbers a → scales_are_numbers b → scales_are_numbers c →
  ScaleVarWeight_lt b a = false → ScaleVarWeight_lt c b = false →
  ScaleVarWeight_lt c a = false.
Proof.
  intros Ha Hb Hc. rewrite !ScaleVarWeight_lt_false by assumption.
  now apply sv_compare_not_before.
Qed.

Lemma sort_insert_in_order x sorted :
  scales_are_numbers x → Forall scales_are_numbers sorted →
  in_order sorted → in_order (sort_insert x sorted).
Proof.
  intros Hx. induction sorted as [|y sorted IH]; intros Hnum Hsorted; simpl.
  - split; [constructor|exact I].
  - inversion Hnum as [|? ? Hy Hrest]; subst. destruct Hsorted as [Hhead Hsorted].
    destruct (ScaleVarWeight_lt y x) eqn:Hyx.
    + split; [|exact (IH Hrest Hsorted)].
      rewrite sort_insert_permutation. constructor; [|exact Hhead].
      now apply ScaleVarWeight_lt_asym.
    + split; [|split; assumption].
      constructor; [exact Hyx|].
      apply Forall_forall. intros b Hb.
      apply (ScaleVarWeight_lt_not_before x y b Hx Hy); [|exact Hyx|].
      * exact (proj1 (Forall_forall _ _) Hrest b Hb).
      * exact (proj1 (Forall_forall _ _) Hhead b Hb).
Qed.

Lemma std_sort_in_order v : Forall scales_are_numbers v → in_order (std_sort v).
Proof.
  induction 1 as [|x v Hx Hv IH]; [exact I|].
  unfold std_sort in *. simpl. apply sort_insert_in_order; [exact Hx| |exact IH].
  change (Forall scales_are_numbers (std_sort v)). now rewrite std_sort_permutation.
Qed.

Lemma count_equivalent_permutation x l1 l2 :
  l1 ≡ₚ l2 → count_equivalent x l1 = count_equivalent x l2.
Proof.
  induction 1 as [|y l1 l2 Hp IH|y z l|l1 l2 l3 H1 IH1 H2 IH2]; simpl.
  - reflexivity.
  - now rewrite IH.
  - destruct (sv_compare x y), (sv_compare x z); reflexivity.
  - now rewrite IH1.
Qed.

Lemma count_equivalent_pos x l :
  (0 < count_equivalent x l)%nat → ∃ y, y ∈ l ∧ sv_compare x y = Eq.
Proof.
  induction l as [|y l IH]; simpl; [lia|].
  destruct (sv_compare x y) eqn:Hxy.
  - intros _. exists y. split; [left|exact Hxy].
  - intros H. destruct (IH H) as (z & Hz & Hxz). exists z. split; [now right|exact Hxz].
  - intros H. destruct (IH H) as (z & Hz & Hxz). exists z. split; [now right|exact Hxz].
Qed.

(** The first element of a sorted list is put before by none that the list
    holds an equivalent of. *)
Lemma in_order_head (a b : ScaleVarWeight) (l : list ScaleVarWeight) :
  scales_are_numbers a → Forall scales_are_numbers (b :: l) →
  in_order (b :: l) → (0 < count_equivalent a (b :: l))%nat →
  sv_compare a b ≠ Lt.
Proof.
  destruct sv_compare_ordering as (Hanti & Htrans & Hcong).
  intros Ha Hnum [Hhead _] Hcount.
  destruct (count_equivalent_pos _ _ Hcount) as (a' & Hin & Heq).
  assert (Ha' : scales_are_numbers a') by exact (proj1 (Forall_forall _ _) Hnum a' Hin).
  assert (Hb : scales_are_numbers b) by (inversion Hnum; assumption).
  rewrite (Hcong a a' b Ha Ha' Heq).
  apply elem_of_cons in Hin. destruct Hin as [->|Hin].
  - rewrite sv_compare_refl. discriminate.
  - apply ScaleVarWeight_lt_false; [assumption..|].
    exact (proj1 (Forall_forall _ _) Hhead a' Hin).
Qed.

(** Two sorted lists that hold as many equivalents of every weight list
    the same identifiers: [operator<] tells weights of different
    identifiers apart. *)
Lemma in_order_ids_unique (l1 l2 : list ScaleVarWeight) :
  Forall scales_are_numbers l1 → Forall scales_are_numbers l2 →
  in_order l1 → in_order l2 →
  (∀ x, scales_are_numbers x → count_equivalent x l1 = count_equivalent x l2) →
  map sv_wid l1 = map sv_wid l2.
Proof.
  destruct sv_compare_ordering as (Hanti & Htrans & Hcong).
  revert l2. induction l1 as [|a l1 IH]; intros [|b l2] Hnum1 Hnum2 Hs1 Hs2 Hcount.
  - reflexivity.
  - inversion Hnum2 as [|? ? Hb _]; subst.
    specialize (Hcount b Hb). simpl in Hcount. rewrite sv_compare_refl in Hcount.
    discriminate.
  - inversion Hnum1 as [|? ? Ha _]; subst.
    specialize (Hcount a Ha). simpl in Hcount. rewrite sv_compare_refl in Hcount.
    discriminate.
  - inversion Hnum1 as [|? ? Ha Hrest1]; subst.
    inversion Hnum2 as [|? ? Hb Hrest2]; subst.
    assert (Hab : sv_compare a b ≠ Lt).
    { apply (in_order_head a b l2 Ha Hnum2 Hs2). rewrite <- (Hcount a Ha).
      simpl. rewrite sv_compare_refl. lia. }
    assert (Hba : sv_compare b a ≠ Lt).
    { apply (in_order_head b a l1 Hb Hnum1 Hs1). rewrite (Hcount b Hb).
      simpl. rewrite sv_compare_refl. lia. }
    assert (Heq : sv_compare a b = Eq).
    { rewrite (Hanti a b) in Hba. destruct (sv_compare a b); simpl in Hba; congruence. }
    simpl. rewrite (sv_compare_wid a b Heq). f_equal.
    apply IH; [exact Hrest1|exact Hrest2|exact (proj2 Hs1)|exact (proj2 Hs2)|].
    intros x Hx. specialize (Hcount x Hx). simpl in Hcount.
    assert (Hx_ab : sv_compare x a = sv_compare x b).
    { rewrite (Hanti a x), (Hanti b x). f_equal. exact (Hcong a b x Ha Hb Heq). }
    rewrite Hx_ab in Hcount. destruct (sv_compare x b); congruence.
Qed.

(** Whatever sorted rearrangement of the weights [std::sort] returns, the
    identifiers come out in the order the model gives. *)
Lemma std_sort_ids_unique (v sorted : list ScaleVarWeight) :
  Forall scales_are_numbers v → sorted ≡ₚ v → in_order sorted →
  map sv_wid sorted = map sv_wid (std_sort v).
Proof.
  intros Hnum Hperm Hsorted.
  apply in_order_ids_unique.
  - now rewrite Hperm.
  - now rewrite std_sort_permutation.
  - exact Hsorted.
  - now apply std_sort_in_order.
  - intros x _. apply count_equivalent_permutation.
    now rewrite Hperm, std_sort_permutation.
Qed.

Lemma describe_scales_ids sws isw scaleDoc ids :
  (describe_scales isw sws scaleDoc ids).2 = ids ++ map sv_wid sws.
Proof.
  revert isw scaleDoc ids. induction sws as [|sw sws IH]; intros isw scaleDoc ids; simpl.
  - now rewrite app_nil_r.
  - rewrite IH. now rewrite <- app_assoc.
Qed.

Lemma resolve_scales_ids sorted weightChoice :
  scaleWeightIDs (resolve_scales sorted weightChoice)
  = scaleWeightIDs weightChoice ++ map sv_wid sorted.
Proof.
  unfold resolve_scales.
  pose proof (describe_scales_ids sorted 0 (ss_init scale_doc_start)
                (scaleWeightIDs weightChoice)) as H.
  destruct (describe_scales 0 sorted _ _) as [scaleDoc ids]. exact H.
Qed.

Lemma read_headers_other_tags p hs acc weightChoice :
  Forall (fun h => tag h ≠ "initrwgt") hs →
  read_headers stof p hs acc weightChoice = Ok (acc, weightChoice).
Proof.
  induction 1 as [|h hs Hh Hhs IH]; simpl; [reflexivity|].
  apply String.eqb_neq in Hh. now rewrite Hh.
Qed.

Lemma read_headers_app p hs1 hs2 acc weightChoice :
  read_headers stof p (hs1 ++ hs2) acc weightChoice
  = '(acc, weightChoice) ← read_headers stof p hs1 acc weightChoice;
    read_headers stof p hs2 acc weightChoice.
Proof.
  revert acc weightChoice. induction hs1 as [|h hs1 IH]; intros acc weightChoice; simpl.
  - reflexivity.
  - destruct (negb (String.eqb (tag h) "initrwgt")); [apply IH|].
    destruct (scan_lines stof Outside (lines h) acc); simpl; [apply IH|reflexivity..].
Qed.

(** X12: for a run with one [initrwgt] header whose scan collects scale
    weights without a NaN among their scales, [scaleWeightIDs] lists the
    identifiers of the collected weights, each as often as it was collected,
    in sorted order: it is the identifier list of a rearrangement of the
    collected weights in which no weight is followed, at any distance, by
    one that [operator<] puts before it; and every such rearrangement has
    this identifier list, so the order in which [std::sort] leaves
    equivalent weights plays no part.  The headers of other tags before and
    after play no part. *)
Theorem scale_ids_are_the_collected_ids_in_order
    (p : GenWeightsTableProducer) (a : Atomics) (before after : list LHEHeader)
    (h : LHEHeader) (raw : Collected) :
  Forall (fun h => tag h ≠ "initrwgt") before →
  Forall (fun h => tag h ≠ "initrwgt") after →
  tag h = "initrwgt" →
  scan_lines stof Outside (lines h) (mkCollected [] []) = Ok raw →
  Forall scales_are_numbers (scaleVariationIDs raw) →
  ∃ weightChoice,
    snd (globalBeginRun stof p
           (mkRun (Some (mkLHERunInfoProduct (before ++ h :: after)))) a)
      = Ok weightChoice
    ∧ (∃ sorted,
         sorted ≡ₚ scaleVariationIDs raw
         ∧ in_order sorted
         ∧ scaleWeightIDs weightChoice = map sv_wid sorted)
    ∧ (∀ sorted,
         sorted ≡ₚ scaleVariationIDs raw → in_order sorted →
         scaleWeightIDs weightChoice = map sv_wid sorted).
Proof.
  intros Hbefore Hafter Htag Hscan Hnum. unfold globalBeginRun. simpl.
  rewrite read_headers_app, (read_headers_other_tags p before _ _ Hbefore). simpl.
  rewrite Htag. simpl. rewrite Hscan. simpl.
  rewrite (read_headers_other_tags p after _ _ Hafter). simpl.
  eexists. split; [reflexivity|].
  rewrite (proj1 (resolve_pdf_scale_part _ _ _)), resolve_scales_ids. simpl.
  split.
  - exists (std_sort (scaleVariationIDs raw)).
    split; [apply std_sort_permutation|]. split; [now apply std_sort_in_order|].
    reflexivity.
  - intros sorted Hperm Hsorted. symmetry. now apply std_sort_ids_unique.
Qed.

(** ** End of the run *)

Lemma named_sums_loop_defined p (runCounter : Counter) count i out :
  (i + count ≤ length (namedWeightLabels_ p))%nat →
  (i + count ≤ length (sumNamed runCounter))%nat →
  for_loop_from i count (add_named_sum p runCounter) out
  = Ok (mkCounterTable (ct_ints out)
          (ct_floats out
           ++ zip_with named_sum_entry
                (take count (drop i (namedWeightLabels_ p)))
                (take count (drop i (sumNamed runCounter))))
          (ct_vfloats out)).
Proof.
  revert i out. induction count as [|count IH]; intros i out Hl Hs.
  - simpl. rewrite app_nil_r. now destruct out.
  - destruct (lookup_lt_is_Some_2 (namedWeightLabels_ p) i) as [label Hlabel]; [lia|].
    destruct (lookup_lt_is_Some_2 (sumNamed runCounter) i) as [value Hvalue]; [lia|].
    assert (Hstep : add_named_sum p runCounter i out
                    = Ok (mkCounterTable (ct_ints out)
                            (ct_floats out ++ [named_sum_entry label value])
                            (ct_vfloats out))).
    { unfold add_named_sum.
      now rewrite (proj2 (vec_at_Ok _ _ _) Hlabel), (proj2 (vec_at_Ok _ _ _) Hvalue). }
    cbn [for_loop_from]. rewrite Hstep. cbn [mbind result_bind].
    rewrite IH by lia. simpl.
    rewrite (drop_S _ _ _ Hlabel), (drop_S _ _ _ Hvalue). simpl.
    now rewrite <- app_assoc.
Qed.

Lemma named_sums_loop_undefined p (runCounter : Counter) count i out :
  (i ≤ length (sumNamed runCounter))%nat →
  (i + count ≤ length (namedWeightLabels_ p))%nat →
  (length (sumNamed runCounter) < i + count)%nat →
  for_loop_from i count (add_named_sum p runCounter) out = Undefined.
Proof.
  revert i out. induction count as [|count IH]; intros i out Hi Hl Hs; [simpl in Hs; lia|].
  destruct (lookup_lt_is_Some_2 (namedWeightLabels_ p) i) as [label Hlabel]; [lia|].
  cbn [for_loop_from].
  destruct (sumNamed runCounter !! i) as [value|] eqn:Hvalue.
  - assert (Hstep : ∃ out', add_named_sum p runCounter i out = Ok out').
    { unfold add_named_sum.
      rewrite (proj2 (vec_at_Ok _ _ _) Hlabel), (proj2 (vec_at_Ok _ _ _) Hvalue).
      simpl. eauto. }
    destruct Hstep as [out' ->]. cbn [mbind result_bind].
    apply lookup_lt_Some in Hvalue. apply IH; lia.
  - assert (Hstep : add_named_sum p runCounter i out = Undefined).
    { unfold add_named_sum, vec_at. now rewrite Hlabel, Hvalue. }
    now rewrite Hstep.
Qed.

(** X13: the table of the run carries [genEventCount], [genEventSumw],
    [genEventSumw2] and the vectors [LHEScaleSumw] and [LHEPdfSumw] of the
    run counter.  With an empty [sumNamed] (no LHE payload in the run) it
    carries nothing else; otherwise one entry [LHESumw_<label>] per
    configured label, in their order, with the sum at the same index.  A
    non-empty [sumNamed] with fewer entries than there are labels is
    indexed past its end. *)
Theorem run_table_of_the_counter (p : GenWeightsTableProducer) (runCounter : Counter) :
  let scalars :=
    [("genEventSumw", "sum of gen weights", sumw runCounter);
     ("genEventSumw2", "sum of gen (weight^2)", sumw2 runCounter)] in
  let table := fun named =>
    mkCounterTable
      [("genEventCount", "event count", num runCounter)]
      (scalars ++ named)
      [("LHEScaleSumw", "Sum of genEventWeight * LHEScaleWeight[i]", sumScale runCounter);
       ("LHEPdfSumw", "Sum of genEventWeight * LHEPdfWeight[i]", sumPDF runCounter)] in
  (sumNamed runCounter = [] → globalEndRunProduce p runCounter = Ok (table []))
  ∧ (sumNamed runCounter ≠ [] →
     (length (namedWeightLabels_ p) ≤ length (sumNamed runCounter))%nat →
     globalEndRunProduce p runCounter =
       Ok (table (zip_with named_sum_entry (namedWeightLabels_ p) (sumNamed runCounter))))
  ∧ (sumNamed runCounter ≠ [] →
     (length (sumNamed runCounter) < length (namedWeightLabels_ p))%nat →
     globalEndRunProduce p runCounter = Undefined).
Proof.
  unfold globalEndRunProduce. cbv zeta. split; [|split].
  - intros ->. reflexivity.
  - intros Hne Hlen. rewrite bool_decide_eq_false_2 by exact Hne. simpl negb. cbv iota.
    unfold for_loop. rewrite named_sums_loop_defined by (simpl; lia).
    rewrite !drop_0, firstn_all. simpl. do 4 f_equal.
    apply list_eq. intros i. rewrite !lookup_zip_with.
    destruct (namedWeightLabels_ p !! i) as [label|] eqn:Hlabel; simpl; [|reflexivity].
    rewrite lookup_take_lt; [reflexivity|]. now apply lookup_lt_Some in Hlabel.
  - intros Hne Hlen. rewrite bool_decide_eq_false_2 by exact Hne. simpl negb. cbv iota.
    unfold for_loop. apply named_sums_loop_undefined; simpl; lia.
Qed.

Lemma merge_same_length_vectors (sum other : list long_double) (n : nat) :
  (sum = [] ∨ length sum = n) → length other = n →
  (length sum ≤ length other)%nat
  ∧ length (zip_with ld_add (zeros_if_empty (length other) sum) other) = n.
Proof.
  intros Hsum Hother. unfold zeros_if_empty.
  destruct Hsum as [->|Hsum].
  - simpl. rewrite length_zip_with, length_replicate. lia.
  - destruct (bool_decide (sum = [])); rewrite length_zip_with, ?length_replicate; lia.
Qed.

Lemma end_streams_same_lengths (lens : nat * nat * nat) (ids : list nat)
    (st : ModuleState) (counters : list Counter) (runCounter : Counter) :
  Forall2 (fun id c => streamCaches st !! id = Some c) ids counters →
  Forall (has_lengths lens) counters →
  (sumScale runCounter = [] ∨ length (sumScale runCounter) = lens.1.1) →
  (sumPDF runCounter = [] ∨ length (sumPDF runCounter) = lens.1.2) →
  (sumNamed runCounter = [] ∨ length (sumNamed runCounter) = lens.2) →
  ∃ total,
    end_streams ids st runCounter = Ok total
    ∧ num total = num runCounter + total_num counters
    ∧ (sumScale total = [] ∨ length (sumScale total) = lens.1.1)
    ∧ (sumPDF total = [] ∨ length (sumPDF total) = lens.1.2)
    ∧ (sumNamed total = [] ∨ length (sumNamed total) = lens.2)
    ∧ (ids ≠ [] → has_lengths lens total).
Proof.
  intros Hids. revert runCounter.
  induction Hids as [|id c ids counters Hc Hids IH]; intros runCounter Hall HS HP HN.
  - exists runCounter. simpl. unfold total_num. simpl.
    rewrite Z.add_0_r. split; [reflexivity|]. split; [reflexivity|].
    split; [exact HS|]. split; [exact HP|]. split; [exact HN|]. congruence.
  - inversion Hall as [|c0 l (HcS & HcP & HcN) Hrest]; subst.
    simpl. unfold streamEndRunSummary.
    rewrite (proj2 (vec_at_Ok _ _ _) Hc). simpl.
    destruct (merge_same_length_vectors _ _ _ HS HcS) as [HleS HlS].
    destruct (merge_same_length_vectors _ _ _ HP HcP) as [HleP HlP].
    destruct (merge_same_length_vectors _ _ _ HN HcN) as [HleN HlN].
    unfold merge.
    rewrite (merge_add_defined _ _ HleS). simpl.
    rewrite (merge_add_defined _ _ HleP). simpl.
    rewrite (merge_add_defined _ _ HleN). simpl.
    match goal with |- ∃ total, end_streams ids st ?rc = _ ∧ _ =>
      destruct (IH rc Hrest) as (total & Hrun & Hnum & HtS & HtP & HtN & Hfull);
        [right; exact HlS|right; exact HlP|right; exact HlN|]
    end.
    exists total. split; [exact Hrun|]. simpl in Hnum.
    split; [rewrite Hnum; unfold total_num; simpl; lia|].
    split; [exact HtS|]. split; [exact HtP|]. split; [exact HtN|].
    intros _. destruct ids as [|id' ids'].
    + inversion Hids; subst. simpl in Hrun. inversion Hrun; subst.
      split; [exact HlS|]. split; [exact HlP|exact HlN].
    + apply Hfull. discriminate.
Qed.

(** X14: when the sum vectors have the same three lengths on all the
    streams that are merged (none has seen an LHE payload, or each has seen
    one of the run), the merges at the end of the run are all defined, in
    whatever order the streams end: the run counter counts the events of
    all of them and its vectors have those lengths. *)
Theorem streams_of_equal_lengths_merge
    (lens : nat * nat * nat) (ids : list nat) (st : ModuleState)
    (counters : list Counter) :
  Forall2 (fun id c => streamCaches st !! id = Some c) ids counters →
  Forall (has_lengths lens) counters →
  ∃ total,
    end_streams ids st globalBeginRunSummary = Ok total
    ∧ num total = total_num counters
    ∧ (ids ≠ [] → has_lengths lens total).
Proof.
  intros Hids Hall.
  destruct (end_streams_same_lengths lens ids st counters globalBeginRunSummary Hids Hall)
    as (total & Hrun & Hnum & _ & _ & _ & Hfull); [now left..|].
  exists total. split; [exact Hrun|]. split; [|exact Hfull].
  rewrite Hnum. reflexivity.
Qed.

(** ** A run without LHE payload, from its events to its table *)

Lemma process_events_without_lhe p weightChoice events (st : ModuleState) :
  Forall (has_lengths (0%nat, 0%nat, 0%nat)) (streamCaches st) →
  Forall (fun e => (e.1 < length (streamCaches st))%nat
                   ∧ ev_genInfo e.2 ≠ None ∧ ev_lheInfo e.2 = None) events →
  ∃ st' tables,
    process_events p weightChoice events st = Ok (st', tables)
    ∧ Forall (has_lengths (0%nat, 0%nat, 0%nat)) (streamCaches st')
    ∧ length (streamCaches st') = length (streamCaches st)
    ∧ total_num (streamCaches st') = total_num (streamCaches st) + Z.of_nat (length events)
    ∧ Forall (fun t => ft_columns (out_LHEScale t) = []
                       ∧ ft_columns (out_LHEPdf t) = []
                       ∧ ft_columns (out_LHENamed t) = []) tables.
Proof.
  revert st. induction events as [|[id iEvent] rest IH]; intros st Hempty Hevents.
  - exists st, []. simpl. rewrite Z.add_0_r. auto.
  - inversion Hevents as [|e l (Hid & Hgen & Hlhe) Hrest]; subst. simpl in Hid, Hgen, Hlhe.
    destruct (lookup_lt_is_Some_2 (streamCaches st) id Hid) as [counter Hc].
    destruct (ev_genInfo iEvent) as [genInfo|] eqn:HgenInfo; [|congruence].
    cbn [process_events]. unfold produce.
    rewrite (proj2 (vec_at_Ok _ _ _) Hc), HgenInfo, Hlhe. simpl.
    match goal with |- ∃ st' tables, (process_events _ _ _ ?st1 ≫= _) = _ ∧ _ =>
      destruct (IH st1) as (st' & tables & Hrun & Hempty' & Hlen & Hnum & Htables)
    end.
    + simpl. apply Forall_insert; [exact Hempty|].
      exact (proj1 (Forall_lookup _ _) Hempty id counter Hc).
    + simpl. rewrite length_insert. exact Hrest.
    + rewrite Hrun. simpl. eexists _, _. split; [reflexivity|].
      simpl in Hlen, Hnum. rewrite length_insert in Hlen.
      rewrite (total_num_insert _ _ _ _ Hc) in Hnum. simpl in Hnum.
      split; [exact Hempty'|]. split; [exact Hlen|].
      split; [rewrite Hnum; lia|].
      constructor; [simpl; auto|exact Htables].
Qed.

Lemma total_num_of_ids (counters : list Counter) (ids : list nat) (cs : list Counter) :
  Forall2 (fun id c => counters !! id = Some c) ids cs →
  total_num cs = foldr (fun id n => num_at counters id + n) 0 ids.
Proof.
  induction 1 as [|id c ids cs Hc Hids IH]; [reflexivity|].
  unfold total_num in *. simpl. unfold num_at at 1. now rewrite Hc, IH.
Qed.

Lemma total_num_of_seq (before counters : list Counter) :
  foldr (fun id n => num_at (before ++ counters) id + n) 0
        (seq (length before) (length counters))
  = total_num counters.
Proof.
  revert before. induction counters as [|c counters IH]; intros before; [reflexivity|].
  simpl. unfold num_at at 1. rewrite list_lookup_middle by reflexivity.
  specialize (IH (before ++ [c])). rewrite <- app_assoc in IH. simpl in IH.
  rewrite length_app in IH. simpl in IH.
  replace (length before + 1)%nat with (S (length before)) in IH by lia.
  rewrite IH. reflexivity.
Qed.

Lemma num_of_ids_permutation (counters : list Counter) (ids ids' : list nat) :
  ids ≡ₚ ids' →
  foldr (fun id n => num_at counters id + n) 0 ids
  = foldr (fun id n => num_at counters id + n) 0 ids'.
Proof.
  induction 1 as [|id ids ids' Hp IH|id1 id2 ids|ids1 ids2 ids3 H1 IH1 H2 IH2]; simpl.
  - reflexivity.
  - now rewrite IH.
  - lia.
  - now rewrite IH1.
Qed.

Lemma counters_of_ids (P : Counter → Prop) (counters : list Counter) (ids : list nat) :
  Forall P counters →
  Forall (fun id => (id < length counters)%nat) ids →
  ∃ cs, Forall2 (fun id c => counters !! id = Some c) ids cs ∧ Forall P cs.
Proof.
  intros HP. induction 1 as [|id ids Hid Hids IH]; [exists []; auto|].
  destruct IH as (cs & Hcs & HPcs).
  destruct (lookup_lt_is_Some_2 counters id Hid) as [c Hc].
  exists (c :: cs). split; [constructor; assumption|].
  constructor; [|exact HPcs]. exact (proj1 (Forall_lookup _ _) HP id c Hc).
Qed.

(** X15: a run without LHE payload, whatever the streams its events run
    on and whatever the order in which the streams end.  From counters that
    [streamBeginRun] has cleared, every event is processed and gets three
    LHE tables without columns; merging each stream once gives a run
    counter that counts all the events and has empty vectors; and the table
    of the run carries that count, the two sums, two empty vectors and no
    named entry. *)
Theorem run_without_lhe_counts_its_events
    (p : GenWeightsTableProducer) (weightChoice : DynamicWeightChoice)
    (events : list (nat * Event)) (st : ModuleState) (ids : list nat) :
  Forall (fun c => c = clear c) (streamCaches st) →
  Forall (fun e => (e.1 < length (streamCaches st))%nat
                   ∧ ev_genInfo e.2 ≠ None ∧ ev_lheInfo e.2 = None) events →
  ids ≡ₚ seq 0 (length (streamCaches st)) →
  ∃ st' tables total,
    process_events p weightChoice events st = Ok (st', tables)
    ∧ Forall (fun t => ft_columns (out_LHEScale t) = []
                       ∧ ft_columns (out_LHEPdf t) = []
                       ∧ ft_columns (out_LHENamed t) = []) tables
    ∧ end_streams ids st' globalBeginRunSummary = Ok total
    ∧ num total = Z.of_nat (length events)
    ∧ sumScale total = [] ∧ sumPDF total = [] ∧ sumNamed total = []
    ∧ globalEndRunProduce p total =
        Ok (mkCounterTable
              [("genEventCount", "event count", Z.of_nat (length events))]
              [("genEventSumw", "sum of gen weights", sumw total);
               ("genEventSumw2", "sum of gen (weight^2)", sumw2 total)]
              [("LHEScaleSumw", "Sum of genEventWeight * LHEScaleWeight[i]", []);
               ("LHEPdfSumw", "Sum of genEventWeight * LHEPdfWeight[i]", [])]).
Proof.
  intros Hclear Hevents Hids.
  assert (Hempty : Forall (has_lengths (0%nat, 0%nat, 0%nat)) (streamCaches st)).
  { eapply Forall_impl; [exact Hclear|]. intros c ->. repeat split. }
  assert (Hzero : total_num (streamCaches st) = 0).
  { clear -Hclear. induction Hclear as [|c cs Hc Hcs IH]; [reflexivity|].
    unfold total_num in *. simpl. rewrite IH, Hc. reflexivity. }
  destruct (process_events_without_lhe p weightChoice events st Hempty Hevents)
    as (st' & tables & Hrun & Hempty' & Hlen & Hnum & Htables).
  assert (Hvalid : Forall (fun id => (id < length (streamCaches st'))%nat) ids).
  { rewrite Hlen. apply Forall_forall. intros id Hid. rewrite Hids in Hid.
    apply elem_of_seq in Hid. lia. }
  destruct (counters_of_ids _ _ _ Hempty' Hvalid) as (cs & Hcs & Hcsempty).
  destruct (end_streams_same_lengths (0%nat, 0%nat, 0%nat) ids st' cs
              globalBeginRunSummary Hcs Hcsempty)
    as (total & Hend & Htotal & HS & HP & HN & _); [now left..|].
  assert (HnilS : sumScale total = []).
  { destruct HS as [H|H]; [exact H|]. now destruct (sumScale total). }
  assert (HnilP : sumPDF total = []).
  { destruct HP as [H|H]; [exact H|]. now destruct (sumPDF total). }
  assert (HnilN : sumNamed total = []).
  { destruct HN as [H|H]; [exact H|]. now destruct (sumNamed total). }
  assert (Hcount : num total = Z.of_nat (length events)).
  { rewrite Htotal, (total_num_of_ids _ _ _ Hcs), (num_of_ids_permutation _ _ _ Hids).
    rewrite <- Hlen.
    pose proof (total_num_of_seq [] (streamCaches st')) as Hseq.
    cbn [app length] in Hseq. rewrite Hseq, Hnum, Hzero. reflexivity. }
  exists st', tables, total.
  split; [exact Hrun|]. split; [exact Htables|]. split; [exact Hend|].
  split; [exact Hcount|]. split; [exact HnilS|]. split; [exact HnilP|].
  split; [exact HnilN|].
  unfold globalEndRunProduce. cbv zeta. rewrite HnilN, HnilS, HnilP, Hcount.
  reflexivity.
Qed.

(** ** The begin of a run and the flags *)

Lemma begin_streams_clears ids (st : ModuleState) :
  Forall (fun id => (id < length (streamCaches st))%nat) ids →
  ∃ st',
    begin_streams ids st = Ok st'
    ∧ atomics st' = atomics st
    ∧ messages st' = messages st
    ∧ length (streamCaches st') = length (streamCaches st)
    ∧ (∀ i, i ∈ ids → streamCaches st' !! i = Some Counter_new)
    ∧ (∀ i, i ∉ ids → streamCaches st' !! i = streamCaches st !! i).
Proof.
  revert st. induction ids as [|id rest IH]; intros st Hids.
  - exists st. repeat split; try reflexivity. intros i Hi. inversion Hi.
  - inversion Hids as [|? ? Hid Hrest]; subst.
    destruct (lookup_lt_is_Some_2 (streamCaches st) id Hid) as [counter Hc].
    cbn [begin_streams]. unfold streamBeginRun.
    rewrite (proj2 (vec_at_Ok _ _ _) Hc). simpl.
    match goal with |- ∃ st', begin_streams _ ?st1 = _ ∧ _ =>
      destruct (IH st1) as (st' & Hrun & Ha & Hm & Hlen & Hin & Hout)
    end.
    { simpl. rewrite length_insert. exact Hrest. }
    simpl in Ha, Hm, Hlen, Hout. rewrite length_insert in Hlen.
    exists st'. split; [exact Hrun|]. split; [exact Ha|]. split; [exact Hm|].
    split; [exact Hlen|]. split.
    + intros i Hi. destruct (decide (i ∈ rest)) as [Hr|Hr]; [exact (Hin i Hr)|].
      apply elem_of_cons in Hi. destruct Hi as [->|Hi]; [|contradiction].
      rewrite (Hout id Hr). apply list_lookup_insert_eq. exact Hid.
    + intros i Hi. apply not_elem_of_cons in Hi. destruct Hi as [Hne Hr].
      rewrite (Hout i Hr). apply list_lookup_insert_ne. congruence.
Qed.

(** X16: when the run has begun on every stream, in whatever order and
    however often, nothing is left of what the counters held before: every
    stream has the empty counter, as many streams as before, and the flags
    and the messages are as they were. *)
Theorem streams_begin_a_run_empty (ids : list nat) (st : ModuleState) :
  (∀ id, id ∈ ids ↔ (id < length (streamCaches st))%nat) →
  ∃ st',
    begin_streams ids st = Ok st'
    ∧ streamCaches st' = replicate (length (streamCaches st)) Counter_new
    ∧ Forall (fun c => c = clear c) (streamCaches st')
    ∧ atomics st' = atomics st
    ∧ messages st' = messages st.
Proof.
  intros Hids.
  assert (Hvalid : Forall (fun id => (id < length (streamCaches st))%nat) ids).
  { apply Forall_forall. intros id Hid. now apply Hids. }
  destruct (begin_streams_clears ids st Hvalid)
    as (st' & Hrun & Ha & Hm & Hlen & Hin & _).
  assert (Hall : streamCaches st' = replicate (length (streamCaches st)) Counter_new).
  { apply list_eq. intros i.
    destruct (le_lt_dec (length (streamCaches st)) i) as [Hge|Hlt].
    - rewrite (proj2 (lookup_ge_None _ _)) by lia.
      symmetry. now apply lookup_replicate_None.
    - rewrite (Hin i (proj2 (Hids i) Hlt)).
      symmetry. now apply lookup_replicate_2. }
  exists st'. split; [exact Hrun|]. split; [exact Hall|].
  split; [|split; [exact Ha|exact Hm]].
  rewrite Hall. apply Forall_replicate. reflexivity.
Qed.

Lemma produce_flags p id weightChoice iEvent (st st' : ModuleState) tables :
  produce p id weightChoice iEvent st = Ok (st', tables) →
  debugRun_ (atomics st') = debugRun_ (atomics st)
  ∧ (ev_lheInfo iEvent = None →
     debug_ (atomics st') = debug_ (atomics st)
     ∧ hasIssuedWarning_ (atomics st') = false)
  ∧ (ev_lheInfo iEvent ≠ None →
     debug_ (atomics st') = false
     ∧ hasIssuedWarning_ (atomics st') = hasIssuedWarning_ (atomics st)
     ∧ messages st' = messages st).
Proof.
  intros H. unfold produce in H.
  inv_bind H. inv_bind H.
  destruct (ev_lheInfo iEvent) as [lheProd|].
  - inv_bind H. destruct x1 as [[counter' a'] [[tS tP] tN]].
    inversion H; subst; clear H. simpl.
    unfold fillLHEWeightTables in Hx1. simpl in Hx1.
    destruct (normalized_weights _ _ _ _ _) as [[wScale wPDF] wNamed].
    inv_bind Hx1. inv_bind Hx1. inversion Hx1; subst; clear Hx1. simpl.
    split; [reflexivity|]. split; [intros; discriminate|]. intros _. auto.
  - simpl in H. inversion H; subst; clear H. simpl.
    split; [reflexivity|]. split; [auto|]. intros Hne. now contradiction Hne.
Qed.

Lemma count_without_lhe_le (events : list (nat * Event)) :
  (count_without_lhe events ≤ length events)%nat.
Proof.
  induction events as [|[j iEvent] rest IH]; simpl; [lia|].
  destruct (ev_lheInfo iEvent); lia.
Qed.

(** X17: the two debugging flags are one-shot, where the warning flag is
    not.  [globalBeginRun] leaves [debugRun_] false whatever the run holds
    and touches no other flag; the events of a run leave [debugRun_] as it
    is; [debug_] is unchanged after events that all lack the LHE payload and
    false as soon as one of them has it; [hasIssuedWarning_] is false after
    the events when one of them lacks the LHE payload, and a false
    [hasIssuedWarning_] stays false. *)
Theorem debug_flags_are_cleared_once
    (p : GenWeightsTableProducer) (iRun : Run) (a : Atomics)
    (weightChoice : DynamicWeightChoice) (events : list (nat * Event))
    (st st' : ModuleState) (tables : list EventTables) :
  process_events p weightChoice events st = Ok (st', tables) →
  fst (globalBeginRun stof p iRun a)
    = mkAtomics (debug_ a) false (hasIssuedWarning_ a)
  ∧ debugRun_ (atomics st') = debugRun_ (atomics st)
  ∧ (count_without_lhe events = length events →
     debug_ (atomics st') = debug_ (atomics st))
  ∧ ((count_without_lhe events < length events)%nat →
     debug_ (atomics st') = false)
  ∧ ((0 < count_without_lhe events)%nat →
     hasIssuedWarning_ (atomics st') = false)
  ∧ (hasIssuedWarning_ (atomics st) = false →
     hasIssuedWarning_ (atomics st') = false).
Proof.
  intros Hrun. split; [reflexivity|].
  revert st st' tables Hrun.
  induction events as [|[j iEvent] rest IH]; intros st st' tables H; simpl in H.
  - inversion H; subst. simpl. split; [reflexivity|]. split; [reflexivity|].
    split; [lia|]. split; [lia|auto].
  - inv_bind H. destruct x as [st1 t1]. simpl in H.
    inv_bind H. destruct x as [st2 more]. simpl in H. inversion H; subst; clear H.
    destruct (produce_flags _ _ _ _ _ _ _ Hx) as (Hrun1 & Hnone & Hsome).
    destruct (IH _ _ _ Hx0) as (HrunR & HallR & HsomeR & HwarnR & HkeepR).
    pose proof (count_without_lhe_le rest) as Hle.
    split; [now rewrite HrunR|].
    simpl. destruct (ev_lheInfo iEvent) as [lheProd|].
    + destruct Hsome as (Hdebug & Hwarn & _); [discriminate|].
      assert (Hfalse : debug_ (atomics st') = false).
      { destruct (le_lt_eq_dec _ _ Hle) as [Hlt|Heq]; [exact (HsomeR Hlt)|].
        now rewrite (HallR Heq). }
      split; [lia|]. split; [intros _; exact Hfalse|].
      split; [exact HwarnR|]. intros Hst. apply HkeepR. now rewrite Hwarn.
    + destruct (Hnone eq_refl) as [Hdebug Hwarn].
      split; [intros Heq; rewrite HallR by lia; exact Hdebug|].
      split; [intros Hlt; apply HsomeR; lia|].
      split; intros _; exact (HkeepR Hwarn).
Qed.

End Properties.

(** * The model run on sample inputs *)

(** The samples take [long double] to be binary64. *)
#[local] Existing Instance binary64_long_double.

Example globalBeginRun_sample :
  globalBeginRun stof_sample sample_producer (run_with complete_header) fresh_atomics
  = (fresh_atomics, Ok sample_result).
Proof. vm_compute. reflexivity. Qed.

Lemma constructor_checks_named_sizes_witness :
  GenWeightsTableProducer_new sample_params_mismatch =
    Throw (CmsException "Configuration"
             "Size mismatch between namedWeightIDs & namedWeightLabels")
  ∧ ∃ p a,
      GenWeightsTableProducer_new sample_params = Ok (p, a)
      ∧ namedWeightIDs_ p = ["PSw0"; "PSw1"]
      ∧ namedWeightLabels_ p = ["isrUp"; "fsrUp"]
      ∧ preferredPDFLHAIDs_ p = [91400; 306000; 260000]
      ∧ hasIssuedWarning_ a = false.
Proof.
  split.
  - apply (proj1 (constructor_checks_named_sizes sample_params_mismatch)).
    simpl. lia.
  - apply (proj2 (constructor_checks_named_sizes sample_params)).
    reflexivity.
Defined.

Lemma missing_run_record_and_missing_lhe_payload_witness :
  snd (globalBeginRun stof_sample sample_producer (mkRun None) fresh_atomics)
    = Ok (mkChoice [] EmptyString [] EmptyString)
  ∧ ∃ st' tables,
      produce sample_producer 0 DynamicWeightChoice_new (event_without_lhe 3) one_stream
        = Ok (st', tables)
      ∧ out_LHEScale tables = mkFlatTable 1 "LHEScaleWeights" true EmptyString []
      ∧ out_LHEPdf tables = mkFlatTable 1 "LHEPdfWeights" true EmptyString []
      ∧ out_LHENamed tables = mkFlatTable 1 "LHENamedWeights" true EmptyString []
      ∧ streamCaches st' = [mkCounter 1 3%float 9%float [] [] []].
Proof.
  destruct (missing_run_record_and_missing_lhe_payload (LD := binary64_long_double)
              stof_sample sample_producer fresh_atomics) as [Hrun Hevent].
  split; [exact Hrun|].
  destruct (Hevent 0%nat DynamicWeightChoice_new (event_without_lhe 3) one_stream
              Counter_new (mkGenEventInfoProduct 3) eq_refl eq_refl eq_refl)
    as (st' & tables & Hproduce & HS & HP & HN & Hcounter & _).
  exists st', tables.
  split; [exact Hproduce|]. split; [exact HS|]. split; [exact HP|]. split; [exact HN|].
  rewrite Hcounter. vm_compute. reflexivity.
Defined.

Lemma warning_logged_for_every_event_without_lhe_witness :
  ∃ st' tables,
    process_events sample_producer DynamicWeightChoice_new two_events_without_lhe one_stream
      = Ok (st', tables)
    ∧ messages st' = [no_lhe_warning; no_lhe_warning]
    ∧ hasIssuedWarning_ (atomics st') = false.
Proof.
  assert (Hrun : ∃ st' tables,
            process_events sample_producer DynamicWeightChoice_new
              two_events_without_lhe one_stream = Ok (st', tables))
    by (vm_compute; eauto).
  destruct Hrun as (st' & tables & Hrun). exists st', tables.
  split; [exact Hrun|].
  exact (warning_logged_for_every_event_without_lhe sample_producer
           DynamicWeightChoice_new two_events_without_lhe one_stream st' tables
           eq_refl Hrun).
Defined.

Lemma merge_of_empty_other_reads_out_of_range_witness :
  merge counter_with_scale_sums Counter_new = Undefined.
Proof.
  apply merge_of_empty_other_reads_out_of_range; try reflexivity.
  left. discriminate.
Defined.

(** The run counter after the end of two streams, of which the first has
    seen an event with LHE payload and the second no event at all. *)
Example merge_after_a_stream_without_events :
  ∃ busy,
    incLHE Counter_new 1 [1.5; 0.5]%float [] [] = Ok busy
    ∧ let st := mkModuleState [busy; clear Counter_new] fresh_atomics [] in
      (runCounter ← streamEndRunSummary 0 st globalBeginRunSummary;
       streamEndRunSummary 1 st runCounter) = Undefined.
Proof. eexists. split; vm_compute; reflexivity. Qed.

(** C1, as stated, fails where an identifier is configured twice: the
    named weights 7 and 7 with the labels up and down, an event whose
    weight 7 is 3 and whose nominal weight is 2.  The identifier of the
    column down appears in the event, yet the column holds 1 and not 3/2. *)
Lemma repeated_identifier_keeps_one :
  ∃ st' tables,
    GenWeightsTableProducer_new repeating_params = Ok (repeating_producer, fresh_atomics)
    ∧ produce repeating_producer 0 DynamicWeightChoice_new event_with_one_weight one_stream
      = Ok (st', tables)
    ∧ namedWeightIDs_ repeating_producer !! 1%nat = Some "7"
    ∧ last_weight [mkWGT "7" 3] "7" = Some 3%float
    ∧ ft_columns (out_LHENamed tables) !! 2%nat =
        Some (mkColumn "down" [1%float] (named_doc "7") FloatColumn)
    ∧ (3 / 2)%float ≠ 1%float.
Proof.
  eexists _, _. split; [reflexivity|]. split; [vm_compute; reflexivity|].
  split; [reflexivity|]. split; [reflexivity|]. split; [reflexivity|].
  intros H. apply (f_equal (fun x => PrimFloat.eqb x 1)) in H.
  vm_compute in H. discriminate.
Qed.

Lemma normalized_columns_of_an_lhe_event_witness :
  ∃ st' tables,
    produce sample_producer 0 sample_choice event_with_scale_weights one_stream
      = Ok (st', tables)
    ∧ (∃ wScale,
         ft_columns (out_LHEScale tables) = [mkColumn EmptyString wScale "scale" FloatColumn]
         ∧ wScale !! 0%nat = Some (1 / 2)%float
         ∧ wScale !! 1%nat = Some 1%float)
    ∧ ft_columns (out_LHENamed tables) !! 2%nat
        = Some (mkColumn "fsrUp" [(5 / 2)%float] (named_doc "PSw1") FloatColumn).
Proof.
  assert (Hrun : ∃ st' tables,
            produce sample_producer 0 sample_choice event_with_scale_weights one_stream
              = Ok (st', tables))
    by (vm_compute; eauto).
  destruct Hrun as (st' & tables & Hrun). exists st', tables.
  split; [exact Hrun|].
  destruct (normalized_columns_of_an_lhe_event sample_producer 0 sample_choice
              event_with_scale_weights _ one_stream st' tables eq_refl Hrun)
    as ((wScale & Hcol & _ & Hfirst) & _ & (wNamed & (_ & HfirstN) & Hnamed)).
  split.
  - exists wScale. split; [exact Hcol|]. split.
    + apply (Hfirst 0%nat "1001"). split; [reflexivity|]. intros j Hj. lia.
    + apply (Hfirst 1%nat "1002"). split; [reflexivity|].
      intros [|j] Hj; [discriminate|lia].
  - destruct (Hnamed 1%nat "PSw1" eq_refl) as (label & value & Hlabel & Hvalue & Hcolumn).
    rewrite Hcolumn. injection Hlabel as <-.
    rewrite (HfirstN 1%nat "PSw1") in Hvalue.
    + injection Hvalue as <-. reflexivity.
    + split; [reflexivity|]. intros [|j] Hj; [discriminate|lia].
Defined.

Lemma zero_nominal_lhe_weight_is_divided_by_witness :
  ∃ counter' a' tS tP tN,
    fillLHEWeightTables sample_producer Counter_new sample_choice 1
      lhe_with_zero_nominal_weight fresh_atomics = Ok (counter', a', (tS, tP, tN))
    ∧ map col_values (ft_columns tS) = [[infinity; 1%float]]
    ∧ map col_values (ft_columns tP) = [[1%float; nan]]
    ∧ is_finite (3 / 0)%float = false.
Proof.
  assert (Hrun : ∃ counter' a' tS tP tN,
            fillLHEWeightTables sample_producer Counter_new sample_choice 1
              lhe_with_zero_nominal_weight fresh_atomics = Ok (counter', a', (tS, tP, tN)))
    by (vm_compute; eauto 10).
  destruct Hrun as (counter' & a' & tS & tP & tN & Hrun).
  exists counter', a', tS, tP, tN. split; [exact Hrun|].
  destruct (zero_nominal_lhe_weight_is_divided_by sample_producer Counter_new counter'
              sample_choice 1%float lhe_with_zero_nominal_weight fresh_atomics a' tS tP tN
              eq_refl Hrun)
    as (wScale & wPDF & wNamed & Hvectors & HtS & HtP & _ & _ & Hscale & _).
  vm_compute in Hvectors. injection Hvectors as <- <- <-.
  split; [exact HtS|]. split; [exact HtP|].
  apply (Hscale 0%nat "1001" 3%float); [|reflexivity].
  split; [reflexivity|]. intros j Hj. lia.
Defined.

Lemma scale_weight_tiebreak_is_lexicographic_witness :
  ScaleVarWeight_lt scale_weight_10 scale_weight_9 = true
  ∧ ScaleVarWeight_lt scale_weight_9 scale_weight_10 = false
  ∧ std_sort [scale_weight_9; scale_weight_10] = [scale_weight_10; scale_weight_9]
  ∧ std_sort [scale_weight_10; scale_weight_9] = [scale_weight_10; scale_weight_9]
  ∧ stoi "9" = Ok 9 ∧ stoi "10" = Ok 10.
Proof.
  apply (scale_weight_tiebreak_is_lexicographic scale_weight_10 scale_weight_9);
    reflexivity.
Defined.

Lemma preferred_pdf_group_is_selected_witness :
  snd (globalBeginRun stof_sample sample_producer (run_with complete_header) fresh_atomics)
    = Ok sample_result
  ∧ preferredPDFLHAIDs_ sample_producer = [91400; 306000; 260000]
  ∧ pdfWeightIDs sample_result = ["2001"; "2002"].
Proof.
  assert (Hrun : snd (globalBeginRun stof_sample sample_producer (run_with complete_header)
                        fresh_atomics) = Ok sample_result)
    by (vm_compute; reflexivity).
  split; [exact Hrun|]. split; [reflexivity|].
  destruct (preferred_pdf_group_is_selected stof_sample sample_producer
              (run_with complete_header) _ fresh_atomics sample_result eq_refl Hrun)
    as (acc & Hread & _ & _ & Hexample & _).
  vm_compute in Hread. injection Hread as <-.
  apply (Hexample 91400 306000 260000 (mkPDFSetWeights ["2001"; "2002"] (306000, 306001))).
  - reflexivity.
  - constructor; [left; reflexivity|].
    constructor; [right; reflexivity|]. constructor.
  - lia.
  - lia.
  - exists [], [mkPDFSetWeights ["2003"] (260000, 260000)].
    split; [reflexivity|]. split; [reflexivity|constructor].
Defined.

Lemma scale_doc_overwrites_its_introduction_witness :
  snd (globalBeginRun stof_sample sample_producer (run_with complete_header) fresh_atomics)
    = Ok sample_result
  ∧ scaleWeightsDoc sample_result
      = "[0] is muR=1 muF=1 ; [1] is muR=2 muF=2 ominal); "
  ∧ scaleWeightsDoc sample_result ≠
      String.append scale_doc_start "[0] is muR=1 muF=1 ; [1] is muR=2 muF=2 ".
Proof.
  assert (Hrun : snd (globalBeginRun stof_sample sample_producer (run_with complete_header)
                        fresh_atomics) = Ok sample_result)
    by (vm_compute; reflexivity).
  split; [exact Hrun|]. split; [reflexivity|].
  destruct (scale_doc_overwrites_its_introduction stof_sample sample_producer
              (run_with complete_header) _ fresh_atomics sample_result eq_refl Hrun)
    as (acc & _ & _ & Hnot & _).
  apply Hnot.
Defined.

Lemma implicit_close_gives_the_same_choice_witness :
  closes_group closer_line ∧ opens_group pdf_opener_line
  ∧ globalBeginRun stof_sample sample_producer (run_with incomplete_header) fresh_atomics
    = globalBeginRun stof_sample sample_producer (run_with complete_header) fresh_atomics
  ∧ snd (globalBeginRun stof_sample sample_producer (run_with incomplete_header)
           fresh_atomics) = Ok sample_result.
Proof.
  assert (Hc : closes_group closer_line) by (repeat split; vm_compute; reflexivity).
  assert (Ho : opens_group pdf_opener_line) by (repeat split; vm_compute; reflexivity).
  split; [exact Hc|]. split; [exact Ho|].
  destruct (implicit_close_gives_the_same_choice stof_sample sample_producer fresh_atomics
              [] [] "initrwgt" closer_line pdf_opener_line
              lines_before_pdf_group lines_of_pdf_group Hc Ho) as [Hsame Hok].
  split; [exact Hsame|].
  apply Hok. vm_compute. reflexivity.
Defined.

Lemma merge_defined_iff_other_covers_witness :
  merge counter_with_scale_sums counter_with_three_scale_sums
    = Ok (mkCounter 3 4%float 6%float [] [2%float; 0.75%float] [])
  ∧ merge counter_with_three_scale_sums counter_with_scale_sums = Undefined.
Proof.
  split.
  - rewrite (proj1 (merge_defined_iff_other_covers counter_with_scale_sums
                      counter_with_three_scale_sums)).
    + vm_compute. reflexivity.
    + repeat split; simpl; lia.
  - apply (proj2 (merge_defined_iff_other_covers counter_with_three_scale_sums
                    counter_with_scale_sums)).
    intros (H & _). simpl in H. lia.
Defined.

Lemma incLHE_defined_iff_sums_take_variations_witness :
  incLHE counter_with_scale_sums 2 [1; 3]%float [] []
    = Ok (mkCounter 2 3%float 5%float [] [3.5%float; 6.5%float] [])
  ∧ incLHE counter_with_scale_sums 2 [1; 3; 5]%float [] [] = Undefined.
Proof.
  split.
  - destruct (incLHE_defined_iff_sums_take_variations counter_with_scale_sums 2
                [1; 3]%float [] []) as [Hfits _].
    rewrite Hfits.
    + vm_compute. reflexivity.
    + split; [right; right; simpl; lia|]. split; left; reflexivity.
  - destruct (incLHE_defined_iff_sums_take_variations counter_with_scale_sums 2
                [1; 3; 5]%float [] []) as [_ Hnot].
    apply Hnot. intros ([H|[H|H]] & _); [discriminate|discriminate|simpl in H; lia].
Defined.

Lemma events_of_a_run_are_all_processed_witness :
  ∃ st' tables,
    process_events sample_producer sample_choice events_on_two_streams two_streams
      = Ok (st', tables)
    ∧ length (streamCaches st') = 2%nat
    ∧ length tables = 3%nat.
Proof.
  destruct (events_of_a_run_are_all_processed sample_producer sample_choice
              events_on_two_streams two_streams)
    as (st' & tables & Hrun & _ & Hstreams & Htables).
  - reflexivity.
  - repeat constructor.
  - repeat constructor; simpl; try lia; discriminate.
  - exists st', tables. split; [exact Hrun|]. split; [exact Hstreams|exact Htables].
Defined.

Lemma stream_counter_sums_its_events_witness :
  ∃ st' tables counter',
    process_events sample_producer sample_choice events_on_two_streams two_streams
      = Ok (st', tables)
    ∧ streamCaches st' !! 0%nat = Some counter'
    ∧ num counter' = 2
    ∧ sumw counter' = 2%float.
Proof.
  assert (Hrun : ∃ st' tables,
            process_events sample_producer sample_choice events_on_two_streams
              two_streams = Ok (st', tables))
    by (vm_compute; eauto).
  destruct Hrun as (st' & tables & Hrun).
  destruct (stream_counter_sums_its_events sample_producer sample_choice
              events_on_two_streams two_streams st' tables 0%nat Counter_new
              Hrun eq_refl)
    as (counter' & Hlookup & Hnum & Hsumw & _).
  exists st', tables, counter'.
  split; [exact Hrun|]. split; [exact Hlookup|]. split; [exact Hnum|].
  rewrite Hsumw. vm_compute. reflexivity.
Defined.

Lemma streams_count_every_event_once_witness :
  ∃ st' tables,
    process_events sample_producer sample_choice events_on_two_streams two_streams
      = Ok (st', tables)
    ∧ total_num (streamCaches st') = 3
    ∧ length tables = 3%nat.
Proof.
  assert (Hrun : ∃ st' tables,
            process_events sample_producer sample_choice events_on_two_streams
              two_streams = Ok (st', tables))
    by (vm_compute; eauto).
  destruct Hrun as (st' & tables & Hrun). exists st', tables.
  split; [exact Hrun|].
  exact (streams_count_every_event_once sample_producer sample_choice
           events_on_two_streams two_streams st' tables Hrun).
Defined.

Lemma tables_of_an_event_are_well_formed_witness :
  ∃ st' tables,
    produce sample_producer 0 sample_choice event_with_scale_weights one_stream
      = Ok (st', tables)
    ∧ table_well_formed (out_LHEScale tables)
    ∧ ft_size (out_LHEScale tables) = 2%nat
    ∧ ft_size (out_LHENamed tables) = 1%nat
    ∧ length (ft_columns (out_LHENamed tables)) = 3%nat.
Proof.
  assert (Hrun : ∃ st' tables,
            produce sample_producer 0 sample_choice event_with_scale_weights one_stream
              = Ok (st', tables))
    by (vm_compute; eauto).
  destruct Hrun as (st' & tables & Hrun). exists st', tables.
  split; [exact Hrun|].
  destruct (tables_of_an_event_are_well_formed sample_producer 0 sample_choice
              event_with_scale_weights one_stream st' tables Hrun)
    as (_ & Hscale & _ & _ & Hsizes).
  split; [exact Hscale|].
  destruct Hsizes as (HS & _ & HN & Hcols); [discriminate|].
  split; [exact HS|]. split; [exact HN|exact Hcols].
Defined.

Lemma order_of_distinct_weights_is_irrelevant_witness :
  produce sample_producer 0 sample_choice
          (lhe_event (Some (mkGenEventInfoProduct 1)) 2 [mkWGT "1001" 3; mkWGT "PSw1" 5])
          one_stream
  = produce sample_producer 0 sample_choice
            (lhe_event (Some (mkGenEventInfoProduct 1)) 2 [mkWGT "PSw1" 5; mkWGT "1001" 3])
            one_stream.
Proof.
  apply order_of_distinct_weights_is_irrelevant.
  - apply perm_swap.
  - simpl. apply NoDup_cons. split; [|apply NoDup_singleton].
    intros H. inversion H as [|? ? ? H']. inversion H'.
Defined.

Lemma no_group_opener_gives_the_empty_choice_witness :
  snd (globalBeginRun stof_sample sample_producer
         (mkRun (Some (mkLHERunInfoProduct [header_without_group; header_of_another_tag])))
         fresh_atomics)
  = Ok (mkChoice [] EmptyString [] EmptyString).
Proof.
  apply no_group_opener_gives_the_empty_choice.
  constructor; [|constructor; [|constructor]].
  - intros _. repeat constructor.
  - intros H. discriminate.
Defined.

Lemma group_of_another_name_is_skipped_witness :
  globalBeginRun stof_sample sample_producer (run_with header_with_other_group)
                 fresh_atomics
  = globalBeginRun stof_sample sample_producer (run_with complete_header) fresh_atomics
  ∧ snd (globalBeginRun stof_sample sample_producer (run_with header_with_other_group)
           fresh_atomics) = Ok sample_result.
Proof.
  assert (Hopener : ∃ groups,
            regex_search other_opener_line weightgroup = Some groups
            ∧ enter_group (group_str groups 2) = InOther)
    by (eexists; split; vm_compute; reflexivity).
  destruct Hopener as (groups & Hgroups & Hother).
  assert (Hsame :
            globalBeginRun stof_sample sample_producer (run_with header_with_other_group)
                           fresh_atomics
            = globalBeginRun stof_sample sample_producer (run_with complete_header)
                             fresh_atomics).
  { apply (group_of_another_name_is_skipped stof_sample sample_producer fresh_atomics
             [] [] "initrwgt" other_opener_line closer_line groups
             lines_of_other_group (lines complete_header) Hgroups Hother).
    - repeat constructor.
    - vm_compute. reflexivity. }
  split; [exact Hsame|].
  rewrite Hsame. vm_compute. reflexivity.
Defined.

Lemma pdf_groups_are_runs_of_consecutive_ids_witness :
  ∃ acc,
    read_headers stof_sample sample_producer [complete_header] (mkCollected [] [])
                 DynamicWeightChoice_new = Ok (acc, sample_result)
    ∧ pdfSetWeightIDs acc =
        [mkPDFSetWeights ["2001"; "2002"] (306000, 306001);
         mkPDFSetWeights ["2003"] (260000, 260000)]
    ∧ Forall group_contiguous (pdfSetWeightIDs acc)
    ∧ runs_apart (pdfSetWeightIDs acc).
Proof.
  assert (Hrun : snd (globalBeginRun stof_sample sample_producer (run_with complete_header)
                        fresh_atomics) = Ok sample_result)
    by (vm_compute; reflexivity).
  destruct (pdf_groups_are_runs_of_consecutive_ids stof_sample sample_producer
              (run_with complete_header) _ fresh_atomics sample_result eq_refl Hrun)
    as (acc & Hread & Hgroups & Hapart).
  exists acc. split; [exact Hread|]. split; [|split; [exact Hgroups|exact Hapart]].
  vm_compute in Hread. injection Hread as <-. reflexivity.
Defined.

Lemma scale_ids_are_the_collected_ids_in_order_witness :
  ∃ weightChoice,
    snd (globalBeginRun stof_sample sample_producer (run_with header_with_four_scales)
           fresh_atomics) = Ok weightChoice
    ∧ scaleWeightIDs weightChoice = ["1000"; "1001"; "1003"; "1002"].
Proof.
  assert (Hscan : ∃ raw,
            scan_lines stof_sample Outside (lines header_with_four_scales)
                       (mkCollected [] []) = Ok raw
            ∧ Forall scales_are_numbers (scaleVariationIDs raw)
            ∧ map sv_wid (scaleVariationIDs raw) = ["1002"; "1001"; "1003"; "1000"]).
  { eexists. split; [vm_compute; reflexivity|]. simpl.
    split; [repeat constructor|reflexivity]. }
  destruct Hscan as (raw & Hscan & Hnum & _).
  destruct (scale_ids_are_the_collected_ids_in_order stof_sample sample_producer
              fresh_atomics [] [] header_with_four_scales raw
              (Forall_nil_2 _) (Forall_nil_2 _) eq_refl Hscan Hnum)
    as (weightChoice & Hrun & _ & _).
  exists weightChoice. split; [exact Hrun|].
  vm_compute in Hrun. injection Hrun as <-. reflexivity.
Defined.

Lemma run_table_of_the_counter_witness :
  (∃ table,
     globalEndRunProduce sample_producer counter_with_scale_sums = Ok table
     ∧ map (fun entry => entry.1.1) (ct_floats table) = ["genEventSumw"; "genEventSumw2"])
  ∧ (∃ table,
       globalEndRunProduce sample_producer counter_with_named_sums = Ok table
       ∧ map (fun entry => (entry.1.1, entry.2)) (ct_floats table)
         = [("genEventSumw", 1%float); ("genEventSumw2", 1%float);
            ("LHESumw_isrUp", 7%float); ("LHESumw_fsrUp", 8%float)])
  ∧ globalEndRunProduce sample_producer counter_with_one_named_sum = Undefined.
Proof.
  split; [|split].
  - destruct (run_table_of_the_counter sample_producer counter_with_scale_sums)
      as (Hempty & _ & _).
    eexists. split; [apply Hempty; reflexivity|]. reflexivity.
  - destruct (run_table_of_the_counter sample_producer counter_with_named_sums)
      as (_ & Hnamed & _).
    eexists. split; [apply Hnamed; [discriminate|simpl; lia]|]. reflexivity.
  - destruct (run_table_of_the_counter sample_producer counter_with_one_named_sum)
      as (_ & _ & Hshort).
    apply Hshort; [discriminate|simpl; lia].
Defined.

Lemma streams_of_equal_lengths_merge_witness :
  ∃ total,
    end_streams [1%nat; 0%nat] two_busy_streams globalBeginRunSummary = Ok total
    ∧ num total = 3
    ∧ has_lengths (2%nat, 0%nat, 0%nat) total.
Proof.
  destruct (streams_of_equal_lengths_merge (2%nat, 0%nat, 0%nat) [1%nat; 0%nat]
              two_busy_streams [counter_with_other_scale_sums; counter_with_scale_sums])
    as (total & Hend & Hnum & Hlens).
  - repeat constructor.
  - repeat constructor.
  - exists total. split; [exact Hend|]. split; [exact Hnum|].
    apply Hlens. discriminate.
Defined.

Lemma run_without_lhe_counts_its_events_witness :
  ∃ st' tables total,
    process_events sample_producer sample_choice events_without_lhe_on_two_streams
                   two_streams = Ok (st', tables)
    ∧ end_streams [1%nat; 0%nat] st' globalBeginRunSummary = Ok total
    ∧ num total = 3
    ∧ ∃ table,
        globalEndRunProduce sample_producer total = Ok table
        ∧ ct_ints table = [("genEventCount", "event count", 3)].
Proof.
  destruct (run_without_lhe_counts_its_events sample_producer sample_choice
              events_without_lhe_on_two_streams two_streams [1%nat; 0%nat])
    as (st' & tables & total & Hrun & _ & Hend & Hnum & _ & _ & _ & Htable).
  - repeat constructor.
  - repeat constructor; simpl; try lia; discriminate.
  - apply perm_swap.
  - exists st', tables, total.
    split; [exact Hrun|]. split; [exact Hend|]. split; [exact Hnum|].
    eexists. split; [exact Htable|]. reflexivity.
Defined.

Lemma streams_begin_a_run_empty_witness :
  ∃ st',
    begin_streams [1%nat; 0%nat; 1%nat] two_busy_streams = Ok st'
    ∧ streamCaches st' = [Counter_new; Counter_new].
Proof.
  destruct (streams_begin_a_run_empty [1%nat; 0%nat; 1%nat] two_busy_streams)
    as (st' & Hrun & Hstreams & _).
  - intros id. rewrite !elem_of_cons, elem_of_nil. simpl. lia.
  - exists st'. split; [exact Hrun|exact Hstreams].
Defined.

Lemma debug_flags_are_cleared_once_witness :
  ∃ st' tables,
    process_events sample_producer sample_choice events_on_two_streams
                   two_debugging_streams = Ok (st', tables)
    ∧ fst (globalBeginRun stof_sample sample_producer (run_with complete_header)
             debugging_atomics) = mkAtomics true false false
    ∧ debugRun_ (atomics st') = true
    ∧ debug_ (atomics st') = false
    ∧ hasIssuedWarning_ (atomics st') = false.
Proof.
  assert (Hrun : ∃ st' tables,
            process_events sample_producer sample_choice events_on_two_streams
              two_debugging_streams = Ok (st', tables))
    by (vm_compute; eauto).
  destruct Hrun as (st' & tables & Hrun). exists st', tables.
  split; [exact Hrun|].
  destruct (debug_flags_are_cleared_once stof_sample sample_producer
              (run_with complete_header) debugging_atomics sample_choice
              events_on_two_streams two_debugging_streams st' tables Hrun)
    as (Hbegin & HdebugRun & _ & Hdebug & Hwarn & _).
  split; [exact Hbegin|]. split; [exact HdebugRun|].
  split; [apply Hdebug; simpl; lia|apply Hwarn; simpl; lia].
Defined.
